(** * Branch and bound for the CVRP (m-TSP relaxation, Little's reduction)

    A shallow embedding of [code/branchnbound.py] and the properties of
    its search engine.

    Conventions of the embedding.
    - A numpy [float64] is a value of [fl]: the three IEEE special values
      and the finite numbers, the latter as exact rationals.  Addition,
      subtraction and comparison follow IEEE 754 on the special values
      (inf - inf = nan, every comparison with nan is false); rounding and
      overflow of finite values are not modelled.
    - A Python exception is a value [Err e] of the [result] monad; a loop
      whose bound is not syntactic runs on fuel, [NoFuel] is the only
      outcome that is not a Python outcome, and it is proved unreachable.
    - A numpy 2-d array, and the list of lists that [convert] builds, is a
      [list (list fl)]; row 0 and column 0 carry the node-id labels.
    - A partial solution is a record of values.  Every node of the pool
      owns its matrix and its edges ([init_from_partial] copies them) and
      is changed only between its creation and its entry into the pool,
      so the engine is modelled on values; the section on objects and
      references models the store and shows what the clones share. *)

From Stdlib Require Import QArith Qround Lqa.
From stdpp Require Import base list gmap.

Local Open Scope nat_scope.

(** ** Floating point values *)

Inductive fl : Type :=
| Fin (q : Q)
| PInf
| NInf
| NaN.

Definition is_nan (a : fl) : bool :=
  match a with NaN => true | _ => false end.

Definition is_finite (a : fl) : bool :=
  match a with Fin _ => true | _ => false end.

Definition fneg (a : fl) : fl :=
  match a with
  | Fin x => Fin (- x)
  | PInf => NInf
  | NInf => PInf
  | NaN => NaN
  end.

Definition fadd (a b : fl) : fl :=
  match a, b with
  | NaN, _ | _, NaN => NaN
  | PInf, NInf | NInf, PInf => NaN
  | PInf, _ | _, PInf => PInf
  | NInf, _ | _, NInf => NInf
  | Fin x, Fin y => Fin (x + y)
  end.

Definition fsub (a b : fl) : fl := fadd a (fneg b).

(** [a == b] *)
Definition feq (a b : fl) : bool :=
  match a, b with
  | Fin x, Fin y => Qeq_bool x y
  | PInf, PInf | NInf, NInf => true
  | _, _ => false
  end.

(** [a < b] *)
Definition flt (a b : fl) : bool :=
  match a, b with
  | NaN, _ | _, NaN => false
  | Fin x, Fin y => negb (Qle_bool y x)
  | NInf, NInf | PInf, _ | _, NInf => false
  | NInf, _ | _, PInf => true
  end.

(** [a <= b] *)
Definition fle (a b : fl) : bool :=
  match a, b with
  | NaN, _ | _, NaN => false
  | Fin x, Fin y => Qle_bool x y
  | NInf, _ | _, PInf => true
  | PInf, _ | _, NInf => false
  end.

Definition fgt (a b : fl) : bool := flt b a.
Definition fge (a b : fl) : bool := fle b a.

Definition fl_of_nat (n : nat) : fl := Fin (inject_Z (Z.of_nat n)).

(** ** Exceptions *)

Inductive exn : Type :=
| ValueError
| TypeError
| IndexError
| OverflowError
| KeyError
| AttributeError.

Inductive result (A : Type) : Type :=
| Ok (a : A)
| Err (e : exn)
| NoFuel.
Arguments Ok {A} a.
Arguments Err {A} e.
Arguments NoFuel {A}.

#[global] Instance result_ret : MRet result := fun A a => Ok a.
#[global] Instance result_bind : MBind result := fun A B f m =>
  match m with
  | Ok a => f a
  | Err e => Err e
  | NoFuel => NoFuel
  end.

Definition is_ok {A} (r : result A) : bool :=
  match r with Ok _ => true | _ => false end.

(** [for i in range(lo, lo + n): s = body(i, s)] *)
Fixpoint for_range {St : Type} (lo n : nat) (body : nat -> St -> result St) (s : St)
  : result St :=
  match n with
  | 0 => Ok s
  | S n' => s' ← body lo s; for_range (S lo) n' body s'
  end.

(** [[f(x) for x in l]] with exceptions *)
Fixpoint map_result {A B : Type} (f : A -> result B) (l : list A) : result (list B) :=
  match l with
  | [] => Ok []
  | x :: l' => y ← f x; ys ← map_result f l'; Ok (y :: ys)
  end.

(** ** Matrices *)

Definition ndarray : Type := list (list fl).

(** [m[i][j]] and [m[i, j]] for indices that are not negative *)
Definition cell (m : ndarray) (i j : nat) : result fl :=
  match m !! i with
  | Some row => match row !! j with
                | Some v => Ok v
                | None => Err IndexError
                end
  | None => Err IndexError
  end.

(** [m[i][j] = v] and [m[i, j] = v] *)
Definition set_cell (m : ndarray) (i j : nat) (v : fl) : result ndarray :=
  match m !! i with
  | Some row => if decide (j < length row)
                then Ok (<[i := <[j := v]> row]> m)
                else Err IndexError
  | None => Err IndexError
  end.

(** [len(m[i])] *)
Definition row_len (m : ndarray) (i : nat) : result nat :=
  match m !! i with
  | Some row => Ok (length row)
  | None => Err IndexError
  end.

(** [m[:, 0]], the label column; numpy arrays are rectangular, a ragged
    list of lists has no column. *)
Definition column (m : ndarray) (j : nat) : result (list fl) :=
  map_result (fun row => match row !! j with
                         | Some v => Ok v
                         | None => Err IndexError
                         end) m.

(** [m[1:, 1:]], the data region *)
Definition data_of (m : ndarray) : list (list fl) := map (drop 1) (drop 1 m).

(** ** MatrixTransform: [BnBPartialSolution.convert] *)

(** The label written at position [i] of the index row and column. *)
Definition label_at (fleet_size i : nat) : fl :=
  if decide (i <= fleet_size) then fl_of_nat 1 else fl_of_nat (i - fleet_size + 1).

Definition convert (matrix : list (list fl)) (fleet_size : nat) : result ndarray :=
  let n := length matrix + fleet_size in
  (* initialize matrix *)
  let converted : list (list fl) := replicate n (replicate n PInf) in
  (* make first row an index row *)
  len0 ← row_len converted 0;
  converted ← for_range 1 (len0 - 1)
    (fun i c => set_cell c 0 i (label_at fleet_size i)) converted;
  (* make first column an index column *)
  converted ← for_range 1 (length converted - 1)
    (fun i c => set_cell c i 0 (label_at fleet_size i)) converted;
  (* seting depot distance for columns *)
  converted ← for_range 1 (fleet_size + 1 - 1)
    (fun i c =>
       len_i ← row_len c i;
       '(c, _) ← for_range (fleet_size + 1) (len_i - (fleet_size + 1))
         (fun j '(c, matrix_item) =>
            v ← cell matrix 0 matrix_item;
            c ← set_cell c i j v;
            Ok (c, matrix_item + 1))
         (c, 1);
       Ok c) converted;
  (* seting depot distance for rows; the bound of the inner range reads
     the loop variable [i] as the previous loop left it, which is
     [fleet_size] whenever this loop runs at all *)
  '(converted, _) ← for_range 1 (fleet_size + 1 - 1)
    (fun j '(c, i_var) =>
       len_i ← row_len c i_var;
       '(c, i_var, _) ← for_range (fleet_size + 1) (len_i - (fleet_size + 1))
         (fun i '(c, _, matrix_row) =>
            v ← cell matrix matrix_row 0;
            c ← set_cell c i j v;
            Ok (c, i, matrix_row + 1))
         (c, i_var, 1);
       Ok (c, i_var)) (converted, fleet_size);
  (* copying the rest of the values *)
  '(converted, _) ← for_range (fleet_size + 1) (length converted - (fleet_size + 1))
    (fun i '(c, matrix_row) =>
       len_i ← row_len c i;
       '(c, _) ← for_range (fleet_size + 1) (len_i - (fleet_size + 1))
         (fun j '(c, matrix_item) =>
            v ← cell matrix matrix_row matrix_item;
            c ← set_cell c i j v;
            c ← (if decide (i = j) then set_cell c i j PInf else Ok c);
            Ok (c, matrix_item + 1))
         (c, 1);
       Ok (c, matrix_row + 1)) (converted, 1);
  Ok converted.

(** ** BoundCalculator: Little's reduction, [BnBPartialSolution.bound] *)

(** numpy's [min] of a 1-d array: nan propagates, a zero-size array has no
    minimum ([ValueError]). *)
Definition np_min (l : list fl) : result fl :=
  match l with
  | [] => Err ValueError
  | x :: l' =>
      Ok (if existsb is_nan l then NaN
          else fold_left (fun acc y => if flt y acc then y else acc) l' x)
  end.

(** Python's builtin [min] of an iterable: the first element that no later
    element is [<] than. *)
Definition py_min (l : list fl) : result fl :=
  match l with
  | [] => Err ValueError
  | x :: l' => Ok (fold_left (fun acc y => if flt y acc then y else acc) l' x)
  end.

(** Python's builtin [sum], which starts from [0] *)
Definition py_sum (l : list fl) : fl := fold_left fadd l (Fin 0).

(** [d.min(axis=1)] *)
Definition min_axis1 (d : list (list fl)) : result (list fl) := map_result np_min d.

(** The columns of a rectangular array. *)
Definition columns (d : list (list fl)) : list (list fl) :=
  match d with
  | [] => []
  | r :: _ => map (fun j => map (fun row => nth j row NaN) d) (seq 0 (length r))
  end.

(** [d.min(axis=0)] *)
Definition min_axis0 (d : list (list fl)) : result (list fl) :=
  match d with
  | [] => Err ValueError
  | _ => map_result np_min (columns d)
  end.

(** [m[1:, 1:] -= row_minimums[:, np.newaxis]] *)
Definition sub_rows (m : ndarray) (row_minimums : list fl) : ndarray :=
  match m with
  | [] => []
  | labels :: rows =>
      labels :: zip_with (fun row rm =>
                            match row with
                            | [] => []
                            | l :: xs => l :: map (fun x => fsub x rm) xs
                            end) rows row_minimums
  end.

(** [m[1:, 1:] -= column_minimums] *)
Definition sub_cols (m : ndarray) (column_minimums : list fl) : ndarray :=
  match m with
  | [] => []
  | labels :: rows =>
      labels :: map (fun row =>
                       match row with
                       | [] => []
                       | l :: xs => l :: zip_with fsub xs column_minimums
                       end) rows
  end.

(** The body of [bound] on the matrix alone: the reduced matrix and the
    value [float(sum(row_minimums) + sum(column_minimums))]. *)
Definition bound_matrix (m : ndarray) : result (ndarray * fl) :=
  row_minimums ← min_axis1 (data_of m);
  let m := sub_rows m row_minimums in
  column_minimums ← min_axis0 (data_of m);
  let m := sub_cols m column_minimums in
  Ok (m, fadd (py_sum row_minimums) (py_sum column_minimums)).

(** ** EdgeSelector: [BnBPartialSolution.select_edge] *)

Definition edge : Type := fl * fl.

(** [x is 0] for a [numpy.float64] object [x]: the object is never the
    integer object [0]. *)
Definition is_int_zero (x : fl) : bool := false.

(** [row = m[i, 1:].copy(); row[j - 1] = float("inf"); min(row)] *)
Definition min_row_without (m : ndarray) (i j : nat) : result fl :=
  match m !! i with
  | Some r => let row := drop 1 r in
              if decide (j - 1 < length row) then py_min (<[j - 1 := PInf]> row)
              else Err IndexError
  | None => Err IndexError
  end.

(** [column = m[1:, j].copy(); column[i - 1] = float("inf"); min(column)] *)
Definition min_column_without (m : ndarray) (i j : nat) : result fl :=
  col ← column (drop 1 m) j;
  if decide (i - 1 < length col) then py_min (<[i - 1 := PInf]> col)
  else Err IndexError.

(** [penalty = min(row) + min(column)] of the cell [(i, j)] *)
Definition penalty (m : ndarray) (i j : nat) : result fl :=
  a ← min_row_without m i j;
  b ← min_column_without m i j;
  Ok (fadd a b).

(** One pass of the inner loop body.  [best_edge] is [None] for the
    Python pair [(None, None)]. *)
Definition select_step (m : ndarray) (i j : nat)
    (st : option edge * fl) : result (option edge * fl) :=
  let '(best_edge, highest_penalty) := st in
  x ← cell m i j;
  if is_int_zero x then Ok st
  else
    p ← penalty m i j;
    if fgt p highest_penalty then
      row_index ← cell m i 0;
      col_index ← cell m 0 j;
      Ok (Some (row_index, col_index), p)
    else Ok st.

Definition select_edge_matrix (m : ndarray) : result (option edge) :=
  '(best_edge, _) ← for_range 1 (length m - 1)
    (fun i st => for_range 1 (length m - 1) (fun j st => select_step m i j st) st)
    (None, Fin 0);
  Ok best_edge.

(** ** PartialSolution: [BnBPartialSolution] *)

#[global] Instance Q_eq_dec : EqDecision Q.
Proof. solve_decision. Defined.

#[global] Instance fl_eq_dec : EqDecision fl.
Proof. solve_decision. Defined.

(** The value of the attribute [is_feasible]: [True], [False], or the
    [edges] dictionary of the parent, which [init_from_partial] stores
    there. *)
Inductive feasibility : Type :=
| FTrue
| FFalse
| FEdges (included excluded : list edge).

(** Truth value of [is_feasible] in [if solution.is_feasible:]; the
    dictionary always has its two keys [True] and [False], so it is
    never empty. *)
Definition truthy (f : feasibility) : bool :=
  match f with
  | FTrue | FEdges _ _ => true
  | FFalse => false
  end.

(** [is_feasible is False] *)
Definition is_False (f : feasibility) : bool :=
  match f with
  | FFalse => true
  | FTrue | FEdges _ _ => false
  end.

Record BnBPartialSolution : Type := mkPartial {
  lookup_matrix : ndarray;
  (** [network.get_node(id).demand]; [None] where the network has no
      such node, which is a [KeyError] *)
  network : Z -> option Q;
  routes : option (list (list edge));
  distance_matrix : ndarray;
  lower_bound : fl;
  (** [edges[True]], the included edges, and [edges[False]], the
      excluded ones, in the order of insertion *)
  edges_True : list edge;
  edges_False : list edge;
  is_feasible : feasibility;
  solved : bool;
  capacity : Q
}.

Definition set_routes (r : option (list (list edge))) (p : BnBPartialSolution) :=
  mkPartial (lookup_matrix p) (network p) r (distance_matrix p) (lower_bound p)
            (edges_True p) (edges_False p) (is_feasible p) (solved p) (capacity p).
Definition set_distance_matrix (m : ndarray) (p : BnBPartialSolution) :=
  mkPartial (lookup_matrix p) (network p) (routes p) m (lower_bound p)
            (edges_True p) (edges_False p) (is_feasible p) (solved p) (capacity p).
Definition set_lower_bound (b : fl) (p : BnBPartialSolution) :=
  mkPartial (lookup_matrix p) (network p) (routes p) (distance_matrix p) b
            (edges_True p) (edges_False p) (is_feasible p) (solved p) (capacity p).
Definition set_edges_True (l : list edge) (p : BnBPartialSolution) :=
  mkPartial (lookup_matrix p) (network p) (routes p) (distance_matrix p) (lower_bound p)
            l (edges_False p) (is_feasible p) (solved p) (capacity p).
Definition set_edges_False (l : list edge) (p : BnBPartialSolution) :=
  mkPartial (lookup_matrix p) (network p) (routes p) (distance_matrix p) (lower_bound p)
            (edges_True p) l (is_feasible p) (solved p) (capacity p).
Definition set_is_feasible_attr (f : feasibility) (p : BnBPartialSolution) :=
  mkPartial (lookup_matrix p) (network p) (routes p) (distance_matrix p) (lower_bound p)
            (edges_True p) (edges_False p) f (solved p) (capacity p).
Definition set_solved (b : bool) (p : BnBPartialSolution) :=
  mkPartial (lookup_matrix p) (network p) (routes p) (distance_matrix p) (lower_bound p)
            (edges_True p) (edges_False p) (is_feasible p) b (capacity p).

(** The problem instance, an external collaborator: the raw distance
    matrix, the demand of a node and the capacities of the fleet's
    vehicles. *)
Record Instance : Type := mkInstance {
  inst_distance_matrix : list (list fl);
  inst_network : Z -> option Q;
  inst_fleet : list Q
}.

(** [init_from_instance] writes the class attributes and [cls(cls)] copies
    them into the new object. *)
Definition init_from_instance (instance : Instance) : result BnBPartialSolution :=
  m ← convert (inst_distance_matrix instance) (length (inst_fleet instance));
  cap ← match inst_fleet instance !! 0 with
        | Some c => Ok c
        | None => Err IndexError
        end;
  Ok {| lookup_matrix := inst_distance_matrix instance;
        network := inst_network instance;
        routes := None;
        distance_matrix := m;
        lower_bound := Fin 0;
        edges_True := [];
        edges_False := [];
        is_feasible := FTrue;
        solved := false;
        capacity := cap |}.

(** [init_from_partial]: the matrix is copied, the edges are deep-copied,
    and [is_feasible] receives [partial.edges], the dictionary of the
    parent ([clone] below has the references). *)
Definition init_from_partial (partial : BnBPartialSolution) : BnBPartialSolution :=
  {| lookup_matrix := lookup_matrix partial;
     network := network partial;
     routes := None;
     distance_matrix := distance_matrix partial;
     lower_bound := lower_bound partial;
     edges_True := edges_True partial;
     edges_False := edges_False partial;
     is_feasible := FEdges (edges_True partial) (edges_False partial);
     solved := solved partial;
     capacity := capacity partial |}.

(** [bound]: [lower_bound] is a number in every object that the class
    builds, so [+=] never raises [TypeError]. *)
Definition bound (p : BnBPartialSolution) : result (BnBPartialSolution * fl) :=
  '(m, lb) ← bound_matrix (distance_matrix p);
  Ok (set_lower_bound (fadd (lower_bound p) lb) (set_distance_matrix m p), lb).

Definition is_solved (p : BnBPartialSolution) : bool := solved p.

(** Index of the first element that satisfies [f] *)
Fixpoint find_index {A : Type} (f : A -> bool) (l : list A) : option nat :=
  match l with
  | [] => None
  | x :: l' => if f x then Some 0 else S <$> find_index f l'
  end.

Definition edge_to_real_indexes_matrix (m : ndarray) (e : edge) : result (nat * nat) :=
  let '(row, column_) := e in
  col0 ← column m 0;
  let real_row := find_index (fun row_index => feq row row_index) col0 in
  row0 ← match m !! 0 with Some r => Ok r | None => Err IndexError end;
  let real_column := find_index (fun col_index => feq column_ col_index) row0 in
  match real_row, real_column with
  | Some i, Some j => Ok (i, j)
  | _, _ => Err ValueError
  end.

Definition edge_to_real_indexes (p : BnBPartialSolution) (e : edge) : result (nat * nat) :=
  edge_to_real_indexes_matrix (distance_matrix p) e.

(** [len(self.distance_matrix) is 3]: CPython holds one object for each
    small integer, so the identity test is an equality test. *)
Definition is_leaf (p : BnBPartialSolution) : result bool :=
  if decide (length (distance_matrix p) = 3) then Ok true
  else if decide (length (distance_matrix p) < 3) then Err ValueError
  else Ok false.

Definition solve_leaf (p : BnBPartialSolution) : result BnBPartialSolution :=
  let m := distance_matrix p in
  row_index ← cell m 1 0;
  c11 ← cell m 1 1;
  col_index ←
    (if negb (feq c11 PInf) then cell m 0 1
     else c12 ← cell m 1 2;
          if negb (feq c12 PInf) then cell m 0 2 else Err ValueError);
  let edge1 := (row_index, col_index) in
  row_index ← cell m 2 0;
  c21 ← cell m 2 1;
  col_index ←
    (if negb (feq c21 PInf) then cell m 0 1
     else c22 ← cell m 2 2;
          if negb (feq c22 PInf) then cell m 0 2 else Err ValueError);
  let edge2 := (row_index, col_index) in
  Ok (set_solved true (set_edges_True (edges_True p ++ [edge1; edge2]) p)).

(** ** RouteReconstructor *)

(** [x is DEPOT] for a node id [x] read from the matrix: a
    [numpy.float64] object is never the integer object [1]. *)
Definition is_DEPOT (x : fl) : bool := false.

(** [x in l] for a list of numbers *)
Definition fl_in (x : fl) (l : list fl) : bool := existsb (feq x) l.

Definition edge_eqb (a b : edge) : bool := feq a.1 b.1 && feq a.2 b.2.

(** [e in l] for a list of edges *)
Definition edge_in (e : edge) (l : list edge) : bool := existsb (edge_eqb e) l.

Definition route_edges_to_nodes (route : list edge) : list fl :=
  fold_left (fun converted_route '(entry, exit) =>
               let converted_route :=
                 if negb (fl_in entry converted_route)
                 then converted_route ++ [entry] else converted_route in
               if negb (fl_in exit converted_route) || is_DEPOT exit
               then converted_route ++ [exit] else converted_route)
            route [].

Definition routes_edges_to_nodes (p : BnBPartialSolution) : result (list (list fl)) :=
  match routes p with
  | None => Err TypeError
  | Some rs => Ok (map route_edges_to_nodes rs)
  end.

(** The scan [for i, route_edge in enumerate(route)] of one route, with
    [prev] the element before the current one ([None] at [i == 0]).  The
    result is the route after [route.insert], or [None] when the scan
    ends without inserting. *)
Fixpoint insert_in_route (e : edge) (prev : option edge) (route : list edge)
  : option (list edge) :=
  match route with
  | [] => None
  | route_edge :: rest =>
      if feq e.2 route_edge.1 && negb (is_DEPOT e.2) then
        if match prev with
           | None => true
           | Some pr => feq pr.2 e.1
           end
        then Some (e :: route_edge :: rest)
        else cons route_edge <$> insert_in_route e (Some route_edge) rest
      else if feq route_edge.2 e.1 && negb (is_DEPOT e.1) then
        if match rest with
           | [] => true
           | next :: _ => feq e.2 next.1
           end
        then Some (route_edge :: e :: rest)
        else cons route_edge <$> insert_in_route e (Some route_edge) rest
      else cons route_edge <$> insert_in_route e (Some route_edge) rest
  end.

(** [for route in routes]: the [break] leaves the scan of one route only,
    so the edge goes into every route that accepts it. *)
Definition insert_in_routes (e : edge) (rs : list (list edge))
  : list (list edge) * bool :=
  fold_right (fun route '(acc, inserted) =>
                match insert_in_route e None route with
                | Some route' => (route' :: acc, true)
                | None => (route :: acc, inserted)
                end) ([], false) rs.

(** Keys of the dictionary [memo]: a lookup finds a key that is the same
    object or an equal one. *)
Definition key_eqb (a b : edge) : bool := bool_decide (a = b) || edge_eqb a b.

Definition memo_get (memo : list (edge * nat)) (e : edge) : option nat :=
  snd <$> find (fun kv => key_eqb kv.1 e) memo.

(** The [while edges] loop.  The deque is held right end first: [pop]
    takes the head, [appendleft] adds at the end. *)
Fixpoint construct_loop (fuel : nat) (rs : list (list edge)) (edges : list edge)
    (memo : list (edge * nat)) : result (list (list edge)) :=
  match edges with
  | [] => Ok rs
  | e :: edges =>
      match fuel with
      | 0 => NoFuel
      | S fuel =>
          let '(rs, inserted) := insert_in_routes e rs in
          if inserted then construct_loop fuel rs edges memo
          else
            match memo_get memo e with
            | Some n =>
                let memo := (e, n + 1) :: memo in
                if decide (10 < n + 1)
                then construct_loop fuel (rs ++ [[e]]) edges memo
                else construct_loop fuel rs (edges ++ [e]) memo
            | None => construct_loop fuel rs (edges ++ [e]) ((e, 1) :: memo)
            end
      end
  end.

Definition construct_routes (p : BnBPartialSolution) : result BnBPartialSolution :=
  match rev (edges_True p) with
  | [] => Err IndexError
  | e :: edges =>
      rs ← construct_loop (11 * length edges + 1) [[e]] edges [];
      Ok (set_routes (Some rs) p)
  end.

(** ** Sub-tour elimination and FeasibilityChecker *)

(** [for x in l: s = f(x, s)] *)
Fixpoint fold_result {A St : Type} (f : A -> St -> result St) (l : list A) (s : St)
  : result St :=
  match l with
  | [] => Ok s
  | x :: l' => s' ← f x s; fold_result f l' s'
  end.

(** One pass of the loop of [prevent_revisiting]; only [ValueError] is
    caught. *)
Definition forbid_closing (route : list fl) (m : ndarray) : result ndarray :=
  match last route, head route with
  | Some tail_, Some head_ =>
      match edge_to_real_indexes_matrix m (tail_, head_) with
      | Ok (i, j) => set_cell m i j PInf
      | Err ValueError => Ok m
      | Err e => Err e
      | NoFuel => NoFuel
      end
  | _, _ => Err IndexError
  end.

Definition prevent_revisiting (p : BnBPartialSolution) : result BnBPartialSolution :=
  rs ← routes_edges_to_nodes p;
  m ← fold_result forbid_closing rs (distance_matrix p);
  Ok (set_distance_matrix m p).

(** [int(x)] of a float: truncation, [ValueError] on nan and
    [OverflowError] on an infinity *)
Definition py_int (x : fl) : result Z :=
  match x with
  | Fin q => Ok (if Qle_bool 0 q then Qfloor q else Qceiling q)
  | PInf | NInf => Err OverflowError
  | NaN => Err ValueError
  end.

(** The inner loop of [set_is_feasible] over one route; the state is the
    load and the attribute [is_feasible]. *)
Definition load_route (p : BnBPartialSolution) (route : list fl) (f : feasibility)
  : result feasibility :=
  '(_, f) ← fold_result (fun node_id '(load, f) =>
                id ← py_int node_id;
                demand ← match network p id with
                         | Some d => Ok d
                         | None => Err KeyError
                         end;
                let load := (load + demand)%Q in
                if negb (Qle_bool load (capacity p)) then Ok (load, FFalse)
                else Ok (load, f)) route (0%Q, f);
  Ok f.

Definition set_is_feasible (p : BnBPartialSolution) : result BnBPartialSolution :=
  routes_nodes ← routes_edges_to_nodes p;
  f ← fold_result (load_route p) routes_nodes (is_feasible p);
  Ok (set_is_feasible_attr f p).

(** ** The two transitions *)

Definition with_edge_branch (p : BnBPartialSolution) (e : edge) : result BnBPartialSolution :=
  if edge_in e (edges_True p) then Ok (set_is_feasible_attr FFalse p)
  else
    let p := set_edges_True (edges_True p ++ [e]) p in
    '(i, j) ← edge_to_real_indexes p e;
    let matrix := delete i (distance_matrix p) in
    let matrix := map (delete j) matrix in
    let p := set_distance_matrix matrix p in
    leaf ← is_leaf p;
    if leaf : bool return result BnBPartialSolution then
      p ← solve_leaf p;
      if is_solved p then
        p ← construct_routes p;
        set_is_feasible p
      else Ok (set_is_feasible_attr FFalse p)
    else
      p ← construct_routes p;
      p ← prevent_revisiting p;
      '(p, _) ← bound p;
      set_is_feasible p.

Definition without_edge_branch (p : BnBPartialSolution) (e : edge) : result BnBPartialSolution :=
  if edge_in e (edges_False p) then Ok (set_is_feasible_attr FFalse p)
  else
    let p := set_edges_False (edges_False p ++ [e]) p in
    '(i, j) ← edge_to_real_indexes p e;
    matrix ← set_cell (distance_matrix p) i j PInf;
    let p := set_distance_matrix matrix p in
    '(p, _) ← bound p;
    Ok p.

Definition select_edge (p : BnBPartialSolution) : result (option edge) :=
  select_edge_matrix (distance_matrix p).

(** ** BranchAndBoundEngine: [BranchNBound] *)

Record BranchNBound : Type := mkEngine {
  partial_solutions : list BnBPartialSolution;
  upper_bound : option fl;
  current_best : option BnBPartialSolution;
  times_branched : nat;
  initial_upper_bound : option fl
}.

Definition set_partial_solutions (l : list BnBPartialSolution) (e : BranchNBound) :=
  mkEngine l (upper_bound e) (current_best e) (times_branched e) (initial_upper_bound e).
Definition set_incumbent (v : fl) (s : BnBPartialSolution) (e : BranchNBound) :=
  mkEngine (partial_solutions e) (Some v) (Some s) (times_branched e)
           (initial_upper_bound e).
Definition set_times_branched (n : nat) (e : BranchNBound) :=
  mkEngine (partial_solutions e) (upper_bound e) (current_best e) n
           (initial_upper_bound e).

(** [BranchNBound()] *)
Definition new_engine : BranchNBound := mkEngine [] None None 0 None.

Definition initialize (e : BranchNBound) (instance : Instance) (ub : option fl)
  : result BranchNBound :=
  first_partial ← init_from_instance instance;
  '(first_partial, _) ← bound first_partial;
  Ok (mkEngine (partial_solutions e ++ [first_partial]) ub (Some first_partial)
               (times_branched e) ub).

(** [is_more_promising]: [None] is the value of the path that falls off
    the end of the function. *)
Definition is_more_promising (best current : BnBPartialSolution) : option bool :=
  if fle (lower_bound current) (lower_bound best) then
    if decide (length (edges_True best) < length (edges_True current))
    then Some true
    else None
  else Some false.

(** Truth value of a result of [is_more_promising] *)
Definition py_truth (o : option bool) : bool :=
  match o with
  | Some true => true
  | Some false | None => false
  end.

(** The scan of [pop_most_promising_solution] from position [i] on *)
Fixpoint most_promising_from (i : nat) (l : list BnBPartialSolution)
    (most_promising : BnBPartialSolution) (index : nat) : BnBPartialSolution * nat :=
  match l with
  | [] => (most_promising, index)
  | solution :: l' =>
      if py_truth (is_more_promising most_promising solution)
      then most_promising_from (S i) l' solution i
      else most_promising_from (S i) l' most_promising index
  end.

Definition pop_most_promising_solution (e : BranchNBound)
  : result (BnBPartialSolution * BranchNBound) :=
  match partial_solutions e !! 0 with
  | None => Err IndexError
  | Some first =>
      let '(_, index) := most_promising_from 0 (partial_solutions e) first 0 in
      match partial_solutions e !! index with
      | Some s => Ok (s, set_partial_solutions (delete index (partial_solutions e)) e)
      | None => Err IndexError
      end
  end.

(** [branch].  When [select_edge] returns [(None, None)] the left
    transition appends it and looks its labels up, which fails. *)
Definition branch (e : BranchNBound) (to_branch : BnBPartialSolution)
  : result BranchNBound :=
  best_edge ← select_edge to_branch;
  match best_edge with
  | None =>
      _ ← column (distance_matrix to_branch) 0;
      _ ← row_len (distance_matrix to_branch) 0;
      Err ValueError
  | Some best_edge =>
      left_solution ← with_edge_branch (init_from_partial to_branch) best_edge;
      let e := set_partial_solutions (partial_solutions e ++ [left_solution]) e in
      right_solution ← without_edge_branch (init_from_partial to_branch) best_edge;
      Ok (set_partial_solutions (partial_solutions e ++ [right_solution]) e)
  end.

Section Engine.

(** [a[x, y]] for a 2-d array [a] and two [numpy.float64] indices; [None]
    where numpy raises [IndexError].  What numpy does with an index that
    is not an integer object depends on its version (it truncates it, or
    refuses it), so the development takes the indexing as given. *)
Variable np_getitem : ndarray -> fl -> fl -> option fl.

Definition distance_between (p : BnBPartialSolution) (source_id destination_id : fl)
  : result fl :=
  match np_getitem (lookup_matrix p) (fsub source_id (Fin 1))
                   (fsub destination_id (Fin 1)) with
  | Some d => Ok d
  | None => Err IndexError
  end.

(** The loop over one route of [calculate_value]; it ends at the last
    node, where [route[i + 1]] raises [IndexError]. *)
Fixpoint route_value (p : BnBPartialSolution) (route : list fl) (distance : fl)
  : result fl :=
  match route with
  | source_id :: ((destination_id :: _) as rest) =>
      d ← distance_between p source_id destination_id;
      route_value p rest (fadd distance d)
  | _ => Ok distance
  end.

Definition calculate_value (p : BnBPartialSolution) : result fl :=
  rs ← routes_edges_to_nodes p;
  fold_result (route_value p) rs (Fin 0).

(** [upper_bound] in a comparison: [None] is not ordered with a
    number. *)
Definition the_upper_bound (e : BranchNBound) : result fl :=
  match upper_bound e with
  | Some ub => Ok ub
  | None => Err TypeError
  end.

(** The sweep of [prune].  The list iterator holds the position [idx];
    [remove] deletes the element under it (the objects of the pool are
    pairwise distinct, so the first one identical to [solution] is the
    one at [idx]) and the iterator moves on to [idx + 1] all the same. *)
Fixpoint prune_loop (fuel idx : nat) (e : BranchNBound) : result BranchNBound :=
  match partial_solutions e !! idx with
  | None => Ok e
  | Some solution =>
      match fuel with
      | 0 => NoFuel
      | S fuel =>
          let removed :=
            set_partial_solutions (delete idx (partial_solutions e)) in
          if is_solved solution then
            e ← (if truthy (is_feasible solution) then
                   value ← calculate_value solution;
                   ub ← the_upper_bound e;
                   if flt value ub then Ok (set_incumbent value solution e)
                   else Ok e
                 else Ok e);
            prune_loop fuel (S idx) (removed e)
          else
            ub ← the_upper_bound e;
            if fge (lower_bound solution) ub then prune_loop fuel (S idx) (removed e)
            else if is_False (is_feasible solution)
                 then prune_loop fuel (S idx) (removed e)
                 else prune_loop fuel (S idx) e
      end
  end.

Definition prune (e : BranchNBound) : result BranchNBound :=
  prune_loop (length (partial_solutions e)) 0 e.

(** One pass of the [while] loop of [run], up to the test of the cap. *)
Definition run_body (e : BranchNBound) : result BranchNBound :=
  '(promising_solution, e) ← pop_most_promising_solution e;
  e ← branch e promising_solution;
  let e := set_times_branched (times_branched e + 1) e in
  prune e.

Fixpoint run_loop (fuel : nat) (e : BranchNBound) : result BranchNBound :=
  match partial_solutions e with
  | [] => Ok e
  | _ :: _ =>
      match fuel with
      | 0 => NoFuel
      | S fuel =>
          e ← run_body e;
          if decide (200 < times_branched e) then Ok e
          else run_loop fuel e
      end
  end.

(** What [run] returns from the final state. *)
Definition report (e : BranchNBound)
  : result (option fl * option (list (list edge)) * nat) :=
  match current_best e with
  | Some best => Ok (upper_bound e, routes best, times_branched e)
  | None => Err AttributeError
  end.

(** [run]; the fuel is the number of passes that the cap allows. *)
Definition run (e : BranchNBound)
  : result (option fl * option (list (list edge)) * nat) :=
  e ← run_loop (S (200 - times_branched e)) e;
  report e.

End Engine.

(** ** Instances and states used in the examples *)

(** The number [z] as a float *)
Definition fz (z : Z) : fl := Fin (inject_Z z).

(** The depot (node 1) demands nothing, every customer one unit. *)
Definition unit_demand (id : Z) : option Q :=
  if (id =? 1)%Z then Some 0%Q else Some 1%Q.

(** One depot, three customers, one vehicle of capacity 2. *)
Definition instance_A : Instance :=
  mkInstance [[fz 0; fz 2; fz 3; fz 9];
              [fz 4; fz 0; fz 5; fz 1];
              [fz 6; fz 7; fz 0; fz 2];
              [fz 3; fz 8; fz 2; fz 0]] unit_demand [2%Q].

(** One depot, three customers, one vehicle of capacity 10. *)
Definition instance_B : Instance :=
  mkInstance [[fz 0; fz 15; fz 15; fz 5];
              [fz 15; fz 0; fz 15; fz 5];
              [fz 6; fz 6; fz 0; fz 5];
              [fz 5; fz 5; fz 5; fz 0]] unit_demand [10%Q].

(** One depot and two customers, all at distance 1 of each other. *)
Definition instance_C : Instance :=
  mkInstance [[fz 0; fz 1; fz 1];
              [fz 1; fz 0; fz 1];
              [fz 1; fz 1; fz 0]] unit_demand [10%Q].

(** [initialize] followed by [n] passes of the loop of [run] *)
Fixpoint passes (np_getitem : ndarray -> fl -> fl -> option fl) (n : nat)
    (e : BranchNBound) : result BranchNBound :=
  match n with
  | 0 => Ok e
  | S n => e ← run_body np_getitem e; passes np_getitem n e
  end.

Definition engine_after (np_getitem : ndarray -> fl -> fl -> option fl)
    (instance : Instance) (ub : fl) (n : nat) : result BranchNBound :=
  e ← initialize new_engine instance (Some ub);
  passes np_getitem n e.

(** A partial solution around a matrix, with nothing decided yet. *)
Definition partial_of (m : ndarray) : BnBPartialSolution :=
  {| lookup_matrix := [];
     network := unit_demand;
     routes := None;
     distance_matrix := m;
     lower_bound := Fin 0;
     edges_True := [];
     edges_False := [];
     is_feasible := FTrue;
     solved := false;
     capacity := 10%Q |}.

(** A matrix that is not reduced, with one cell of value 0. *)
Definition unreduced_matrix : ndarray :=
  [[PInf; fz 1; fz 2];
   [fz 1; fz 5; fz 1];
   [fz 2; fz 1; fz 0]].

(** The node that the third pass of [run] on [instance_A] branches: the
    edge (1, 2) is included and the edge (2, 4) excluded. *)
Definition node_A3 : BnBPartialSolution :=
  {| lookup_matrix := inst_distance_matrix instance_A;
     network := unit_demand;
     routes := None;
     distance_matrix := [[PInf; fz 1; fz 3; fz 4];
                         [fz 2; PInf; fz 0; PInf];
                         [fz 3; fz 3; PInf; fz 0];
                         [fz 4; fz 0; fz 0; PInf]];
     lower_bound := fz 12;
     edges_True := [(fz 1, fz 2)];
     edges_False := [(fz 2, fz 4)];
     is_feasible := FEdges [(fz 1, fz 2)] [];
     solved := false;
     capacity := 2%Q |}.

(** A node with three data rows in which the rows of the nodes 1 and 3
    hold one finite cell each, both in the column of node 2. *)
Definition node_narrow : BnBPartialSolution :=
  partial_of [[PInf; fz 1; fz 2; fz 3];
              [fz 1; PInf; fz 0; PInf];
              [fz 2; fz 0; PInf; fz 0];
              [fz 3; PInf; fz 0; PInf]].

(** ** Predicates on values and matrices *)

(** A finite value that is not negative, or plus infinity *)
Definition nonneg (x : fl) : bool := fle (Fin 0) x.

Definition nonneg_or_nan (x : fl) : bool := nonneg x || is_nan x.

(** Every data cell is [nonneg]: the state in which [bound] leaves a
    matrix that has a finite value in every row. *)
Definition data_nonneg (m : ndarray) : Prop :=
  Forall (Forall (fun x => nonneg x = true)) (data_of m).

(** Plus infinity or nan: what an entirely infinite row or column leaves
    where a finite minimum was expected. *)
Definition inf_or_nan (x : fl) : bool :=
  match x with
  | PInf | NaN => true
  | Fin _ | NInf => false
  end.

(** The data region has [nc] columns. *)
Definition data_columns (m : ndarray) (nc : nat) : Prop :=
  Forall (fun row => length row = nc) (data_of m).

(** A matrix with the row of node 2 entirely infinite: [node_A3] after the
    exclusion of the edge (2, 3). *)
Definition matrix_inf_row : ndarray :=
  [[PInf; fz 1; fz 3; fz 4];
   [fz 2; PInf; PInf; PInf];
   [fz 3; fz 3; PInf; fz 0];
   [fz 4; fz 0; fz 0; PInf]].

(** A matrix with the column of node 3 entirely infinite. *)
Definition matrix_inf_column : ndarray :=
  [[PInf; fz 1; fz 3; fz 4];
   [fz 2; PInf; PInf; fz 5];
   [fz 3; fz 3; PInf; fz 0];
   [fz 4; fz 0; PInf; PInf]].

(** ** Termination *)

(** The outcome is a Python outcome: a value or an exception. *)
Definition terminates {A : Type} (r : result A) : Prop := r <> NoFuel.

(** How often the edge has failed to be inserted, according to [memo] *)
Definition memo_count (memo : list (edge * nat)) (e : edge) : nat :=
  default 0 (memo_get memo e).

(** The measure that every pass of the loop of [construct_routes]
    lowers: an edge of the queue counts once for itself and once for each
    of the ten retries that it still has. *)
Definition queue_measure (edges : list edge) (memo : list (edge * nat)) : nat :=
  length edges + sum_list_with (fun e => 10 - memo_count memo e) edges.

(** Indexing as numpy did it before version 1.12: a float index is
    truncated to an integer.  Node ids start at 1, so the indices are not
    negative. *)
Definition getitem_trunc (a : ndarray) (x y : fl) : option fl :=
  match py_int x, py_int y with
  | Ok i, Ok j =>
      if ((0 <=? i) && (0 <=? j))%Z
      then row ← a !! Z.to_nat i; row !! Z.to_nat j
      else None
  | _, _ => None
  end.

(** One depot, two customers, one vehicle of capacity 10. *)
Definition instance_D : Instance :=
  mkInstance [[fz 0; fz 2; fz 3];
              [fz 4; fz 0; fz 5];
              [fz 6; fz 7; fz 0]] unit_demand [10%Q].

(** ** The cells of a matrix as a function *)

(** [m] is an [n] by [n] array with the cell [f i j] at [(i, j)]. *)
Definition has_cells (m : ndarray) (n : nat) (f : nat -> nat -> fl) : Prop :=
  length m = n
  /\ Forall (fun row => length row = n) m
  /\ forall i j, i < n -> j < n -> cell m i j = Ok (f i j).

(** The cell function after [m[i][j] = v] *)
Definition with_cell (f : nat -> nat -> fl) (i j : nat) (v : fl) : nat -> nat -> fl :=
  fun i' j' => if decide (i' = i /\ j' = j) then v else f i' j'.

(** The entry [D[r][c]] of the raw matrix, for indices in range *)
Definition raw (D : list (list fl)) (r c : nat) : fl :=
  default NaN (row ← D !! r; row !! c).

(** The raw matrix is square. *)
Definition square (D : list (list fl)) : Prop :=
  Forall (fun row => length row = length D) D.

(** The cell of the augmented matrix at [(i, j)], for [fleet_size = k]:
    labels in row 0 and column 0, infinity between depot copies and on
    the diagonal, the raw distances elsewhere. *)
Definition augmented (D : list (list fl)) (k : nat) (i j : nat) : fl :=
  if decide (i = 0) then (if decide (j = 0) then PInf else label_at k j)
  else if decide (j = 0) then label_at k i
  else if decide (i <= k) then (if decide (j <= k) then PInf else raw D 0 (j - k))
  else if decide (j <= k) then raw D (i - k) 0
  else if decide (i = j) then PInf
  else raw D (i - k) (j - k).

(** ** Objects and references *)

(** The mutable objects that partial solutions refer to, by reference:
    numpy arrays, and [edges] dictionaries as the pairs of their lists
    [edges[True]] and [edges[False]]. *)
Record store : Type := mkStore {
  arrays : gmap nat ndarray;
  dicts : gmap nat (list edge * list edge)
}.

(** What the attribute [is_feasible] of an object is bound to: a boolean,
    or the dictionary at a reference. *)
Inductive feasible_attr : Type :=
| AttrBool (b : bool)
| AttrDict (r : nat).

(** The attributes of one [BnBPartialSolution] object: the references of
    its matrix and of its edges, the binding of [is_feasible], and in
    [immutable] the attributes that hold numbers, booleans and the shared
    read-only data (of [immutable], the fields [distance_matrix],
    [edges_True], [edges_False] and [is_feasible] are not used). *)
Record object : Type := mkObject {
  ref_matrix : nat;
  ref_edges : nat;
  attr_is_feasible : feasible_attr;
  immutable : BnBPartialSolution
}.

(** The value that the attribute [is_feasible] denotes in a store *)
Definition read_feasible (s : store) (a : feasible_attr) : option feasibility :=
  match a with
  | AttrBool true => Some FTrue
  | AttrBool false => Some FFalse
  | AttrDict r => d ← dicts s !! r; Some (FEdges d.1 d.2)
  end.

(** The partial solution that an object denotes in a store *)
Definition read (s : store) (o : object) : option BnBPartialSolution :=
  m ← arrays s !! ref_matrix o;
  d ← dicts s !! ref_edges o;
  f ← read_feasible s (attr_is_feasible o);
  Some (set_is_feasible_attr f
          (set_edges_False d.2
             (set_edges_True d.1 (set_distance_matrix m (immutable o))))).

(** [init_from_partial] on objects: [partial.distance_matrix.copy()] and
    [copy.deepcopy(partial.edges)] are new objects, [is_feasible] is bound
    to the dictionary of the parent itself, the other attributes are
    copied. *)
Definition clone (s : store) (partial : object) : option (store * object) :=
  m ← arrays s !! ref_matrix partial;
  d ← dicts s !! ref_edges partial;
  let rm := fresh (dom (arrays s)) in
  let rd := fresh (dom (dicts s)) in
  Some (mkStore (<[rm := m]> (arrays s)) (<[rd := d]> (dicts s)),
        mkObject rm rd (AttrDict (ref_edges partial))
                 (set_routes None (immutable partial))).

(** The binding of [is_feasible] after a transition: the transitions
    assign [False] or leave the attribute alone. *)
Definition rebind_feasible (a : feasible_attr) (f : feasibility) : feasible_attr :=
  match f with
  | FFalse => AttrBool false
  | FTrue => AttrBool true
  | FEdges _ _ => a
  end.

(** [with_edge_branch] on objects.  The dictionary is changed in place
    ([append], [extend]); past the guard the matrix is a new array
    ([np.delete]), which the later steps change in place. *)
Definition with_edge_branch_obj (s : store) (o : object) (e : edge)
  : result (store * object) :=
  match read s o with
  | None => Err AttributeError
  | Some v =>
      v' ← with_edge_branch v e;
      let rm := if edge_in e (edges_True v) then ref_matrix o
                else fresh (dom (arrays s)) in
      Ok (mkStore (<[rm := distance_matrix v']> (arrays s))
                  (<[ref_edges o := (edges_True v', edges_False v')]> (dicts s)),
          mkObject rm (ref_edges o)
                   (rebind_feasible (attr_is_feasible o) (is_feasible v')) v')
  end.

(** [without_edge_branch] on objects: the dictionary and the matrix are
    changed in place. *)
Definition without_edge_branch_obj (s : store) (o : object) (e : edge)
  : result (store * object) :=
  match read s o with
  | None => Err AttributeError
  | Some v =>
      v' ← without_edge_branch v e;
      Ok (mkStore (<[ref_matrix o := distance_matrix v']> (arrays s))
                  (<[ref_edges o := (edges_True v', edges_False v')]> (dicts s)),
          mkObject (ref_matrix o) (ref_edges o)
                   (rebind_feasible (attr_is_feasible o) (is_feasible v')) v')
  end.

(** A store with the matrix and the dictionary of [node_A3], and an
    object for [node_A3] whose [is_feasible] is [False]. *)
Definition store_A3 : store :=
  mkStore {[ 0 := distance_matrix node_A3 ]}
          {[ 0 := (edges_True node_A3, edges_False node_A3) ]}.

Definition object_A3 : object := mkObject 0 0 (AttrBool false) node_A3.

(** ** Predicates of the further properties *)

(** The incumbent after some steps: the one before, or a solved node of
    [pool] that counts as feasible, with its value as the upper bound,
    below the upper bound before. *)
Definition incumbent_step (np_getitem : ndarray -> fl -> fl -> option fl)
    (pool : list BnBPartialSolution) (e e' : BranchNBound) : Prop :=
  (upper_bound e' = upper_bound e /\ current_best e' = current_best e)
  \/ exists s v ub,
       s ∈ pool /\ is_solved s = true /\ truthy (is_feasible s) = true
       /\ calculate_value np_getitem s = Ok v
       /\ upper_bound e = Some ub /\ flt v ub = true
       /\ upper_bound e' = Some v /\ current_best e' = Some s.

(** The incumbent of [e'] against that of [e]: the same, or a solved
    node that counts as feasible, with its value as the upper bound,
    below the upper bound of [e]. *)
Definition improved (np_getitem : ndarray -> fl -> fl -> option fl)
    (e e' : BranchNBound) : Prop :=
  (upper_bound e' = upper_bound e /\ current_best e' = current_best e)
  \/ exists s v ub,
       is_solved s = true /\ truthy (is_feasible s) = true
       /\ calculate_value np_getitem s = Ok v
       /\ upper_bound e = Some ub /\ flt v ub = true
       /\ upper_bound e' = Some v /\ current_best e' = Some s.

(** Every edge of the route leads to the node where the next one starts. *)
Fixpoint chain (route : list edge) : bool :=
  match route with
  | a :: ((b :: _) as rest) => feq a.2 b.1 && chain rest
  | _ => true
  end.

(** The chain from the edge before the scan on *)
Definition chain_from (prev : option edge) (route : list edge) : bool :=
  match prev with
  | None => chain route
  | Some pr => chain (pr :: route)
  end.

(** No two entries of the list are [==]. *)
Fixpoint no_repeat (l : list fl) : bool :=
  match l with
  | [] => true
  | x :: l' => negb (fl_in x l') && no_repeat l'
  end.

(** One step of the loop of [routes_edges_to_nodes] *)
Definition add_edge_nodes (converted_route : list fl) (e : edge) : list fl :=
  let converted_route :=
    if negb (fl_in e.1 converted_route)
    then converted_route ++ [e.1] else converted_route in
  if negb (fl_in e.2 converted_route) || is_DEPOT e.2
  then converted_route ++ [e.2] else converted_route.

(** The demand that [network] gives for a node id, 0 where [int(node_id)]
    or the lookup fails *)
Definition demand_of (p : BnBPartialSolution) (node_id : fl) : Q :=
  match py_int node_id with
  | Ok id => default 0%Q (network p id)
  | _ => 0%Q
  end.

(** The load after the nodes of [nodes], summed up as the loop of
    [set_is_feasible] does *)
Definition load_of (p : BnBPartialSolution) (nodes : list fl) : Q :=
  fold_left (fun load node_id => (load + demand_of p node_id)%Q) nodes 0%Q.

(** Some prefix of the route that is not empty has a load above the
    capacity. *)
Definition overloaded (p : BnBPartialSolution) (route : list fl) : Prop :=
  exists k, 0 < k <= length route /\ Qle_bool (load_of p (take k route)) (capacity p) = false.

(** Some entry is [== 0]. *)
Definition has_zero (l : list fl) : Prop := Exists (fun x => feq x (Fin 0) = true) l.

(** Some entry is finite. *)
Definition has_finite (l : list fl) : Prop := Exists (fun x => is_finite x = true) l.

(** The column [j] of a list of rows, as [columns] reads it *)
Definition column_of (d : list (list fl)) (j : nat) : list fl :=
  map (fun row => nth j row NaN) d.

(** A row and what the row reduction makes of it *)
Definition row_reduced (row row1 : list fl) : Prop :=
  length row1 = length row
  /\ Forall (fun x => nonneg x = true) row1
  /\ has_zero row1
  /\ forall j, is_finite (nth j row1 NaN) = is_finite (nth j row NaN).

(** A column and its minimum *)
Definition column_min (col : list fl) (cm : fl) : Prop :=
  is_finite cm = true /\ nonneg cm = true /\ cm ∈ col
  /\ Forall (fun y => fle cm y = true) col.

(** The data cells that the scan of [select_edge] has passed when it
    stands at the cell [(i, j)] *)
Definition scanned (m : ndarray) (i j i' j' : nat) : Prop :=
  1 <= i' /\ 1 <= j' /\ j' < length m /\ (i' < i \/ (i' = i /\ j' < j)).

(** The state of the scan at the cell [(i, j)]: no cell passed has a
    penalty above [highest_penalty], and [best_edge] is the edge of the
    first cell that reached it, if it is above 0. *)
Definition select_inv (m : ndarray) (i j : nat) (st : option edge * fl) : Prop :=
  nonneg st.2 = true
  /\ (forall i' j', scanned m i j i' j' ->
        exists pen, penalty m i' j' = Ok pen /\ fgt pen st.2 = false)
  /\ match st.1 with
     | None => st.2 = Fin 0
     | Some (r, c) =>
         exists i0 j0,
           scanned m i j i0 j0
           /\ cell m i0 0 = Ok r /\ cell m 0 j0 = Ok c
           /\ penalty m i0 j0 = Ok st.2 /\ fgt st.2 (Fin 0) = true
           /\ forall i' j', scanned m i0 j0 i' j' ->
                exists pen, penalty m i' j' = Ok pen /\ fge pen st.2 = false
     end.

(** The outcome is a value or an [IndexError]. *)
Definition index_error_only {A : Type} (r : result A) : Prop :=
  match r with
  | Ok _ => True
  | Err x => x = IndexError
  | NoFuel => False
  end.

(** The cells of a matrix, written out *)
Definition table (f : nat -> nat -> fl) (lo n : nat) : list (list fl) :=
  map (fun i => map (fun j => f i j) (seq lo n)) (seq lo n).

(** The matrix has the labels of [m]. *)
Definition same_labels (m m' : ndarray) : Prop :=
  m' !! 0 = m !! 0 /\ column m' 0 = column m 0.

(** The pairs of consecutive nodes of a node list *)
Fixpoint legs (route : list fl) : list (fl * fl) :=
  match route with
  | a :: ((b :: _) as rest) => (a, b) :: legs rest
  | _ => []
  end.

(** * Properties *)

(** ** Selection of the node to branch *)

(** The comparator answers [True] only for a node that has both a bound
    not above the current best and strictly more included edges. *)
Lemma is_more_promising_true best current :
  py_truth (is_more_promising best current) = true <->
  fle (lower_bound current) (lower_bound best) = true /\
  length (edges_True best) < length (edges_True current).
Proof.
  unfold is_more_promising.
  destruct (fle _ _); [|simpl; intuition discriminate].
  destruct (decide _); simpl; intuition (try discriminate; try lia).
Qed.

(** The scan keeps the first node as long as no node has more included
    edges than it, whatever the bounds are. *)
Lemma most_promising_from_keeps i l best index :
  Forall (fun s => length (edges_True s) <= length (edges_True best)) l ->
  most_promising_from i l best index = (best, index).
Proof.
  revert i. induction l as [|s l IH]; intros i Hl; simpl; [done|].
  inversion Hl as [|? ? Hs Hl']; subst.
  assert (E : py_truth (is_more_promising best s) = false).
  { apply not_true_is_false. rewrite is_more_promising_true. lia. }
  rewrite E. by apply IH.
Qed.

Lemma pop_returns_first_without_deeper e first :
  partial_solutions e !! 0 = Some first ->
  Forall (fun s => length (edges_True s) <= length (edges_True first))
         (partial_solutions e) ->
  pop_most_promising_solution e
  = Ok (first, set_partial_solutions (delete 0 (partial_solutions e)) e).
Proof.
  intros Hfirst Hall. unfold pop_most_promising_solution. rewrite Hfirst.
  rewrite (most_promising_from_keeps 0 _ first 0 Hall). by rewrite Hfirst.
Qed.

(** C1 (code defect).  After the first pass of [run] on [instance_B] the
    pool holds the left child with bound 31 and the right child with bound
    30; [pop_most_promising_solution] returns the left child, whose bound
    is not the minimum of the pool. *)
Theorem pop_most_promising_not_minimum :
  forall np_getitem,
    (e ← engine_after np_getitem instance_B (fz 100) 1;
     '(s, _) ← pop_most_promising_solution e;
     Ok (map lower_bound (partial_solutions e),
         map (fun p => length (edges_True p)) (partial_solutions e),
         lower_bound s))
    = Ok ([fz 31; fz 30], [1; 0], fz 31)
    /\ flt (fz 30) (fz 31) = true.
Proof. intros g. split; vm_compute; reflexivity. Qed.

(** ** The sweep of the pool *)

(** C2 (code defect).  On [instance_A] with the initial upper bound 11 the
    second pass sweeps a pool of two nodes, a solved one and one with bound
    12.  The sweep removes the first, the iterator steps over the second,
    and the third pass branches that node although its bound is not below
    the upper bound, which is 11 throughout. *)
Theorem prune_skips_dominated_node :
  forall np_getitem,
    (* the pool that the second sweep starts from *)
    (e ← engine_after np_getitem instance_A (fz 11) 1;
     '(s, e) ← pop_most_promising_solution e;
     e ← branch e s;
     Ok (map (fun p => (lower_bound p, solved p)) (partial_solutions e), upper_bound e))
    = Ok ([(fz 8, true); (fz 12, false)], Some (fz 11))
    /\
    (* the pool that it leaves *)
    (e ← engine_after np_getitem instance_A (fz 11) 2;
     Ok (map (fun p => (lower_bound p, solved p)) (partial_solutions e), upper_bound e))
    = Ok ([(fz 12, false)], Some (fz 11))
    /\
    (* the third pass pops and branches the node of bound 12 *)
    (e ← engine_after np_getitem instance_A (fz 11) 2;
     '(s, e) ← pop_most_promising_solution e;
     e' ← branch e s;
     Ok (lower_bound s, fge (lower_bound s) (fz 11), length (partial_solutions e')))
    = Ok (fz 12, true, 2).
Proof. intros g. repeat split; vm_compute; reflexivity. Qed.

Section Sweep.

Variable np_getitem : ndarray -> fl -> fl -> option fl.

(** After the removal of an unsolved node that the upper bound dominates,
    the sweep steps over the node that follows it: of two nodes it keeps
    the second, whatever that node is. *)
Lemma prune_keeps_second_of_two e a b ub :
  partial_solutions e = [a; b] -> upper_bound e = Some ub ->
  is_solved a = false -> fge (lower_bound a) ub = true ->
  prune np_getitem e = Ok (set_partial_solutions [b] e).
Proof.
  intros Hpool Hub Ha Hdom. unfold prune. rewrite Hpool. simpl.
  rewrite Hpool. simpl. rewrite Ha. unfold the_upper_bound. rewrite Hub. simpl.
  by rewrite Hdom.
Qed.

End Sweep.

(** The node [node_A3] is the one that the third pass pops. *)
Lemma node_A3_reached np_getitem :
  (e ← engine_after np_getitem instance_A (fz 11) 2;
   '(s, _) ← pop_most_promising_solution e;
   Ok (distance_matrix s, lower_bound s, edges_True s, edges_False s,
       is_feasible s, solved s, routes s, capacity s))
  = Ok (distance_matrix node_A3, lower_bound node_A3, edges_True node_A3,
        edges_False node_A3, is_feasible node_A3, solved node_A3, routes node_A3,
        capacity node_A3).
Proof. vm_compute. reflexivity. Qed.

(** ** Edge selection *)

(** The candidate test of [select_edge] does not look at the value of the
    cell. *)
Lemma select_step_ignores_value m i j st :
  select_step m i j st
  = (_ ← cell m i j;
     p ← penalty m i j;
     if fgt p st.2 then
       row_index ← cell m i 0;
       col_index ← cell m 0 j;
       Ok (Some (row_index, col_index), p)
     else Ok st).
Proof. unfold select_step, is_int_zero. by destruct st. Qed.

(** C3 (code defect).  The test [matrix[i, j] is 0] never holds, so every
    data cell is a candidate, and a candidate is taken only when its
    penalty is above 0.  On the reduced root of [instance_C] every cell has
    penalty 0 and the result is [(None, None)], although the cell (1, 2)
    holds 0; on [unreduced_matrix] the result is the edge of the cell
    (1, 2), which holds 1, and not that of the only zero cell (2, 2). *)
Theorem select_edge_not_zero_cells :
  (e ← initialize new_engine instance_C (Some (fz 100));
   '(s, _) ← pop_most_promising_solution e;
   x ← cell (distance_matrix s) 1 2;
   best ← select_edge s;
   Ok (x, best)) = Ok (fz 0, None)
  /\ select_edge (partial_of unreduced_matrix) = Ok (Some (fz 1, fz 2))
  /\ cell unreduced_matrix 1 2 = Ok (fz 1)
  /\ cell unreduced_matrix 2 2 = Ok (fz 0)
  /\ penalty unreduced_matrix 2 2 = Ok (fz 2)
  /\ penalty unreduced_matrix 1 2 = Ok (fz 5).
Proof. repeat split; vm_compute; reflexivity. Qed.

(** ** Leaves *)

(** [solve_leaf] either raises or marks the node solved, so the [else]
    branch of [with_edge_branch] that sets [is_feasible = False] for an
    unsolved leaf is never taken. *)
Lemma solve_leaf_solved p p' : solve_leaf p = Ok p' -> is_solved p' = true.
Proof.
  unfold solve_leaf. intros H.
  repeat match type of H with
         | (mbind _ ?m = _) => destruct m; simpl in H; try discriminate
         | ((if ?c then _ else _) ≫= _ = _) => destruct c; simpl in H
         end.
  all: repeat match type of H with
         | context [match ?m with _ => _ end] => destruct m; simpl in H; try discriminate
         end.
  all: injection H as <-; reflexivity.
Qed.

(** A leaf whose two rows each hold a cell that is not infinite is solved
    with the two edges read off. *)
Example solve_leaf_reads_two_edges :
  (p ← solve_leaf (partial_of [[PInf; fz 1; fz 3]; [fz 2; fz 0; PInf]; [fz 3; PInf; fz 7]]);
   Ok (edges_True p, solved p))
  = Ok ([(fz 2, fz 1); (fz 3, fz 3)], true).
Proof. vm_compute. reflexivity. Qed.

(** C7 (code defect).  In [node_narrow] the edge that [select_edge]
    proposes is (1, 2); including it leaves the leaf rows [0, 0] of node 2
    and [inf, inf] of node 3.  The row of node 3 offers no cell, and
    [with_edge_branch] raises [ValueError] instead of returning a node
    with [is_feasible = False]. *)
Theorem leaf_without_choice_raises :
  select_edge node_narrow = Ok (Some (fz 1, fz 2))
  /\ with_edge_branch node_narrow (fz 1, fz 2) = Err ValueError
  /\ solve_leaf (partial_of [[PInf; fz 1; fz 3]; [fz 2; fz 0; fz 0]; [fz 3; PInf; PInf]])
     = Err ValueError.
Proof. repeat split; vm_compute; reflexivity. Qed.

(** ** Cloning *)

(** What [init_from_partial] copies from the parent. *)
Lemma init_from_partial_copies p :
  lower_bound (init_from_partial p) = lower_bound p
  /\ edges_True (init_from_partial p) = edges_True p
  /\ edges_False (init_from_partial p) = edges_False p
  /\ solved (init_from_partial p) = solved p
  /\ distance_matrix (init_from_partial p) = distance_matrix p
  /\ routes (init_from_partial p) = None.
Proof. repeat split. Qed.

(** The attribute [is_feasible] of a clone is the parent's dictionary of
    edges, whatever the parent's own [is_feasible] is. *)
Lemma init_from_partial_is_feasible p :
  is_feasible (init_from_partial p) = FEdges (edges_True p) (edges_False p)
  /\ truthy (is_feasible (init_from_partial p)) = true
  /\ is_False (is_feasible (init_from_partial p)) = false.
Proof. repeat split. Qed.

(** C9 (code defect).  The clone of a parent whose [is_feasible] is [False]
    has an [is_feasible] that is true in a condition and is not [False]:
    the sweep treats the child of an infeasible node as feasible. *)
Theorem init_from_partial_loses_infeasibility :
  let parent := set_is_feasible_attr FFalse node_A3 in
  is_feasible parent = FFalse
  /\ is_feasible (init_from_partial parent) = FEdges [(fz 1, fz 2)] [(fz 2, fz 4)]
  /\ truthy (is_feasible parent) = false
  /\ truthy (is_feasible (init_from_partial parent)) = true
  /\ is_False (is_feasible (init_from_partial parent)) = false.
Proof. repeat split. Qed.

(** ** Independence of the clones *)

(** A clone denotes what [init_from_partial] returns for the value that
    the parent denotes. *)
Lemma read_clone s partial v s' child :
  read s partial = Some v -> clone s partial = Some (s', child) ->
  read s' child = Some (init_from_partial v).
Proof.
  unfold read, clone. intros Hv Hc.
  destruct (arrays s !! ref_matrix partial) as [m|] eqn:Em; [|done].
  destruct (dicts s !! ref_edges partial) as [d|] eqn:Ed; [|done].
  simpl in *.
  destruct (read_feasible s (attr_is_feasible partial)) as [f|]; [|done].
  simpl in *. injection Hv as <-. injection Hc as <- <-. simpl.
  rewrite !lookup_insert_eq. simpl.
  assert (Hne : ref_edges partial <> fresh (dom (dicts s))).
  { intros E. apply (is_fresh (dom (dicts s))). rewrite <- E.
    apply elem_of_dom. by rewrite Ed. }
  rewrite lookup_insert_ne by done. rewrite Ed. simpl. by destruct d.
Qed.

(** An object denotes the same value in two stores that agree on its
    references. *)
Lemma read_frame s s' o :
  arrays s' !! ref_matrix o = arrays s !! ref_matrix o ->
  dicts s' !! ref_edges o = dicts s !! ref_edges o ->
  (forall r, attr_is_feasible o = AttrDict r -> dicts s' !! r = dicts s !! r) ->
  read s' o = read s o.
Proof.
  intros Hm Hd Hf. unfold read. rewrite Hm, Hd.
  assert (E : read_feasible s' (attr_is_feasible o)
              = read_feasible s (attr_is_feasible o)).
  { destruct (attr_is_feasible o) as [b|r]; [done|]. simpl. by rewrite (Hf r). }
  by rewrite E.
Qed.

(** The references that an object that denotes a value uses are
    allocated. *)
Lemma read_allocated s o v :
  read s o = Some v ->
  (ref_matrix o ∈ dom (arrays s))
  /\ (ref_edges o ∈ dom (dicts s))
  /\ (forall r, attr_is_feasible o = AttrDict r -> r ∈ dom (dicts s)).
Proof.
  unfold read. intros H.
  destruct (arrays s !! ref_matrix o) as [m|] eqn:Em; [|done].
  destruct (dicts s !! ref_edges o) as [d|] eqn:Ed; [|done]. simpl in H.
  destruct (read_feasible s (attr_is_feasible o)) as [f|] eqn:Ef; [|done].
  split; [apply elem_of_dom; by rewrite Em|].
  split; [apply elem_of_dom; by rewrite Ed|].
  intros r Hr. rewrite Hr in Ef. simpl in Ef.
  destruct (dicts s !! r) eqn:Er; [|done]. apply elem_of_dom. by rewrite Er.
Qed.

Lemma clone_fresh s partial s' child :
  clone s partial = Some (s', child) ->
  (ref_matrix child ∉ dom (arrays s))
  /\ (ref_edges child ∉ dom (dicts s))
  /\ attr_is_feasible child = AttrDict (ref_edges partial)
  /\ (ref_edges partial ∈ dom (dicts s))
  /\ (dom (arrays s) ⊆ dom (arrays s'))
  /\ (dom (dicts s) ⊆ dom (dicts s')).
Proof.
  unfold clone. intros Hc.
  destruct (arrays s !! ref_matrix partial) as [m|] eqn:Em; [|done].
  destruct (dicts s !! ref_edges partial) as [d|] eqn:Ed; [|done].
  simpl in Hc. injection Hc as <- <-. simpl.
  repeat split; try apply is_fresh.
  - apply elem_of_dom. by rewrite Ed.
  - rewrite dom_insert. set_solver.
  - rewrite dom_insert. set_solver.
Qed.

(** Cloning leaves every object that denotes a value as it is. *)
Lemma clone_frame s partial s' child other v :
  clone s partial = Some (s', child) -> read s other = Some v ->
  read s' other = Some v.
Proof.
  intros Hc Hv. rewrite <- Hv.
  destruct (read_allocated _ _ _ Hv) as (Hm & Hd & Hf).
  unfold clone in Hc.
  destruct (arrays s !! ref_matrix partial) as [m|]; [|done].
  destruct (dicts s !! ref_edges partial) as [d|]; [|done].
  simpl in Hc. injection Hc as <- _.
  pose proof (is_fresh (dom (arrays s))) as Fm.
  pose proof (is_fresh (dom (dicts s))) as Fd.
  apply read_frame; simpl.
  - rewrite lookup_insert_ne; [done|]. intros E. by rewrite E in Fm.
  - rewrite lookup_insert_ne; [done|]. intros E. by rewrite E in Fd.
  - intros r Hr. rewrite lookup_insert_ne; [done|].
    intros E. specialize (Hf r Hr). by rewrite E in Fd.
Qed.

(** A transition on an object leaves every other object as it is, when
    the two share neither matrix nor dictionary. *)
Lemma transition_frame s o e s' o' other v :
  with_edge_branch_obj s o e = Ok (s', o')
  \/ without_edge_branch_obj s o e = Ok (s', o') ->
  read s other = Some v ->
  ref_matrix other <> ref_matrix o -> ref_edges other <> ref_edges o ->
  (forall r, attr_is_feasible other = AttrDict r -> r <> ref_edges o) ->
  read s' other = Some v.
Proof.
  intros Ht Hv Hm Hd Hf. rewrite <- Hv.
  destruct (read_allocated _ _ _ Hv) as (Am & _ & _).
  pose proof (is_fresh (dom (arrays s))) as Fm.
  unfold with_edge_branch_obj, without_edge_branch_obj in Ht.
  destruct (read s o) as [w|]; [|by destruct Ht].
  destruct Ht as [Ht|Ht].
  - destruct (with_edge_branch w e) as [w'| |]; simpl in Ht; try done.
    injection Ht as <- _. apply read_frame; simpl.
    + rewrite lookup_insert_ne; [done|].
      destruct (edge_in e (edges_True w)); [done|].
      intros E. by rewrite E in Fm.
    + by rewrite lookup_insert_ne.
    + intros r Hr. rewrite lookup_insert_ne; [done|]. intros E.
      by apply (Hf r Hr).
  - destruct (without_edge_branch w e) as [w'| |]; simpl in Ht; try done.
    injection Ht as <- _. apply read_frame; simpl.
    + by rewrite lookup_insert_ne.
    + by rewrite lookup_insert_ne.
    + intros r Hr. rewrite lookup_insert_ne; [done|]. intros E.
      by apply (Hf r Hr).
Qed.

(** The part of C9 that holds.  The two clones that [branch] makes of a
    parent denote [init_from_partial] of the parent's value, and a
    transition on one of them changes neither what the parent denotes nor
    what the other clone denotes: the matrix and the dictionary of a clone
    are objects of its own.  (The attribute [is_feasible] of both clones
    is bound to the parent's dictionary, which no transition on a clone
    changes.) *)
Lemma clones_independent s parent v s1 left_ s2 right_ :
  read s parent = Some v ->
  clone s parent = Some (s1, left_) -> clone s1 parent = Some (s2, right_) ->
  read s2 parent = Some v
  /\ read s2 left_ = Some (init_from_partial v)
  /\ read s2 right_ = Some (init_from_partial v)
  /\ (forall e s3 o,
         with_edge_branch_obj s2 left_ e = Ok (s3, o)
         \/ without_edge_branch_obj s2 left_ e = Ok (s3, o) ->
         read s3 parent = Some v /\ read s3 right_ = Some (init_from_partial v))
  /\ (forall e s3 o,
         with_edge_branch_obj s2 right_ e = Ok (s3, o)
         \/ without_edge_branch_obj s2 right_ e = Ok (s3, o) ->
         read s3 parent = Some v /\ read s3 left_ = Some (init_from_partial v)).
Proof.
  intros Hv H1 H2.
  pose proof (clone_frame _ _ _ _ _ _ H1 Hv) as Hv1.
  pose proof (clone_frame _ _ _ _ _ _ H2 Hv1) as Hv2.
  pose proof (read_clone _ _ _ _ _ Hv H1) as Hl1.
  pose proof (clone_frame _ _ _ _ _ _ H2 Hl1) as Hl2.
  pose proof (read_clone _ _ _ _ _ Hv1 H2) as Hr2.
  destruct (clone_fresh _ _ _ _ H1) as (Fm1 & Fd1 & Al & Ap & Sm1 & Sd1).
  destruct (clone_fresh _ _ _ _ H2) as (Fm2 & Fd2 & Ar & Ap1 & Sm2 & Sd2).
  destruct (read_allocated _ _ _ Hv) as (Pm & Pd & Pf).
  destruct (read_allocated _ _ _ Hl1) as (Lm & Ld & _).
  split; [done|]. split; [done|]. split; [done|]. split.
  - intros e s3 o H. split.
    + apply (transition_frame s2 left_ e s3 o parent v H Hv2).
      * intros E. by rewrite E in Pm.
      * intros E. by rewrite E in Pd.
      * intros r Hr E. specialize (Pf r Hr). by rewrite E in Pf.
    + apply (transition_frame s2 left_ e s3 o right_ _ H Hr2).
      * intros E. by rewrite E in Fm2.
      * intros E. by rewrite E in Fd2.
      * intros r Hr E. rewrite Ar in Hr. injection Hr as <-. by rewrite E in Ap.
  - intros e s3 o H. split.
    + apply (transition_frame s2 right_ e s3 o parent v H Hv2).
      * intros E. rewrite E in Pm. apply Fm2, Sm1, Pm.
      * intros E. rewrite E in Pd. apply Fd2, Sd1, Pd.
      * intros r Hr E. specialize (Pf r Hr). rewrite E in Pf. apply Fd2, Sd1, Pf.
    + apply (transition_frame s2 right_ e s3 o left_ _ H Hl2).
      * intros E. by rewrite <- E in Fm2.
      * intros E. by rewrite <- E in Fd2.
      * intros r Hr E. rewrite Al in Hr. injection Hr as <-. by rewrite E in Ap1.
Qed.

(** The clone of the infeasible [object_A3]: its [is_feasible] is the
    dictionary of the parent, at the reference 0, and it is true in a
    condition. *)
Example clone_of_infeasible_object :
  is_feasible <$> read store_A3 object_A3 = Some FFalse
  /\ ('(s, child) ← clone store_A3 object_A3;
      v ← read s child;
      Some (ref_matrix child, ref_edges child, attr_is_feasible child,
            is_feasible v, truthy (is_feasible v)))
     = Some (1, 1, AttrDict 0, FEdges [(fz 1, fz 2)] [(fz 2, fz 4)], true).
Proof. split; vm_compute; reflexivity. Qed.

(** ** Edges decided twice *)

(** C6, as stated, fails.  In [node_A3] the edge (2, 4) is excluded and
    the edge (1, 2) included.  [with_edge_branch] on (2, 4) includes the
    edge all the same, so that it is in both sets, and shrinks the matrix;
    [without_edge_branch] on (1, 2) raises [ValueError], because the row of
    node 1 has left the matrix. *)
Lemma decided_in_other_set_not_detected :
  edge_in (fz 2, fz 4) (edges_False node_A3) = true
  /\ (c ← with_edge_branch node_A3 (fz 2, fz 4);
      Ok (edge_in (fz 2, fz 4) (edges_True c), edge_in (fz 2, fz 4) (edges_False c),
          length (distance_matrix c), length (distance_matrix node_A3),
          edges_True c))
     = Ok (true, true, 3, 4, [(fz 1, fz 2); (fz 2, fz 4); (fz 3, fz 1); (fz 4, fz 1)])
  /\ edge_in (fz 1, fz 2) (edges_True node_A3) = true
  /\ without_edge_branch node_A3 (fz 1, fz 2) = Err ValueError.
Proof. repeat split; vm_compute; reflexivity. Qed.

(** C6, amended.  Each transition guards its own set: [with_edge_branch]
    on an edge that is already included, and [without_edge_branch] on an
    edge that is already excluded, return the node with [is_feasible] set
    to [False] and nothing else changed, and raise nothing. *)
Theorem decided_in_own_set_marks_infeasible (p : BnBPartialSolution) (e : edge) :
  (edge_in e (edges_True p) = true ->
   with_edge_branch p e = Ok (set_is_feasible_attr FFalse p))
  /\ (edge_in e (edges_False p) = true ->
      without_edge_branch p e = Ok (set_is_feasible_attr FFalse p)).
Proof.
  split; intros H.
  - unfold with_edge_branch. rewrite H. reflexivity.
  - unfold without_edge_branch. rewrite H. reflexivity.
Qed.

Lemma decided_in_own_set_witness :
  with_edge_branch node_A3 (fz 1, fz 2) = Ok (set_is_feasible_attr FFalse node_A3)
  /\ without_edge_branch node_A3 (fz 2, fz 4) = Ok (set_is_feasible_attr FFalse node_A3).
Proof.
  split.
  - apply (proj1 (decided_in_own_set_marks_infeasible node_A3 (fz 1, fz 2))).
    reflexivity.
  - apply (proj2 (decided_in_own_set_marks_infeasible node_A3 (fz 2, fz 4))).
    reflexivity.
Defined.

(** What the guard leaves untouched. *)
Lemma set_is_feasible_attr_frame f p :
  distance_matrix (set_is_feasible_attr f p) = distance_matrix p
  /\ edges_True (set_is_feasible_attr f p) = edges_True p
  /\ edges_False (set_is_feasible_attr f p) = edges_False p
  /\ lower_bound (set_is_feasible_attr f p) = lower_bound p
  /\ solved (set_is_feasible_attr f p) = solved p
  /\ is_feasible (set_is_feasible_attr f p) = f.
Proof. repeat split. Qed.

(** ** The lower bound along a branch *)

Lemma nonneg_not_nan x : nonneg x = true -> is_nan x = false.
Proof. unfold nonneg. destruct x; simpl; congruence. Qed.

Lemma nonneg_or_nan_of_nonneg x : nonneg x = true -> nonneg_or_nan x = true.
Proof. unfold nonneg_or_nan. intros ->. reflexivity. Qed.

Lemma fadd_nonneg a b : nonneg a = true -> nonneg b = true -> nonneg (fadd a b) = true.
Proof.
  unfold nonneg. destruct a, b; simpl; try congruence.
  rewrite !Qle_bool_iff. intros. lra.
Qed.

Lemma fadd_nonneg_or_nan a b :
  nonneg_or_nan a = true -> nonneg_or_nan b = true -> nonneg_or_nan (fadd a b) = true.
Proof.
  unfold nonneg_or_nan. rewrite !orb_true_iff. intros [Ha|Ha] [Hb|Hb].
  - left. by apply fadd_nonneg.
  - right. unfold nonneg in *. destruct a, b; simpl in *; congruence.
  - right. unfold nonneg in *. destruct a, b; simpl in *; congruence.
  - right. destruct a, b; simpl in *; congruence.
Qed.

(** Adding a contribution that is not negative never lowers a bound; the
    sum may be nan. *)
Lemma fadd_not_below lb c :
  nonneg_or_nan c = true ->
  is_nan (fadd lb c) = true \/ fge (fadd lb c) lb = true.
Proof.
  unfold nonneg_or_nan, nonneg, fge.
  destruct lb, c; simpl; rewrite ?orb_false_r, ?orb_true_r; auto; try discriminate.
  rewrite !Qle_bool_iff. intros. right. lra.
Qed.

Lemma py_sum_acc_nonneg l acc :
  nonneg acc = true -> Forall (fun x => nonneg x = true) l ->
  nonneg (fold_left fadd l acc) = true.
Proof.
  revert acc. induction l as [|x l IH]; intros acc Ha Hl; simpl; [done|].
  inversion Hl; subst. apply IH; [by apply fadd_nonneg | done].
Qed.

Lemma py_sum_acc_nonneg_or_nan l acc :
  nonneg_or_nan acc = true -> Forall (fun x => nonneg_or_nan x = true) l ->
  nonneg_or_nan (fold_left fadd l acc) = true.
Proof.
  revert acc. induction l as [|x l IH]; intros acc Ha Hl; simpl; [done|].
  inversion Hl; subst. apply IH; [by apply fadd_nonneg_or_nan | done].
Qed.

Lemma py_sum_nonneg l :
  Forall (fun x => nonneg x = true) l -> nonneg (py_sum l) = true.
Proof. apply py_sum_acc_nonneg. reflexivity. Qed.

Lemma py_sum_nonneg_or_nan l :
  Forall (fun x => nonneg_or_nan x = true) l -> nonneg_or_nan (py_sum l) = true.
Proof. apply py_sum_acc_nonneg_or_nan. reflexivity. Qed.

(** The running minimum of values that are not negative. *)
Lemma fold_min_nonneg l x :
  nonneg x = true -> Forall (fun y => nonneg y = true) l ->
  let r := fold_left (fun acc y => if flt y acc then y else acc) l x in
  nonneg r = true /\ fle r x = true /\ Forall (fun y => fle r y = true) l.
Proof.
  revert x. induction l as [|y l IH]; intros x Hx Hl; simpl.
  - repeat split; [done| |constructor].
    destruct x; simpl in *; try done. apply Qle_bool_iff. lra.
  - inversion Hl as [|? ? Hy Hl']; subst.
    destruct (flt y x) eqn:Hlt.
    + destruct (IH y Hy Hl') as (H1 & H2 & H3). repeat split; [done| |by constructor].
      set (r := fold_left _ l y) in *. clearbody r.
      destruct r, y, x; simpl in *; try done.
      rewrite negb_true_iff in Hlt. apply Qle_bool_iff.
      apply Qle_bool_iff in H2.
      destruct (Qle_bool q1 q0) eqn:E; [done|].
      assert (~ (q1 <= q0)%Q) by (rewrite <- Qle_bool_iff; congruence). lra.
    + destruct (IH x Hx Hl') as (H1 & H2 & H3). repeat split; [done|done|].
      constructor; [|done].
      set (r := fold_left _ l x) in *. clearbody r.
      destruct r, y, x; simpl in *; try done.
      rewrite negb_false_iff in Hlt. apply Qle_bool_iff.
      apply Qle_bool_iff in H2, Hlt. lra.
Qed.

Lemma existsb_is_nan_nonneg l :
  Forall (fun y => nonneg y = true) l -> existsb is_nan l = false.
Proof.
  induction 1 as [|y l Hy _ IH]; simpl; [done|].
  by rewrite (nonneg_not_nan _ Hy).
Qed.

(** [np_min] of values that are not negative: the result is not negative
    and subtracting it leaves values that are not negative, or nan where
    it is infinite. *)
Lemma np_min_nonneg l r :
  np_min l = Ok r -> Forall (fun y => nonneg y = true) l ->
  nonneg r = true /\ Forall (fun y => nonneg_or_nan (fsub y r) = true) l.
Proof.
  destruct l as [|x l]; [discriminate|]. intros H Hl.
  unfold np_min in H. rewrite (existsb_is_nan_nonneg _ Hl) in H.
  injection H as <-.
  inversion Hl as [|? ? Hx Hl']; subst.
  destruct (fold_min_nonneg l x Hx Hl') as (H1 & H2 & H3).
  set (r := fold_left _ l x) in *. clearbody r.
  split; [done|].
  assert (Hsub : forall y, nonneg y = true -> fle r y = true ->
                           nonneg_or_nan (fsub y r) = true).
  { intros y Hy Hle. unfold nonneg_or_nan, nonneg, fsub in *.
    destruct r, y; simpl in *; try done.
    rewrite orb_false_r. apply Qle_bool_iff. apply Qle_bool_iff in Hle. lra. }
  constructor; [by apply Hsub|].
  rewrite Forall_forall in Hl', H3 |- *. intros y Hy. apply Hsub; auto.
Qed.

Lemma np_min_nonneg_or_nan l r :
  np_min l = Ok r -> Forall (fun y => nonneg_or_nan y = true) l ->
  nonneg_or_nan r = true.
Proof.
  destruct l as [|x l]; [discriminate|]. intros H Hl.
  unfold np_min in H. destruct (existsb is_nan (x :: l)) eqn:E.
  - by injection H as <-.
  - injection H as <-.
    assert (Hnn : Forall (fun y => nonneg y = true) (x :: l)).
    { rewrite Forall_forall in Hl |- *. intros y Hy.
      specialize (Hl y Hy). unfold nonneg_or_nan in Hl.
      apply orb_true_iff in Hl as [Hl|Hl]; [done|].
      assert (existsb is_nan (x :: l) = true); [|congruence].
      apply existsb_exists. exists y. split; [|done].
      by apply list_elem_of_In. }
    inversion Hnn; subst. apply nonneg_or_nan_of_nonneg.
    by apply fold_min_nonneg.
Qed.

Lemma map_result_Forall2 {A B} (f : A -> result B) l ys :
  map_result f l = Ok ys -> Forall2 (fun x y => f x = Ok y) l ys.
Proof.
  revert ys. induction l as [|x l IH]; intros ys H; simpl in H.
  - injection H as <-. constructor.
  - destruct (f x) eqn:Hx; simpl in H; try discriminate.
    destruct (map_result f l) eqn:Hl; simpl in H; try discriminate.
    injection H as <-. constructor; auto.
Qed.

(** The data region after the subtraction of the row minima. *)
Lemma data_of_sub_rows m rmins :
  data_of (sub_rows m rmins)
  = zip_with (fun row rm => map (fun x => fsub x rm) row) (data_of m) rmins.
Proof.
  destruct m as [|labels rows]; [done|].
  unfold data_of, sub_rows. simpl. rewrite !drop_0.
  revert rmins. induction rows as [|row rows IH]; intros [|rm rmins]; simpl; try done.
  f_equal; [|apply IH]. by destruct row.
Qed.

(** Row reduction of a matrix whose data cells are not negative leaves
    row minima that are not negative and data cells that are not negative
    or nan. *)
Lemma row_reduction_nonneg m rmins :
  data_nonneg m -> min_axis1 (data_of m) = Ok rmins ->
  Forall (fun x => nonneg x = true) rmins
  /\ Forall (Forall (fun x => nonneg_or_nan x = true)) (data_of (sub_rows m rmins)).
Proof.
  intros Hm Hr. rewrite data_of_sub_rows. unfold data_nonneg in Hm.
  apply map_result_Forall2 in Hr. revert Hm.
  induction Hr as [|row rm d rmins Hrow _ IH]; intros Hm; simpl.
  - split; constructor.
  - inversion Hm as [|? ? Hrow_nn Hd]; subst.
    destruct (np_min_nonneg _ _ Hrow Hrow_nn) as [H1 H2].
    destruct (IH Hd) as [H3 H4].
    split; constructor; auto.
    by apply Forall_fmap.
Qed.

Lemma columns_nonneg_or_nan d :
  Forall (Forall (fun x => nonneg_or_nan x = true)) d ->
  Forall (Forall (fun x => nonneg_or_nan x = true)) (columns d).
Proof.
  intros Hd. unfold columns. destruct d as [|r d']; [constructor|].
  set (dd := r :: d') in *. clearbody dd.
  apply Forall_fmap, Forall_forall. intros j _. simpl.
  apply Forall_fmap. eapply Forall_impl; [exact Hd|].
  intros row Hrow. simpl.
  destruct (nth_in_or_default j row NaN) as [Hin| ->]; [|done].
  rewrite Forall_forall in Hrow. apply Hrow. by apply list_elem_of_In.
Qed.

Lemma map_result_np_min_nonneg_or_nan d mins :
  map_result np_min d = Ok mins ->
  Forall (Forall (fun x => nonneg_or_nan x = true)) d ->
  Forall (fun x => nonneg_or_nan x = true) mins.
Proof.
  intros H Hd. apply map_result_Forall2 in H.
  induction H as [|row rm d mins Hrow _ IH]; [constructor|].
  inversion Hd; subst. constructor; [|auto].
  by eapply np_min_nonneg_or_nan.
Qed.

(** The contribution of [bound] on a matrix whose data cells are not
    negative is not negative, or nan. *)
Lemma bound_matrix_nonneg m m' c :
  data_nonneg m -> bound_matrix m = Ok (m', c) -> nonneg_or_nan c = true.
Proof.
  intros Hm H. unfold bound_matrix in H.
  destruct (min_axis1 (data_of m)) as [rmins| |] eqn:Hr; simpl in H; try discriminate.
  destruct (min_axis0 (data_of (sub_rows m rmins))) as [cmins| |] eqn:Hc;
    simpl in H; try discriminate.
  injection H as _ <-.
  destruct (row_reduction_nonneg _ _ Hm Hr) as [H1 H2].
  apply fadd_nonneg_or_nan.
  - apply nonneg_or_nan_of_nonneg. by apply py_sum_nonneg.
  - apply py_sum_nonneg_or_nan. unfold min_axis0 in Hc.
    destruct (data_of (sub_rows m rmins)) eqn:E; [discriminate|]. rewrite <- E in *.
    eapply map_result_np_min_nonneg_or_nan; [exact Hc|].
    by apply columns_nonneg_or_nan.
Qed.

Lemma bound_not_below p p' c :
  data_nonneg (distance_matrix p) -> bound p = Ok (p', c) ->
  is_nan (lower_bound p') = true \/ fge (lower_bound p') (lower_bound p) = true.
Proof.
  intros Hm H. unfold bound in H.
  destruct (bound_matrix (distance_matrix p)) as [[m lb]| |] eqn:Hb; simpl in H;
    try discriminate.
  injection H as <- <-. simpl.
  apply fadd_not_below. by eapply bound_matrix_nonneg.
Qed.

(** Deleting a row or a column, and writing an infinity, keep the data
    cells not negative, whatever the position. *)
Lemma Forall_drop1_delete {A} (P : A -> Prop) (l : list A) i :
  Forall P (drop 1 l) -> Forall P (drop 1 (delete i l)).
Proof.
  destruct l as [|x l]; [done|]. destruct i as [|i]; simpl; rewrite ?drop_0.
  - apply (Forall_drop _ 1).
  - apply Forall_delete.
Qed.

Lemma Forall_drop1_insert {A} (P : A -> Prop) (l : list A) i x :
  Forall P (drop 1 l) -> (forall y, 0 < i -> l !! i = Some y -> P x) ->
  Forall P (drop 1 (<[i := x]> l)).
Proof.
  intros Hl Hx. destruct l as [|y l]; [done|]. destruct i as [|i]; simpl in *;
    rewrite ?drop_0 in *; [done|].
  destruct (l !! i) as [z|] eqn:E.
  - apply Forall_insert; [done|]. apply (Hx z); [lia|done].
  - rewrite list_insert_ge; [done|]. by apply lookup_ge_None.
Qed.

Lemma data_nonneg_rows m :
  data_nonneg m <->
  Forall (fun row => Forall (fun x => nonneg x = true) (drop 1 row)) (drop 1 m).
Proof. unfold data_nonneg, data_of. apply Forall_fmap. Qed.

Lemma data_nonneg_delete m i j :
  data_nonneg m -> data_nonneg (map (delete j) (delete i m)).
Proof.
  rewrite !data_nonneg_rows. intros H.
  change (map (delete j) (delete i m)) with (delete j <$> delete i m).
  rewrite <- fmap_drop. apply Forall_fmap.
  apply Forall_drop1_delete.
  eapply Forall_impl; [exact H|]. intros row Hrow. simpl in *.
  by apply Forall_drop1_delete.
Qed.

Lemma data_nonneg_set_cell m i j m' :
  data_nonneg m -> set_cell m i j PInf = Ok m' -> data_nonneg m'.
Proof.
  rewrite !data_nonneg_rows. unfold set_cell. intros H Hs.
  destruct (m !! i) as [row|] eqn:Hi; [|discriminate].
  destruct (decide _); [|discriminate]. injection Hs as <-.
  apply Forall_drop1_insert; [done|].
  intros y Hpos Hy.
  assert (Some y = Some row) as [= ->] by (rewrite <- Hi, <- Hy; reflexivity).
  apply Forall_drop1_insert; [|done].
  assert (Hrow : drop 1 m !! (i - 1) = Some row).
  { rewrite lookup_drop. replace (1 + (i - 1)) with i by lia. done. }
  exact (Forall_lookup_1 _ _ _ _ H Hrow).
Qed.

Lemma forbid_closing_nonneg route m m' :
  data_nonneg m -> forbid_closing route m = Ok m' -> data_nonneg m'.
Proof.
  unfold forbid_closing. intros Hm H.
  destruct (last route); [|discriminate]. destruct (head route); [|discriminate].
  destruct (edge_to_real_indexes_matrix m _) as [[i j]|[]|]; try discriminate.
  - by eapply data_nonneg_set_cell.
  - by injection H as <-.
Qed.

Lemma fold_forbid_closing_nonneg rs m m' :
  data_nonneg m -> fold_result forbid_closing rs m = Ok m' -> data_nonneg m'.
Proof.
  revert m. induction rs as [|r rs IH]; intros m Hm H; simpl in H.
  - by injection H as <-.
  - destruct (forbid_closing r m) as [m1| |] eqn:E; simpl in H; try discriminate.
    eapply IH; [|exact H]. by eapply forbid_closing_nonneg.
Qed.

(** What the steps of a transition leave unchanged. *)
Lemma construct_routes_frame p p' :
  construct_routes p = Ok p' ->
  exists rs, p' = set_routes (Some rs) p.
Proof.
  unfold construct_routes. intros H. destruct (rev (edges_True p)); [discriminate|].
  destruct (construct_loop _ _ _ _) as [rs| |]; simpl in H; try discriminate.
  injection H as <-. by exists rs.
Qed.

Lemma set_is_feasible_frame p p' :
  set_is_feasible p = Ok p' -> exists f, p' = set_is_feasible_attr f p.
Proof.
  unfold set_is_feasible. intros H.
  destruct (routes_edges_to_nodes p); simpl in H; try discriminate.
  destruct (fold_result _ _ _) as [f| |]; simpl in H; try discriminate.
  injection H as <-. by exists f.
Qed.

Lemma prevent_revisiting_frame p p' :
  prevent_revisiting p = Ok p' ->
  lower_bound p' = lower_bound p
  /\ (data_nonneg (distance_matrix p) -> data_nonneg (distance_matrix p')).
Proof.
  unfold prevent_revisiting. intros H.
  destruct (routes_edges_to_nodes p) as [rs| |]; simpl in H; try discriminate.
  destruct (fold_result _ _ _) as [m| |] eqn:E; simpl in H; try discriminate.
  injection H as <-. split; [done|]. simpl. intros Hm.
  by eapply fold_forbid_closing_nonneg.
Qed.

Lemma solve_leaf_frame p p' :
  solve_leaf p = Ok p' ->
  lower_bound p' = lower_bound p /\ distance_matrix p' = distance_matrix p.
Proof.
  unfold solve_leaf. intros H.
  repeat match type of H with
         | (mbind _ ?m = _) => destruct m; simpl in H; try discriminate
         | ((if ?c then _ else _) ≫= _ = _) => destruct c; simpl in H
         end.
  all: repeat match type of H with
         | context [match ?m with _ => _ end] => destruct m; simpl in H; try discriminate
         end.
  all: injection H as <-; done.
Qed.

Lemma fge_refl_or_nan x : is_nan x = true \/ fge x x = true.
Proof.
  destruct x; simpl; auto. right. unfold fge. simpl. apply Qle_bool_iff. lra.
Qed.

(** The bound of the result of a transition is nan or at least the bound
    of the node it was applied to. *)
Lemma with_edge_branch_not_below p e child :
  data_nonneg (distance_matrix p) -> with_edge_branch p e = Ok child ->
  is_nan (lower_bound child) = true \/ fge (lower_bound child) (lower_bound p) = true.
Proof.
  intros Hm H. unfold with_edge_branch in H.
  destruct (edge_in e (edges_True p)).
  { injection H as <-. apply fge_refl_or_nan. }
  destruct (edge_to_real_indexes _ e) as [[i j]| |]; simpl in H; try discriminate.
  set (p1 := set_distance_matrix _ _) in H.
  assert (Hlb1 : lower_bound p1 = lower_bound p) by done.
  assert (Hm1 : data_nonneg (distance_matrix p1)) by (by apply data_nonneg_delete).
  clearbody p1.
  destruct (is_leaf p1) as [[|]| |]; simpl in H; try discriminate.
  - destruct (solve_leaf p1) as [p2| |] eqn:E2; simpl in H; try discriminate.
    apply solve_leaf_frame in E2 as [Hlb2 _].
    destruct (is_solved p2).
    + destruct (construct_routes p2) as [p3| |] eqn:E3; simpl in H; try discriminate.
      apply construct_routes_frame in E3 as [rs ->].
      apply set_is_feasible_frame in H as [f ->]. simpl.
      rewrite Hlb2, Hlb1. apply fge_refl_or_nan.
    + injection H as <-. simpl. rewrite Hlb2, Hlb1. apply fge_refl_or_nan.
  - destruct (construct_routes p1) as [p2| |] eqn:E2; simpl in H; try discriminate.
    apply construct_routes_frame in E2 as [rs ->].
    destruct (prevent_revisiting _) as [p3| |] eqn:E3; simpl in H; try discriminate.
    apply prevent_revisiting_frame in E3 as [Hlb3 Hm3]. simpl in Hlb3, Hm3.
    destruct (bound p3) as [[p4 c]| |] eqn:E4; simpl in H; try discriminate.
    apply set_is_feasible_frame in H as [f ->]. simpl.
    rewrite <- Hlb1, <- Hlb3. eapply bound_not_below; [|exact E4]. auto.
Qed.

Lemma without_edge_branch_not_below p e child :
  data_nonneg (distance_matrix p) -> without_edge_branch p e = Ok child ->
  is_nan (lower_bound child) = true \/ fge (lower_bound child) (lower_bound p) = true.
Proof.
  intros Hm H. unfold without_edge_branch in H.
  destruct (edge_in e (edges_False p)).
  { injection H as <-. apply fge_refl_or_nan. }
  destruct (edge_to_real_indexes _ e) as [[i j]| |]; simpl in H; try discriminate.
  destruct (set_cell _ i j PInf) as [m1| |] eqn:E1; simpl in H; try discriminate.
  destruct (bound _) as [[p2 c]| |] eqn:E2; simpl in H; try discriminate.
  injection H as <-.
  apply bound_not_below in E2; [exact E2|]. simpl.
  by eapply data_nonneg_set_cell.
Qed.

(** ** Entirely infinite rows and columns *)

Lemma map_result_np_min_ok d :
  Forall (fun row => row <> []) d -> exists mins, map_result np_min d = Ok mins.
Proof.
  induction 1 as [|row d Hrow _ [mins IH]]; [by exists []|].
  destruct row as [|x row]; [done|]. simpl. rewrite IH. simpl. eauto.
Qed.

Lemma np_min_all_inf row :
  row <> [] -> Forall (fun x => x = PInf) row -> np_min row = Ok PInf.
Proof.
  destruct row as [|x row]; [done|]. intros _ H.
  inversion H as [|? ? -> Hrow]; subst. unfold np_min.
  assert (E : existsb is_nan (PInf :: row) = false).
  { simpl. clear H. induction Hrow as [|y l -> _ IH]; simpl; [done|exact IH]. }
  rewrite E. f_equal. clear E H.
  induction Hrow as [|y l -> _ IH]; simpl; [done|exact IH].
Qed.

Lemma np_min_with_nan col : NaN ∈ col -> np_min col = Ok NaN.
Proof.
  intros H. destruct col as [|x col]; [by apply elem_of_nil in H|].
  unfold np_min.
  assert (E : existsb is_nan (x :: col) = true).
  { apply existsb_exists. exists NaN. split; [|done]. by apply list_elem_of_In. }
  by rewrite E.
Qed.

Lemma py_sum_acc_nan l : fold_left fadd l NaN = NaN.
Proof. induction l as [|x l IH]; simpl; [done|]. exact IH. Qed.

Lemma fadd_nan_r x : fadd x NaN = NaN.
Proof. by destruct x. Qed.

Lemma py_sum_all_nan l : l <> [] -> Forall (fun x => x = NaN) l -> py_sum l = NaN.
Proof.
  destruct l as [|x l]; [done|]. intros _ H. inversion H; subst.
  unfold py_sum. simpl. apply py_sum_acc_nan.
Qed.

(** The data region after the subtraction of the column minima. *)
Lemma data_of_sub_cols m cmins :
  data_of (sub_cols m cmins) = map (fun row => zip_with fsub row cmins) (data_of m).
Proof.
  destruct m as [|labels rows]; [done|].
  unfold data_of, sub_cols. simpl. rewrite !drop_0.
  induction rows as [|row rows IH]; simpl; [done|].
  f_equal; [|apply IH]. by destruct row.
Qed.

(** [bound_matrix] in terms of the data region. *)
Lemma bound_matrix_data m rmins cmins :
  min_axis1 (data_of m) = Ok rmins ->
  min_axis0 (zip_with (fun row rm => map (fun x => fsub x rm) row) (data_of m) rmins)
  = Ok cmins ->
  exists m',
    bound_matrix m = Ok (m', fadd (py_sum rmins) (py_sum cmins))
    /\ data_of m'
       = map (fun row => zip_with fsub row cmins)
             (zip_with (fun row rm => map (fun x => fsub x rm) row) (data_of m) rmins).
Proof.
  intros Hr Hc. unfold bound_matrix. rewrite Hr. simpl.
  rewrite data_of_sub_rows, Hc. simpl. eexists. split; [reflexivity|].
  by rewrite data_of_sub_cols, data_of_sub_rows.
Qed.

Lemma columns_lookup d nc j :
  d <> [] -> Forall (fun row => length row = nc) d -> j < nc ->
  columns d !! j = Some (map (fun row => nth j row NaN) d).
Proof.
  intros Hd Hlen Hj. unfold columns. destruct d as [|r d']; [done|].
  inversion Hlen as [|? ? Hr _]; subst.
  rewrite list_lookup_fmap, lookup_seq_lt; done.
Qed.

Lemma columns_length d nc :
  d <> [] -> Forall (fun row => length row = nc) d -> length (columns d) = nc.
Proof.
  intros Hd Hlen. unfold columns. destruct d as [|r d']; [done|].
  inversion Hlen; subst. by rewrite length_map, length_seq.
Qed.

Lemma columns_nonempty d : Forall (fun col => col <> []) (columns d).
Proof.
  unfold columns. destruct d as [|r d']; [constructor|].
  apply Forall_fmap, Forall_forall. intros j _. simpl. discriminate.
Qed.

(** Row reduction keeps the shape of the data region. *)
Lemma row_reduced_shape d rmins nc :
  Forall (fun row => length row = nc) d -> length rmins = length d ->
  let d1 := zip_with (fun row rm => map (fun x => fsub x rm) row) d rmins in
  length d1 = length d /\ Forall (fun row => length row = nc) d1.
Proof.
  intros Hd Hlen. simpl. split.
  - rewrite length_zip_with. lia.
  - clear Hlen. revert rmins. induction Hd as [|row d Hrow _ IH]; intros [|rm rmins];
      simpl; constructor; [by rewrite length_map|apply IH].
Qed.

Lemma map_result_np_min_with_nan cols :
  Forall (fun col => NaN ∈ col) cols ->
  map_result np_min cols = Ok ((fun _ => NaN) <$> cols).
Proof.
  induction 1 as [|col cols Hcol _ IH]; [done|].
  simpl. rewrite (np_min_with_nan _ Hcol). simpl. by rewrite IH.
Qed.

Lemma nth_all_nan row j : Forall (fun x => x = NaN) row -> nth j row NaN = NaN.
Proof.
  intros H. destruct (nth_in_or_default j row NaN) as [Hin|]; [|done].
  rewrite Forall_forall in H. apply H. by apply list_elem_of_In.
Qed.

Lemma zip_with_fsub_all_nan row cmins :
  Forall (fun x => x = NaN) cmins -> Forall (fun x => x = NaN) (zip_with fsub row cmins).
Proof.
  intros H. revert row. induction H as [|c cmins -> _ IH]; intros [|x row]; simpl;
    constructor; [by destruct x|apply IH].
Qed.

(** A row that is entirely infinite has the minimum plus infinity; the
    subtraction turns it into nan, every column minimum is then nan, and
    so are every data cell and the value of the bound. *)
Lemma bound_matrix_inf_row m nc i row :
  0 < nc -> data_columns m nc ->
  data_of m !! i = Some row -> Forall (fun x => x = PInf) row ->
  np_min row = Ok PInf
  /\ exists m', bound_matrix m = Ok (m', NaN)
                /\ Forall (Forall (fun x => x = NaN)) (data_of m')
                /\ data_columns m' nc
                /\ length (data_of m') = length (data_of m).
Proof.
  unfold data_columns. intros Hnc Hshape Hi Hrow.
  set (d := data_of m) in *.
  assert (Hne : Forall (fun r => r <> []) d).
  { eapply Forall_impl; [exact Hshape|]. intros r Hr ->. simpl in Hr. lia. }
  assert (Hrow_ne : row <> []) by exact (Forall_lookup_1 _ _ _ _ Hne Hi).
  pose proof (np_min_all_inf row Hrow_ne Hrow) as Hmin.
  split; [exact Hmin|].
  destruct (map_result_np_min_ok d Hne) as [rmins Hr].
  pose proof (map_result_Forall2 _ _ _ Hr) as HF.
  pose proof (Forall2_length _ _ _ HF) as Hlen.
  destruct (Forall2_lookup_l _ _ _ _ _ HF Hi) as (rm & Hrm & Hrm').
  rewrite Hmin in Hrm'. injection Hrm' as <-.
  set (d1 := zip_with (fun row rm => map (fun x => fsub x rm) row) d rmins).
  destruct (row_reduced_shape d rmins nc Hshape (eq_sym Hlen)) as [Hlen1 Hshape1].
  fold d1 in Hlen1, Hshape1.
  assert (Hi1 : d1 !! i = Some (map (fun x => fsub x PInf) row)).
  { unfold d1. rewrite lookup_zip_with, Hi. simpl. by rewrite Hrm. }
  assert (Hnan_row : Forall (fun x => x = NaN) (map (fun x => fsub x PInf) row)).
  { apply Forall_fmap. eapply Forall_impl; [exact Hrow|]. by intros x ->. }
  assert (Hd1 : d1 <> []) by (intros E; by rewrite E in Hi1).
  assert (Hcols : Forall (fun col => NaN ∈ col) (columns d1)).
  { unfold columns. destruct d1 as [|r d1'] eqn:E; [done|]. rewrite <- E in *.
    apply Forall_fmap, Forall_forall. intros j _. simpl.
    apply list_elem_of_fmap. exists (map (fun x => fsub x PInf) row). split.
    - by rewrite nth_all_nan.
    - by eapply list_elem_of_lookup_2. }
  pose proof (map_result_np_min_with_nan _ Hcols) as Hc.
  set (cmins := (fun _ => NaN) <$> columns d1) in *.
  assert (Hcmins : Forall (fun x => x = NaN) cmins).
  { apply Forall_fmap, Forall_forall. by intros. }
  assert (Hcl : length cmins = nc).
  { unfold cmins. rewrite length_fmap. by apply columns_length. }
  assert (Hc0 : min_axis0 d1 = Ok cmins).
  { unfold min_axis0. destruct d1; [done|exact Hc]. }
  destruct (bound_matrix_data m rmins cmins Hr Hc0) as (m' & Hb & Hdata).
  exists m'. fold d d1 in Hdata. repeat split.
  - rewrite Hb. f_equal. f_equal.
    rewrite (py_sum_all_nan cmins); [apply fadd_nan_r| |done].
    intros E. rewrite E in Hcl. simpl in Hcl. lia.
  - rewrite Hdata. apply Forall_fmap, Forall_forall. intros r _. simpl.
    by apply zip_with_fsub_all_nan.
  - rewrite Hdata. apply Forall_fmap. eapply Forall_impl; [exact Hshape1|].
    intros r Hr1. unfold compose. simpl in *. rewrite length_zip_with. lia.
  - rewrite Hdata, length_map. exact Hlen1.
Qed.

Lemma fsub_inf_nonneg rm : nonneg rm = true -> inf_or_nan (fsub PInf rm) = true.
Proof. unfold nonneg. by destruct rm. Qed.

Lemma fsub_inf_or_nan a b : inf_or_nan a = true -> inf_or_nan b = true -> fsub a b = NaN.
Proof. by destruct a, b. Qed.

Lemma fadd_inf_or_nan_r a b :
  nonneg_or_nan a = true -> inf_or_nan b = true -> inf_or_nan (fadd a b) = true.
Proof. unfold nonneg_or_nan, nonneg. by destruct a, b. Qed.

Lemma fadd_inf_or_nan_l a b :
  inf_or_nan a = true -> nonneg_or_nan b = true -> inf_or_nan (fadd a b) = true.
Proof. unfold nonneg_or_nan, nonneg. by destruct a, b. Qed.

Lemma py_sum_acc_inf_or_nan l acc :
  inf_or_nan acc = true -> Forall (fun x => nonneg_or_nan x = true) l ->
  inf_or_nan (fold_left fadd l acc) = true.
Proof.
  revert acc. induction l as [|x l IH]; intros acc Ha Hl; simpl; [done|].
  inversion Hl; subst. apply IH; [by apply fadd_inf_or_nan_l|done].
Qed.

Lemma py_sum_acc_with_inf l acc j x :
  nonneg_or_nan acc = true -> Forall (fun x => nonneg_or_nan x = true) l ->
  l !! j = Some x -> inf_or_nan x = true ->
  inf_or_nan (fold_left fadd l acc) = true.
Proof.
  revert acc j. induction l as [|y l IH]; intros acc j Ha Hl Hj Hx; [done|].
  inversion Hl; subst. simpl. destruct j as [|j]; simpl in Hj.
  - injection Hj as ->. apply py_sum_acc_inf_or_nan; [|done].
    by apply fadd_inf_or_nan_r.
  - eapply IH; [|done|exact Hj|done]. by apply fadd_nonneg_or_nan.
Qed.

Lemma np_min_inf_or_nan col :
  col <> [] -> Forall (fun x => inf_or_nan x = true) col ->
  exists cm, np_min col = Ok cm /\ inf_or_nan cm = true.
Proof.
  destruct col as [|x col]; [done|]. intros _ H. unfold np_min.
  destruct (existsb is_nan (x :: col)) eqn:E; [by exists NaN|].
  eexists. split; [reflexivity|].
  simpl in E. apply orb_false_iff in E as [Ex Ecol].
  inversion H as [|? ? Hx Hcol]; subst.
  assert (x = PInf) as -> by (by destruct x).
  clear H Hx. induction Hcol as [|y l Hy _ IH]; simpl; [done|].
  simpl in Ecol. apply orb_false_iff in Ecol as [Ey El].
  assert (y = PInf) as -> by (by destruct y). simpl. by apply IH.
Qed.

(** A column that is entirely infinite stays so under row reduction, or
    becomes nan where the row is entirely infinite too; its minimum is
    plus infinity or nan, and the subtraction leaves nan in the whole
    column. *)
Lemma bound_matrix_inf_column m nc j :
  data_columns m nc -> data_nonneg m -> data_of m <> [] -> j < nc ->
  Forall (fun row => row !! j = Some PInf) (data_of m) ->
  exists m' c, bound_matrix m = Ok (m', c)
               /\ inf_or_nan c = true
               /\ Forall (fun row => row !! j = Some NaN) (data_of m')
               /\ length (data_of m') = length (data_of m).
Proof.
  unfold data_columns. intros Hshape Hnn Hd Hj Hcol.
  assert (Hne : Forall (fun r => r <> []) (data_of m)).
  { eapply Forall_impl; [exact Hshape|]. intros r Hr ->. simpl in Hr. lia. }
  destruct (map_result_np_min_ok _ Hne) as [rmins Hr].
  destruct (row_reduction_nonneg m rmins Hnn Hr) as [Hrm_nn Hd1_nn].
  rewrite data_of_sub_rows in Hd1_nn.
  pose proof (map_result_Forall2 _ _ _ Hr) as HF.
  pose proof (Forall2_length _ _ _ HF) as Hlen.
  set (d := data_of m) in *.
  set (d1 := zip_with (fun row rm => map (fun x => fsub x rm) row) d rmins) in *.
  destruct (row_reduced_shape d rmins nc Hshape (eq_sym Hlen)) as [Hlen1 Hshape1].
  fold d1 in Hlen1, Hshape1.
  assert (Hd1 : d1 <> []).
  { intros E. rewrite E in Hlen1. destruct d; [done|discriminate]. }
  (* the column [j] after row reduction *)
  assert (Hcol1 : Forall (fun row => exists x, row !! j = Some x /\ inf_or_nan x = true) d1).
  { unfold d1. clear -Hcol Hrm_nn HF.
    induction HF as [|row rm d rmins _ _ IH]; simpl; [constructor|].
    inversion Hcol; subst. inversion Hrm_nn; subst.
    constructor; [|by apply IH].
    exists (fsub PInf rm). split; [|by apply fsub_inf_nonneg].
    rewrite list_lookup_fmap. by rewrite H1. }
  set (colj := map (fun row => nth j row NaN) d1).
  assert (Hcolj : Forall (fun x => inf_or_nan x = true) colj).
  { apply Forall_fmap. eapply Forall_impl; [exact Hcol1|].
    intros row (x & Hx & Hx'). simpl.
    by rewrite (nth_lookup_Some _ _ _ _ Hx). }
  assert (Hcolj_ne : colj <> []) by (unfold colj; destruct d1; done).
  destruct (np_min_inf_or_nan colj Hcolj_ne Hcolj) as (cmj & Hcmj & Hcmj').
  destruct (map_result_np_min_ok _ (columns_nonempty d1)) as [cmins Hc].
  pose proof (map_result_Forall2 _ _ _ Hc) as HFc.
  pose proof (columns_lookup d1 nc j Hd1 Hshape1 Hj) as Hlk. fold colj in Hlk.
  destruct (Forall2_lookup_l _ _ _ _ _ HFc Hlk) as (cm & Hcm & Hcm').
  rewrite Hcmj in Hcm'. injection Hcm' as <-.
  assert (Hcm_nn : Forall (fun x => nonneg_or_nan x = true) cmins).
  { eapply map_result_np_min_nonneg_or_nan; [exact Hc|].
    by apply columns_nonneg_or_nan. }
  assert (Hc0 : min_axis0 d1 = Ok cmins).
  { unfold min_axis0. destruct d1; [done|exact Hc]. }
  destruct (bound_matrix_data m rmins cmins Hr Hc0) as (m' & Hb & Hdata).
  fold d d1 in Hdata.
  exists m', (fadd (py_sum rmins) (py_sum cmins)). repeat split.
  - exact Hb.
  - apply fadd_inf_or_nan_r.
    + apply nonneg_or_nan_of_nonneg. by apply py_sum_nonneg.
    + by eapply py_sum_acc_with_inf.
  - rewrite Hdata. apply Forall_fmap. eapply Forall_impl; [exact Hcol1|].
    intros row (x & Hx & Hx'). unfold compose. simpl.
    rewrite lookup_zip_with, Hx, Hcm. simpl. f_equal.
    by apply fsub_inf_or_nan.
  - rewrite Hdata, length_map. exact Hlen1.
Qed.

(** C4, as stated, fails.  In [matrix_inf_row] the row of node 2 is
    entirely infinite: [bound] turns every data cell into nan and returns
    nan.  In [matrix_inf_column] the column of node 3 is entirely
    infinite: [bound] leaves nan in that column and returns plus infinity.
    Neither contributes 0. *)
Lemma bound_infinite_line_gives_nan :
  bound_matrix matrix_inf_row
  = Ok ([[PInf; fz 1; fz 3; fz 4];
         [fz 2; NaN; NaN; NaN];
         [fz 3; NaN; NaN; NaN];
         [fz 4; NaN; NaN; NaN]], NaN)
  /\ bound_matrix matrix_inf_column
     = Ok ([[PInf; fz 1; fz 3; fz 4];
            [fz 2; PInf; NaN; fz 0];
            [fz 3; fz 3; NaN; fz 0];
            [fz 4; fz 0; NaN; PInf]], PInf).
Proof. split; vm_compute; reflexivity. Qed.

(** C4, amended.  On a matrix whose data region has [nc] columns [bound]
    raises nothing in either case.  A row that is entirely infinite has
    the minimum plus infinity, and every data cell and the value returned
    become nan.  When the data cells are not negative, a column that is
    entirely infinite ends as nan in each of its cells and the value
    returned is plus infinity or nan. *)
Theorem bound_entirely_infinite (m : ndarray) (nc : nat) :
  data_columns m nc ->
  (forall i row,
      0 < nc -> data_of m !! i = Some row -> Forall (fun x => x = PInf) row ->
      np_min row = Ok PInf
      /\ exists m', bound_matrix m = Ok (m', NaN)
                    /\ Forall (Forall (fun x => x = NaN)) (data_of m')
                    /\ length (data_of m') = length (data_of m))
  /\ (forall j,
         j < nc -> data_nonneg m -> data_of m <> [] ->
         Forall (fun row => row !! j = Some PInf) (data_of m) ->
         exists m' c, bound_matrix m = Ok (m', c)
                      /\ inf_or_nan c = true
                      /\ Forall (fun row => row !! j = Some NaN) (data_of m')
                      /\ length (data_of m') = length (data_of m)).
Proof.
  intros Hshape. split.
  - intros i row Hnc Hi Hrow.
    destruct (bound_matrix_inf_row m nc i row Hnc Hshape Hi Hrow)
      as (H1 & m' & H2 & H3 & _ & H4).
    split; [exact H1|]. exists m'. auto.
  - intros j Hj Hnn Hd Hcol. by apply (bound_matrix_inf_column m nc j).
Qed.

Lemma bound_entirely_infinite_witness :
  (np_min [PInf; PInf; PInf] = Ok PInf
   /\ exists m', bound_matrix matrix_inf_row = Ok (m', NaN)
                 /\ Forall (Forall (fun x => x = NaN)) (data_of m')
                 /\ length (data_of m') = length (data_of matrix_inf_row))
  /\ (exists m' c, bound_matrix matrix_inf_column = Ok (m', c)
                   /\ inf_or_nan c = true
                   /\ Forall (fun row => row !! 1 = Some NaN) (data_of m')
                   /\ length (data_of m') = length (data_of matrix_inf_column)).
Proof.
  split.
  - apply (proj1 (bound_entirely_infinite matrix_inf_row 3
                    ltac:(repeat constructor)) 0 [PInf; PInf; PInf]).
    + lia.
    + reflexivity.
    + repeat constructor.
  - apply (proj2 (bound_entirely_infinite matrix_inf_column 3
                    ltac:(repeat constructor)) 1).
    + lia.
    + repeat constructor.
    + discriminate.
    + repeat constructor.
Defined.

(** C5, as stated, fails.  [select_edge] proposes the edge (2, 3) for
    [node_A3], whose bound is 12; excluding it leaves the row of node 2
    entirely infinite, and the right child has the bound nan, which is not
    [>=] 12. *)
Lemma child_bound_nan :
  select_edge node_A3 = Ok (Some (fz 2, fz 3))
  /\ (child ← without_edge_branch (init_from_partial node_A3) (fz 2, fz 3);
      Ok (lower_bound child, fge (lower_bound child) (lower_bound node_A3)))
     = Ok (NaN, false).
Proof. split; vm_compute; reflexivity. Qed.

(** C5, amended.  When the data cells of the parent's matrix are not
    negative (finite and at least 0, or plus infinity), the bound of a
    child that [with_edge_branch] or [without_edge_branch] returns is at
    least the parent's bound, or it is nan. *)
Theorem child_bound_not_below_parent (parent child : BnBPartialSolution) (e : edge) :
  data_nonneg (distance_matrix parent) ->
  with_edge_branch (init_from_partial parent) e = Ok child
  \/ without_edge_branch (init_from_partial parent) e = Ok child ->
  is_nan (lower_bound child) = true
  \/ fge (lower_bound child) (lower_bound parent) = true.
Proof.
  intros Hm [H|H].
  - exact (with_edge_branch_not_below (init_from_partial parent) e child Hm H).
  - exact (without_edge_branch_not_below (init_from_partial parent) e child Hm H).
Qed.

Lemma child_bound_not_below_parent_witness :
  exists child,
    with_edge_branch (init_from_partial node_A3) (fz 2, fz 3) = Ok child
    /\ (is_nan (lower_bound child) = true
        \/ fge (lower_bound child) (lower_bound node_A3) = true).
Proof.
  eexists. split.
  - vm_compute. reflexivity.
  - apply (child_bound_not_below_parent node_A3 _ (fz 2, fz 3)).
    + repeat constructor.
    + left. vm_compute. reflexivity.
Defined.

(** The bound of the left child of [node_A3] stays 12. *)
Example child_bound_left :
  (child ← with_edge_branch (init_from_partial node_A3) (fz 2, fz 3);
   Ok (lower_bound child)) = Ok (fz 12).
Proof. vm_compute. reflexivity. Qed.

(** ** Termination of the run *)

Lemma terminates_bind {A B} (m : result A) (f : A -> result B) :
  terminates m -> (forall a, m = Ok a -> terminates (f a)) -> terminates (m ≫= f).
Proof.
  unfold terminates. destruct m as [a|e|]; simpl; intros Hm Hf.
  - by apply Hf.
  - discriminate.
  - done.
Qed.

Lemma terminates_for_range {St} lo n (body : nat -> St -> result St) s :
  (forall i s, terminates (body i s)) -> terminates (for_range lo n body s).
Proof.
  intros Hb. revert lo s. induction n as [|n IH]; intros lo s; simpl; [done|].
  apply terminates_bind; auto.
Qed.

Lemma terminates_fold_result {A St} (f : A -> St -> result St) l s :
  (forall x s, terminates (f x s)) -> terminates (fold_result f l s).
Proof.
  intros Hf. revert s. induction l as [|x l IH]; intros s; simpl; [done|].
  apply terminates_bind; auto.
Qed.

Lemma terminates_map_result {A B} (f : A -> result B) l :
  (forall x, terminates (f x)) -> terminates (map_result f l).
Proof.
  intros Hf. induction l as [|x l IH]; simpl; [done|].
  apply terminates_bind; [auto|]. intros y _.
  apply terminates_bind; [auto|]. done.
Qed.

Create HintDb term discriminated.

(** One step of a proof that a composition of terminating parts
    terminates. *)
Ltac term_step :=
  match goal with
  | |- terminates (Ok _) => discriminate
  | |- terminates (Err _) => discriminate
  | |- terminates _ => solve [auto with term]
  | |- terminates (mbind _ _) => apply terminates_bind; [|intros ? _]
  | |- terminates (for_range _ _ _ _) => apply terminates_for_range; intros ? ?
  | |- terminates (fold_result _ _ _) => apply terminates_fold_result; intros ? ?
  | |- terminates (map_result _ _) => apply terminates_map_result; intros ?
  | |- terminates (let '(_, _) := ?x in _) => destruct x
  | |- terminates (if ?c then _ else _) => destruct c
  | |- terminates (match ?x with _ => _ end) => destruct x
  end.
Ltac term := repeat term_step.

Lemma terminates_cell m i j : terminates (cell m i j).
Proof. unfold cell. term. Qed.
Lemma terminates_set_cell m i j v : terminates (set_cell m i j v).
Proof. unfold set_cell. term. Qed.
Lemma terminates_row_len m i : terminates (row_len m i).
Proof. unfold row_len. term. Qed.
Lemma terminates_column m j : terminates (column m j).
Proof. unfold column. term. Qed.
Lemma terminates_np_min l : terminates (np_min l).
Proof. unfold np_min. term. Qed.
Lemma terminates_py_min l : terminates (py_min l).
Proof. unfold py_min. term. Qed.
#[local] Hint Resolve terminates_cell terminates_set_cell terminates_row_len
  terminates_column terminates_np_min terminates_py_min : term.

Lemma terminates_bound_matrix m : terminates (bound_matrix m).
Proof. unfold bound_matrix, min_axis1, min_axis0. term. Qed.
#[local] Hint Resolve terminates_bound_matrix : term.

Lemma terminates_bound p : terminates (bound p).
Proof. unfold bound. term. Qed.

Lemma terminates_select_edge p : terminates (select_edge p).
Proof.
  unfold select_edge, select_edge_matrix, select_step, penalty,
    min_row_without, min_column_without. term.
Qed.

Lemma terminates_edge_to_real_indexes_matrix m e :
  terminates (edge_to_real_indexes_matrix m e).
Proof. unfold edge_to_real_indexes_matrix. term. Qed.
#[local] Hint Resolve terminates_bound terminates_select_edge
  terminates_edge_to_real_indexes_matrix : term.

Lemma terminates_edge_to_real_indexes p e : terminates (edge_to_real_indexes p e).
Proof. unfold edge_to_real_indexes. term. Qed.

Lemma terminates_is_leaf p : terminates (is_leaf p).
Proof. unfold is_leaf. term. Qed.

Lemma terminates_solve_leaf p : terminates (solve_leaf p).
Proof. unfold solve_leaf. term. Qed.

Lemma terminates_routes_edges_to_nodes p : terminates (routes_edges_to_nodes p).
Proof. unfold routes_edges_to_nodes. term. Qed.
#[local] Hint Resolve terminates_edge_to_real_indexes terminates_is_leaf
  terminates_solve_leaf terminates_routes_edges_to_nodes : term.

Lemma terminates_forbid_closing route m : terminates (forbid_closing route m).
Proof.
  unfold forbid_closing. destruct (last route); [|discriminate].
  destruct (head route); [|discriminate].
  pose proof (terminates_edge_to_real_indexes_matrix m (f, f0)) as H.
  destruct (edge_to_real_indexes_matrix m (f, f0)) as [[i j]|[]|]; term. done.
Qed.
#[local] Hint Resolve terminates_forbid_closing : term.

Lemma terminates_prevent_revisiting p : terminates (prevent_revisiting p).
Proof. unfold prevent_revisiting. term. Qed.

Lemma terminates_py_int x : terminates (py_int x).
Proof. unfold py_int. term. Qed.
#[local] Hint Resolve terminates_prevent_revisiting terminates_py_int : term.

Lemma terminates_set_is_feasible p : terminates (set_is_feasible p).
Proof. unfold set_is_feasible, load_route. term. Qed.
#[local] Hint Resolve terminates_set_is_feasible : term.

(** *** The keys of [memo] *)

Lemma feq_sym a b : feq a b = feq b a.
Proof.
  destruct a, b; simpl; try done.
  apply Bool.eq_iff_eq_true. rewrite !Qeq_bool_iff. split; intros H; by symmetry.
Qed.

Lemma feq_trans a b c : feq a b = true -> feq b c = true -> feq a c = true.
Proof.
  destruct a, b, c; simpl; try done.
  rewrite !Qeq_bool_iff. intros H1 H2. by rewrite H1.
Qed.

Lemma edge_eqb_sym a b : edge_eqb a b = edge_eqb b a.
Proof. unfold edge_eqb. by rewrite (feq_sym a.1), (feq_sym a.2). Qed.

Lemma edge_eqb_trans a b c :
  edge_eqb a b = true -> edge_eqb b c = true -> edge_eqb a c = true.
Proof.
  unfold edge_eqb. rewrite !andb_true_iff. intros [H1 H2] [H3 H4].
  split; eapply feq_trans; eauto.
Qed.

Lemma key_eqb_refl a : key_eqb a a = true.
Proof. unfold key_eqb. by rewrite bool_decide_eq_true_2. Qed.

Lemma key_eqb_sym a b : key_eqb a b = key_eqb b a.
Proof.
  unfold key_eqb. rewrite (edge_eqb_sym a b). f_equal.
  apply bool_decide_ext. split; intros; by symmetry.
Qed.

Lemma key_eqb_trans a b c :
  key_eqb a b = true -> key_eqb b c = true -> key_eqb a c = true.
Proof.
  unfold key_eqb. rewrite !orb_true_iff, !bool_decide_eq_true.
  intros [->|H1] [->|H2]; auto. right. by eapply edge_eqb_trans.
Qed.

Lemma key_eqb_congr a b k : key_eqb a b = true -> key_eqb k a = key_eqb k b.
Proof.
  intros H. apply Bool.eq_iff_eq_true. split; intros Hk.
  - by eapply key_eqb_trans.
  - eapply key_eqb_trans; [exact Hk|]. by rewrite key_eqb_sym.
Qed.

Lemma memo_count_congr memo a b :
  key_eqb a b = true -> memo_count memo a = memo_count memo b.
Proof.
  intros H. unfold memo_count, memo_get. f_equal. f_equal.
  induction memo as [|[k n] memo IH]; simpl; [done|].
  rewrite (key_eqb_congr a b k H). by destruct (key_eqb k b).
Qed.

Lemma memo_count_cons memo e c x :
  memo_count ((e, c) :: memo) x = if key_eqb e x then c else memo_count memo x.
Proof. unfold memo_count, memo_get. simpl. by destruct (key_eqb e x). Qed.

(** *** The loop of [construct_routes] *)

Lemma retries_cons_le memo e c l :
  memo_count memo e <= c ->
  sum_list_with (fun x => 10 - memo_count ((e, c) :: memo) x) l
  <= sum_list_with (fun x => 10 - memo_count memo x) l.
Proof.
  intros Hc. induction l as [|x l IH]; simpl in *; [done|].
  rewrite memo_count_cons. destruct (key_eqb e x) eqn:E.
  - rewrite <- (memo_count_congr memo e x E). lia.
  - lia.
Qed.

Lemma queue_measure_cons e edges memo :
  queue_measure (e :: edges) memo
  = S (10 - memo_count memo e) + queue_measure edges memo.
Proof. unfold queue_measure. simpl. lia. Qed.

Lemma queue_measure_requeue e edges memo c :
  memo_count memo e < c -> c <= 10 ->
  queue_measure (edges ++ [e]) ((e, c) :: memo) < queue_measure (e :: edges) memo.
Proof.
  intros Hlt Hle. unfold queue_measure.
  rewrite length_app, sum_list_with_app. simpl.
  rewrite memo_count_cons, key_eqb_refl.
  pose proof (retries_cons_le memo e c edges). simpl in *. lia.
Qed.

Lemma queue_measure_drop e edges memo c :
  memo_count memo e <= c ->
  queue_measure edges ((e, c) :: memo) < queue_measure (e :: edges) memo.
Proof.
  intros Hle. unfold queue_measure. simpl.
  pose proof (retries_cons_le memo e c edges). simpl in *. lia.
Qed.

(** Fuel that covers the measure is enough. *)
Lemma terminates_construct_loop fuel rs edges memo :
  queue_measure edges memo <= fuel -> terminates (construct_loop fuel rs edges memo).
Proof.
  revert rs edges memo. induction fuel as [|fuel IH]; intros rs edges memo Hm.
  - destruct edges; [done|]. rewrite queue_measure_cons in Hm. lia.
  - destruct edges as [|e edges]; [done|]. simpl.
    destruct (insert_in_routes e rs) as [rs' inserted]. destruct inserted.
    + apply IH. rewrite queue_measure_cons in Hm. lia.
    + destruct (memo_get memo e) as [n|] eqn:E.
      * assert (Hn : memo_count memo e = n) by (unfold memo_count; by rewrite E).
        destruct (decide (10 < n + 1)).
        -- apply IH. pose proof (queue_measure_drop e edges memo (n + 1)). lia.
        -- apply IH. pose proof (queue_measure_requeue e edges memo (n + 1)). lia.
      * assert (Hn : memo_count memo e = 0) by (unfold memo_count; by rewrite E).
        apply IH. pose proof (queue_measure_requeue e edges memo 1). lia.
Qed.

Lemma queue_measure_empty_memo edges : queue_measure edges [] = 11 * length edges.
Proof.
  unfold queue_measure. induction edges as [|e edges IH]; simpl in *; lia.
Qed.

Lemma terminates_construct_routes p : terminates (construct_routes p).
Proof.
  unfold construct_routes. destruct (rev (edges_True p)) as [|e edges]; [done|].
  apply terminates_bind; [|done].
  apply terminates_construct_loop. rewrite queue_measure_empty_memo. lia.
Qed.
#[local] Hint Resolve terminates_construct_routes : term.

(** *** The transitions and the engine *)

Lemma terminates_with_edge_branch p e : terminates (with_edge_branch p e).
Proof. unfold with_edge_branch. term. Qed.

Lemma terminates_without_edge_branch p e : terminates (without_edge_branch p e).
Proof. unfold without_edge_branch. term. Qed.
#[local] Hint Resolve terminates_with_edge_branch terminates_without_edge_branch : term.

Lemma terminates_branch e s : terminates (branch e s).
Proof. unfold branch. term. Qed.

Lemma terminates_pop e : terminates (pop_most_promising_solution e).
Proof. unfold pop_most_promising_solution. term. Qed.
#[local] Hint Resolve terminates_branch terminates_pop : term.

Section EngineTermination.

Variable np_getitem : ndarray -> fl -> fl -> option fl.

Lemma terminates_route_value p route distance :
  terminates (route_value np_getitem p route distance).
Proof.
  revert distance. induction route as [|a route IH]; intros distance; [done|].
  destruct route as [|b route]; [done|].
  cbn [route_value]. apply terminates_bind; [|intros d _; apply IH].
  unfold distance_between. term.
Qed.

Lemma terminates_calculate_value p : terminates (calculate_value np_getitem p).
Proof.
  unfold calculate_value. apply terminates_bind; [auto with term|]. intros rs _.
  apply terminates_fold_result. intros. apply terminates_route_value.
Qed.

Lemma terminates_the_upper_bound e : terminates (the_upper_bound e).
Proof. unfold the_upper_bound. term. Qed.

(** The sweep visits at most as many positions as the pool is long. *)
Lemma terminates_prune_loop fuel idx e :
  length (partial_solutions e) <= fuel + idx ->
  terminates (prune_loop np_getitem fuel idx e).
Proof.
  revert idx e. induction fuel as [|fuel IH]; intros idx e Hlen.
  - simpl. destruct (partial_solutions e !! idx) eqn:E; [|done].
    apply lookup_lt_Some in E. lia.
  - simpl. destruct (partial_solutions e !! idx) as [solution|] eqn:E; [|done].
    assert (Hdel : forall e0,
              terminates (prune_loop np_getitem fuel (S idx)
                (set_partial_solutions (delete idx (partial_solutions e)) e0))).
    { intros e0. apply IH. simpl.
      pose proof (length_delete (partial_solutions e) idx (mk_is_Some _ _ E)).
      pose proof (lookup_lt_Some _ _ _ E). lia. }
    destruct (is_solved solution).
    + apply terminates_bind; [|intros e0 _; apply Hdel].
      destruct (truthy (is_feasible solution)); [|done].
      apply terminates_bind; [apply terminates_calculate_value|]. intros v _.
      apply terminates_bind; [apply terminates_the_upper_bound|]. intros ub _.
      by destruct (flt v ub).
    + apply terminates_bind; [apply terminates_the_upper_bound|]. intros ub _.
      destruct (fge (lower_bound solution) ub); [by apply Hdel|].
      destruct (is_False (is_feasible solution)); [by apply Hdel|].
      apply IH. lia.
Qed.

Lemma terminates_prune e : terminates (prune np_getitem e).
Proof. unfold prune. apply terminates_prune_loop. lia. Qed.

Lemma terminates_run_body e : terminates (run_body np_getitem e).
Proof.
  unfold run_body. apply terminates_bind; [auto with term|]. intros [s e1] _.
  apply terminates_bind; [auto with term|]. intros e2 _. apply terminates_prune.
Qed.

(** What a pass leaves of the counter and of the incumbent. *)
Lemma prune_loop_counter fuel idx e e' :
  prune_loop np_getitem fuel idx e = Ok e' ->
  times_branched e' = times_branched e
  /\ (is_Some (current_best e) -> is_Some (current_best e')).
Proof.
  revert idx e. induction fuel as [|fuel IH]; intros idx e H; simpl in H.
  - destruct (partial_solutions e !! idx); [discriminate|]. by injection H as <-.
  - destruct (partial_solutions e !! idx) as [solution|]; [|by injection H as <-].
    destruct (is_solved solution).
    + destruct (truthy (is_feasible solution)).
      * destruct (calculate_value np_getitem solution) as [v| |]; simpl in H;
          try discriminate.
        destruct (the_upper_bound e) as [ub| |]; simpl in H; try discriminate.
        destruct (flt v ub); simpl in H; apply IH in H as [H1 H2]; simpl in *;
          split; auto.
      * simpl in H. apply IH in H as [H1 H2]. simpl in *. auto.
    + destruct (the_upper_bound e) as [ub| |]; simpl in H; try discriminate.
      destruct (fge (lower_bound solution) ub);
        [apply IH in H as [H1 H2]; simpl in *; auto|].
      destruct (is_False (is_feasible solution)); apply IH in H as [H1 H2];
        simpl in *; auto.
Qed.

Lemma run_body_counter e e' :
  run_body np_getitem e = Ok e' ->
  times_branched e' = times_branched e + 1
  /\ (is_Some (current_best e) -> is_Some (current_best e')).
Proof.
  unfold run_body, pop_most_promising_solution, branch. intros H.
  destruct (partial_solutions e !! 0) as [first|]; [|discriminate].
  destruct (most_promising_from 0 (partial_solutions e) first 0) as [mp index].
  destruct (partial_solutions e !! index) as [s|]; [|discriminate].
  simpl in H.
  destruct (select_edge s) as [[best_edge|]| |]; simpl in H; try discriminate.
  - destruct (with_edge_branch _ _) as [l| |]; simpl in H; try discriminate.
    destruct (without_edge_branch _ _) as [r| |]; simpl in H; try discriminate.
    apply prune_loop_counter in H as [H1 H2]. simpl in *. auto.
  - destruct (column _ 0); simpl in H; try discriminate.
    destruct (row_len _ 0); simpl in H; discriminate.
Qed.

(** The loop of [run] passes at most [200 - times_branched] times after
    the first pass. *)
Lemma terminates_run_loop fuel e :
  S (200 - times_branched e) <= fuel -> terminates (run_loop np_getitem fuel e).
Proof.
  revert e. induction fuel as [|fuel IH]; intros e Hf; [lia|].
  simpl. destruct (partial_solutions e); [done|].
  apply terminates_bind; [apply terminates_run_body|]. intros e1 He1.
  apply run_body_counter in He1 as [Htb _].
  destruct (decide (200 < times_branched e1)); [done|]. apply IH. lia.
Qed.

Lemma run_loop_stops fuel e e' :
  run_loop np_getitem fuel e = Ok e' ->
  (partial_solutions e' = [] \/ 200 < times_branched e')
  /\ times_branched e' <= S (Nat.max 200 (times_branched e))
  /\ (is_Some (current_best e) -> is_Some (current_best e')).
Proof.
  revert e. induction fuel as [|fuel IH]; intros e H; simpl in H.
  - destruct (partial_solutions e) eqn:E; [|discriminate].
    injection H as <-. repeat split; auto. lia.
  - destruct (partial_solutions e) eqn:E.
    { injection H as <-. repeat split; auto. lia. }
    destruct (run_body np_getitem e) as [e1| |] eqn:E1; simpl in H; try discriminate.
    apply run_body_counter in E1 as [Htb Hbest].
    destruct (decide (200 < times_branched e1)).
    + injection H as <-. repeat split; auto. lia.
    + apply IH in H as (H1 & H2 & H3). repeat split; auto. lia.
Qed.

End EngineTermination.



(** [run] on [instance_D]: the loop reaches the cap and returns. *)
Example run_instance_D :
  (e ← initialize new_engine instance_D (Some (fz 100)); run getitem_trunc e)
  = Ok (Some (fz 7), Some [[(fz 2, fz 1); (fz 1, fz 3); (fz 3, fz 1)]], 201).
Proof. vm_compute. reflexivity. Qed.

(** [run] on [instance_C] ends with the exception of the first pass. *)
Example run_instance_C :
  (e ← initialize new_engine instance_C (Some (fz 100)); run getitem_trunc e)
  = Err ValueError.
Proof. vm_compute. reflexivity. Qed.

(** ** The augmented matrix *)

(** A loop that keeps an invariant returns, in a state that satisfies
    it. *)
Lemma for_range_inv {St} (P : nat -> St -> Prop) lo n
    (body : nat -> St -> result St) s :
  P lo s ->
  (forall i s, lo <= i < lo + n -> P i s -> exists s', body i s = Ok s' /\ P (S i) s') ->
  exists s', for_range lo n body s = Ok s' /\ P (lo + n) s'.
Proof.
  revert lo s. induction n as [|n IH]; intros lo s H0 Hstep; simpl.
  - exists s. by rewrite Nat.add_0_r.
  - destruct (Hstep lo s) as (s1 & Hb & H1); [lia|done|].
    rewrite Hb. simpl.
    destruct (IH (S lo) s1 H1) as (s' & Hs' & HP).
    { intros i s2 Hi. apply Hstep. lia. }
    exists s'. split; [done|]. by replace (lo + S n) with (S lo + n) by lia.
Qed.

Lemma has_cells_ext m n f g :
  (forall i j, i < n -> j < n -> f i j = g i j) -> has_cells m n f -> has_cells m n g.
Proof.
  intros Hfg (H1 & H2 & H3). repeat split; [done..|].
  intros i j Hi Hj. rewrite H3, Hfg; done.
Qed.

Lemma has_cells_row_len m n f i : has_cells m n f -> i < n -> row_len m i = Ok n.
Proof.
  intros (H1 & H2 & _) Hi. unfold row_len, ndarray in *.
  destruct (lookup_lt_is_Some_2 m i) as [row Hrow]; [lia|].
  rewrite Hrow. f_equal. exact (Forall_lookup_1 _ _ _ _ H2 Hrow).
Qed.

Lemma has_cells_set_cell m n f i j v :
  has_cells m n f -> i < n -> j < n ->
  exists m', set_cell m i j v = Ok m' /\ has_cells m' n (with_cell f i j v).
Proof.
  intros (H1 & H2 & H3) Hi Hj. unfold set_cell, ndarray in *.
  destruct (lookup_lt_is_Some_2 m i) as [row Hrow]; [lia|].
  rewrite Hrow. pose proof (Forall_lookup_1 _ _ _ _ H2 Hrow) as Hlen. simpl in Hlen.
  destruct (decide (j < length row)); [|lia].
  eexists. split; [reflexivity|]. repeat split.
  - by rewrite length_insert.
  - apply Forall_insert; [done|]. by rewrite length_insert.
  - intros i' j' Hi' Hj'. unfold with_cell, cell, ndarray in *.
    destruct (decide (i' = i)) as [->|Hne].
    + rewrite list_lookup_insert_eq by lia.
      destruct (decide (j' = j)) as [->|Hne].
      * rewrite list_lookup_insert_eq by lia. by rewrite decide_True.
      * rewrite list_lookup_insert_ne by done.
        rewrite decide_False by tauto.
        specialize (H3 i j' Hi Hj'). unfold cell in H3. by rewrite Hrow in H3.
    + rewrite list_lookup_insert_ne by done.
      rewrite decide_False by tauto. by apply H3.
Qed.

Lemma has_cells_replicate n : has_cells (replicate n (replicate n PInf)) n (fun _ _ => PInf).
Proof.
  repeat split.
  - by rewrite length_replicate.
  - apply Forall_replicate. by rewrite length_replicate.
  - intros i j Hi Hj. unfold cell, ndarray.
    rewrite lookup_replicate_2 by done. by rewrite lookup_replicate_2.
Qed.

Lemma raw_cell D r c :
  square D -> r < length D -> c < length D -> cell D r c = Ok (raw D r c).
Proof.
  intros Hsq Hr Hc. unfold cell, raw, ndarray in *.
  destruct (lookup_lt_is_Some_2 D r) as [row Hrow]; [lia|].
  rewrite Hrow. simpl.
  pose proof (Forall_lookup_1 _ _ _ _ Hsq Hrow) as Hlen. simpl in Hlen.
  destruct (lookup_lt_is_Some_2 row c) as [v Hv]; [lia|]. by rewrite Hv.
Qed.

(** Equality of two cell functions that are defined by cases on the
    position. *)
Ltac cells :=
  intros; unfold with_cell; repeat case_decide;
  try done; try lia;
  repeat match goal with H : _ /\ _ |- _ => destruct H end;
  subst; try done; try lia; try (repeat f_equal; lia).

(** The loop that fills the index row. *)
Lemma label_row_loop c n k f :
  has_cells c n f -> 0 < n ->
  exists c',
    for_range 1 (n - 1) (fun i c => set_cell c 0 i (label_at k i)) c = Ok c'
    /\ has_cells c' n
         (fun i j => if decide (i = 0 /\ 1 <= j) then label_at k j else f i j).
Proof.
  intros Hc Hn.
  destruct (for_range_inv
    (fun y c => has_cells c n
       (fun i j => if decide (i = 0 /\ 1 <= j < y) then label_at k j else f i j))
    1 (n - 1) (fun i c => set_cell c 0 i (label_at k i)) c) as (c' & Hc' & HP).
  - eapply has_cells_ext; [|exact Hc]. cells.
  - intros y s Hy Hs.
    destruct (has_cells_set_cell s n _ 0 y (label_at k y) Hs) as (s' & Hs' & Hcells);
      [lia..|].
    exists s'. split; [done|]. eapply has_cells_ext; [|exact Hcells]. cells.
  - exists c'. split; [done|]. eapply has_cells_ext; [|exact HP]. cells.
Qed.

(** The loop that fills the index column. *)
Lemma label_column_loop c n k f :
  has_cells c n f -> 0 < n ->
  exists c',
    for_range 1 (n - 1) (fun i c => set_cell c i 0 (label_at k i)) c = Ok c'
    /\ has_cells c' n
         (fun i j => if decide (j = 0 /\ 1 <= i) then label_at k i else f i j).
Proof.
  intros Hc Hn.
  destruct (for_range_inv
    (fun y c => has_cells c n
       (fun i j => if decide (j = 0 /\ 1 <= i < y) then label_at k i else f i j))
    1 (n - 1) (fun i c => set_cell c i 0 (label_at k i)) c) as (c' & Hc' & HP).
  - eapply has_cells_ext; [|exact Hc]. cells.
  - intros y s Hy Hs.
    destruct (has_cells_set_cell s n _ y 0 (label_at k y) Hs) as (s' & Hs' & Hcells);
      [lia..|].
    exists s'. split; [done|]. eapply has_cells_ext; [|exact Hcells]. cells.
  - exists c'. split; [done|]. eapply has_cells_ext; [|exact HP]. cells.
Qed.

Section ConvertLoops.

Variable D : list (list fl).
Variable k n : nat.
Hypothesis Hsquare : square D.
Hypothesis Hsize : n = length D + k.
Hypothesis Hdepot : 0 < length D.

(** The loop that copies the depot row of [D] into the rows of the depot
    copies. *)
Lemma depot_columns_loop c f :
  has_cells c n f ->
  exists c',
    for_range 1 (k + 1 - 1)
      (fun i c =>
         len_i ← row_len c i;
         '(c, _) ← for_range (k + 1) (len_i - (k + 1))
           (fun j '(c, matrix_item) =>
              v ← cell D 0 matrix_item;
              c ← set_cell c i j v;
              Ok (c, matrix_item + 1))
           (c, 1);
         Ok c) c = Ok c'
    /\ has_cells c' n
         (fun i j => if decide (1 <= i <= k /\ k < j) then raw D 0 (j - k) else f i j).
Proof.
  intros Hc.
  match goal with
  | |- exists c', for_range ?lo ?len ?body ?s = _ /\ _ =>
      destruct (for_range_inv
        (fun x c => has_cells c n
           (fun i j => if decide (1 <= i < x /\ k < j) then raw D 0 (j - k) else f i j))
        lo len body s) as (c' & Hc' & HP)
  end.
  - eapply has_cells_ext; [|exact Hc]. cells.
  - intros x s Hx Hs. rewrite (has_cells_row_len s n _ x Hs) by lia. simpl.
    match goal with
    | |- exists s', (for_range ?lo ?len ?body ?s0 ≫= _) = _ /\ _ =>
        destruct (for_range_inv
          (fun y (st : ndarray * nat) =>
             st.2 = y - k
             /\ has_cells st.1 n
                  (fun i j => if decide (1 <= i < x /\ k < j \/ i = x /\ k < j < y)
                              then raw D 0 (j - k) else f i j))
          lo len body s0) as ([c2 item] & Hc2 & Hitem & Hcells)
    end.
    + split; [simpl; lia|]. eapply has_cells_ext; [|exact Hs]. cells.
    + intros y [c2 item] Hy [Hitem Hcells]. simpl in *. subst item.
      rewrite (raw_cell D 0 (y - k)) by (done || lia). simpl.
      destruct (has_cells_set_cell c2 n _ x y (raw D 0 (y - k)) Hcells)
        as (c3 & Hc3 & Hcells3); [lia..|].
      rewrite Hc3. simpl. eexists. split; [reflexivity|]. simpl.
      split; [lia|]. eapply has_cells_ext; [|exact Hcells3]. cells.
    + rewrite Hc2. simpl. exists c2. split; [done|]. simpl in Hcells.
      eapply has_cells_ext; [|exact Hcells]. cells.
  - exists c'. split; [done|]. eapply has_cells_ext; [|exact HP]. cells.
Qed.

(** The loop that copies the depot column of [D] into the columns of the
    depot copies. *)
Lemma depot_rows_loop c f :
  has_cells c n f ->
  exists c' i_var,
    for_range 1 (k + 1 - 1)
      (fun j '(c, i_var) =>
         len_i ← row_len c i_var;
         '(c, i_var, _) ← for_range (k + 1) (len_i - (k + 1))
           (fun i '(c, _, matrix_row) =>
              v ← cell D matrix_row 0;
              c ← set_cell c i j v;
              Ok (c, i, matrix_row + 1))
           (c, i_var, 1);
         Ok (c, i_var)) (c, k) = Ok (c', i_var)
    /\ has_cells c' n
         (fun i j => if decide (k < i /\ 1 <= j <= k) then raw D (i - k) 0 else f i j).
Proof.
  intros Hc.
  match goal with
  | |- exists c' i_var, for_range ?lo ?len ?body ?s = _ /\ _ =>
      destruct (for_range_inv
        (fun x (st : ndarray * nat) =>
           st.2 < n
           /\ has_cells st.1 n
                (fun i j => if decide (k < i /\ 1 <= j < x)
                            then raw D (i - k) 0 else f i j))
        lo len body s) as ([c' iv] & Hc' & Hiv & HP)
  end.
  - split; [simpl; lia|]. eapply has_cells_ext; [|exact Hc]. cells.
  - intros x [s iv] Hx [Hiv Hs]. simpl in *.
    rewrite (has_cells_row_len s n _ iv Hs) by lia. simpl.
    match goal with
    | |- exists s', (for_range ?lo ?len ?body ?s0 ≫= _) = _ /\ _ =>
        destruct (for_range_inv
          (fun y (st : ndarray * nat * nat) =>
             st.2 = y - k /\ st.1.2 < n
             /\ has_cells st.1.1 n
                  (fun i j => if decide (k < i /\ 1 <= j < x \/ j = x /\ k < i < y)
                              then raw D (i - k) 0 else f i j))
          lo len body s0) as ([[c2 iv2] row] & Hc2 & Hrow & Hiv2 & Hcells)
    end.
    + split; [simpl; lia|]. split; [done|].
      eapply has_cells_ext; [|exact Hs]. cells.
    + intros y [[c2 iv2] row] Hy (Hrow & Hiv2 & Hcells). simpl in *. subst row.
      rewrite (raw_cell D (y - k) 0) by (done || lia). simpl.
      destruct (has_cells_set_cell c2 n _ y x (raw D (y - k) 0) Hcells)
        as (c3 & Hc3 & Hcells3); [lia..|].
      rewrite Hc3. simpl. eexists. split; [reflexivity|]. simpl.
      split; [lia|]. split; [lia|]. eapply has_cells_ext; [|exact Hcells3]. cells.
    + rewrite Hc2. simpl. eexists. split; [reflexivity|]. simpl in *.
      split; [done|]. eapply has_cells_ext; [|exact Hcells]. cells.
  - exists c', iv. split; [done|]. simpl in HP.
    eapply has_cells_ext; [|exact HP]. cells.
Qed.

(** The loop that copies the distances between customers and clears the
    diagonal. *)
Lemma customers_loop c f :
  has_cells c n f ->
  exists c' matrix_row,
    for_range (k + 1) (n - (k + 1))
      (fun i '(c, matrix_row) =>
         len_i ← row_len c i;
         '(c, _) ← for_range (k + 1) (len_i - (k + 1))
           (fun j '(c, matrix_item) =>
              v ← cell D matrix_row matrix_item;
              c ← set_cell c i j v;
              c ← (if decide (i = j) then set_cell c i j PInf else Ok c);
              Ok (c, matrix_item + 1))
           (c, 1);
         Ok (c, matrix_row + 1)) (c, 1) = Ok (c', matrix_row)
    /\ has_cells c' n
         (fun i j => if decide (k < i /\ k < j)
                     then (if decide (i = j) then PInf else raw D (i - k) (j - k))
                     else f i j).
Proof.
  intros Hc.
  match goal with
  | |- exists c' mr, for_range ?lo ?len ?body ?s = _ /\ _ =>
      destruct (for_range_inv
        (fun x (st : ndarray * nat) =>
           st.2 = x - k
           /\ has_cells st.1 n
                (fun i j => if decide (k < i < x /\ k < j)
                            then (if decide (i = j) then PInf
                                  else raw D (i - k) (j - k))
                            else f i j))
        lo len body s) as ([c' r] & Hc' & Hr & HP)
  end.
  - split; [simpl; lia|]. eapply has_cells_ext; [|exact Hc]. cells.
  - intros x [s r] Hx [Hr Hs]. simpl in *. subst r.
    rewrite (has_cells_row_len s n _ x Hs) by lia. simpl.
    match goal with
    | |- exists s', (for_range ?lo ?len ?body ?s0 ≫= _) = _ /\ _ =>
        destruct (for_range_inv
          (fun y (st : ndarray * nat) =>
             st.2 = y - k
             /\ has_cells st.1 n
                  (fun i j => if decide (k < i < x /\ k < j \/ i = x /\ k < j < y)
                              then (if decide (i = j) then PInf
                                    else raw D (i - k) (j - k))
                              else f i j))
          lo len body s0) as ([c2 item] & Hc2 & Hitem & Hcells)
    end.
    + split; [simpl; lia|]. eapply has_cells_ext; [|exact Hs]. cells.
    + intros y [c2 item] Hy [Hitem Hcells]. simpl in *. subst item.
      rewrite (raw_cell D (x - k) (y - k)) by (done || lia). simpl.
      destruct (has_cells_set_cell c2 n _ x y (raw D (x - k) (y - k)) Hcells)
        as (c3 & Hc3 & Hcells3); [lia..|].
      rewrite Hc3. simpl. destruct (decide (x = y)) as [Hxy|Hxy].
      * destruct (has_cells_set_cell c3 n _ x y PInf Hcells3)
          as (c4 & Hc4 & Hcells4); [lia..|].
        rewrite Hc4. simpl. eexists. split; [reflexivity|]. simpl.
        split; [lia|]. eapply has_cells_ext; [|exact Hcells4]. cells.
      * simpl. eexists. split; [reflexivity|]. simpl.
        split; [lia|]. eapply has_cells_ext; [|exact Hcells3]. cells.
    + rewrite Hc2. simpl. eexists. split; [reflexivity|]. simpl in *.
      split; [lia|]. eapply has_cells_ext; [|exact Hcells]. cells.
  - exists c', r. split; [done|]. simpl in HP.
    eapply has_cells_ext; [|exact HP]. cells.
Qed.

End ConvertLoops.

(** [convert] returns the matrix whose cells are those of [augmented]. *)
Lemma convert_has_cells D k :
  square D -> 0 < length D ->
  exists M, convert D k = Ok M /\ has_cells M (length D + k) (augmented D k).
Proof.
  intros Hsq Hpos. unfold convert.
  set (n := length D + k).
  pose proof (has_cells_replicate n) as H0.
  rewrite (has_cells_row_len _ n _ 0 H0) by lia. simpl.
  destruct (label_row_loop _ n k _ H0) as (c1 & E1 & H1); [lia|].
  rewrite E1. simpl.
  replace (length c1) with n by (symmetry; apply H1).
  destruct (label_column_loop _ n k _ H1) as (c2 & E2 & H2); [lia|].
  rewrite E2. simpl.
  destruct (depot_columns_loop D k n Hsq eq_refl Hpos c2 _ H2) as (c3 & E3 & H3).
  rewrite E3. simpl.
  destruct (depot_rows_loop D k n Hsq eq_refl Hpos c3 _ H3) as (c4 & iv & E4 & H4).
  rewrite E4. simpl.
  replace (length c4) with n by (symmetry; apply H4).
  destruct (customers_loop D k n Hsq eq_refl Hpos c4 _ H4) as (c5 & r & E5 & H5).
  match goal with
  | |- exists M, mbind _ ?L = _ /\ _ =>
      replace L with (Ok (c5, r) : result (ndarray * nat)) by (symmetry; exact E5)
  end.
  exists c5. split; [done|].
  eapply has_cells_ext; [|exact H5].
  intros i j Hi Hj. unfold augmented. cells.
Qed.

(** C10.  For a square raw matrix [D] with a depot row and a fleet of [k]
    vehicles, [convert] returns a square matrix of size [len D + k] in
    which every cell between two depot copies is infinite, the rows and
    columns of the depot copies hold the depot row and the depot column
    of [D] against the customers, the cells between two distinct customers
    hold the entries of [D], and the diagonal is infinite.  The result
    depends on nothing but [D] and [k]: [convert] reads its two arguments
    and the variables that it creates, and is a function in the
    embedding. *)
Theorem convert_cells (D : list (list fl)) (k : nat) :
  square D -> 0 < length D ->
  exists M,
    convert D k = Ok M
    /\ length M = length D + k
    /\ Forall (fun row => length row = length D + k) M
    /\ (forall i j, 1 <= i <= k -> 1 <= j <= k -> cell M i j = Ok PInf)
    /\ (forall i j, 1 <= i <= k -> 1 <= j < length D ->
                    cell M i (k + j) = cell D 0 j)
    /\ (forall i j, 1 <= i < length D -> 1 <= j <= k ->
                    cell M (k + i) j = cell D i 0)
    /\ (forall i j, 1 <= i < length D -> 1 <= j < length D -> i <> j ->
                    cell M (k + i) (k + j) = cell D i j)
    /\ (forall i, 1 <= i < length D + k -> cell M i i = Ok PInf)
    /\ (forall i, 1 <= i < length D + k ->
                  cell M 0 i = Ok (label_at k i) /\ cell M i 0 = Ok (label_at k i)).
Proof.
  intros Hsq Hpos.
  destruct (convert_has_cells D k Hsq Hpos) as (M & HM & Hlen & Hrows & Hcell).
  exists M. split; [done|]. split; [done|]. split; [done|].
  repeat split.
  - intros i j Hi Hj. rewrite Hcell by lia. unfold augmented. cells.
  - intros i j Hi Hj. rewrite Hcell, raw_cell by (done || lia).
    unfold augmented. cells.
  - intros i j Hi Hj. rewrite Hcell, raw_cell by (done || lia).
    unfold augmented. cells.
  - intros i j Hi Hj Hij. rewrite Hcell, raw_cell by (done || lia).
    unfold augmented. cells.
  - intros i Hi. rewrite Hcell by lia. unfold augmented. cells.
  - rewrite Hcell by lia. unfold augmented. cells.
  - rewrite Hcell by lia. unfold augmented. cells.
Qed.

Lemma convert_cells_witness :
  exists M,
    convert (inst_distance_matrix instance_A) 2 = Ok M
    /\ length M = 4 + 2
    /\ Forall (fun row => length row = 4 + 2) M
    /\ (forall i j, 1 <= i <= 2 -> 1 <= j <= 2 -> cell M i j = Ok PInf)
    /\ (forall i j, 1 <= i <= 2 -> 1 <= j < 4 ->
                    cell M i (2 + j) = cell (inst_distance_matrix instance_A) 0 j)
    /\ (forall i j, 1 <= i < 4 -> 1 <= j <= 2 ->
                    cell M (2 + i) j = cell (inst_distance_matrix instance_A) i 0)
    /\ (forall i j, 1 <= i < 4 -> 1 <= j < 4 -> i <> j ->
                    cell M (2 + i) (2 + j) = cell (inst_distance_matrix instance_A) i j)
    /\ (forall i, 1 <= i < 4 + 2 -> cell M i i = Ok PInf)
    /\ (forall i, 1 <= i < 4 + 2 ->
                  cell M 0 i = Ok (label_at 2 i) /\ cell M i 0 = Ok (label_at 2 i)).
Proof.
  apply (convert_cells (inst_distance_matrix instance_A) 2).
  - repeat constructor.
  - simpl. lia.
Defined.

(** The augmented matrix of [instance_A] for a fleet of two vehicles. *)
Example convert_instance_A :
  convert (inst_distance_matrix instance_A) 2
  = Ok [[PInf; fz 1; fz 1; fz 2; fz 3; fz 4];
        [fz 1; PInf; PInf; fz 2; fz 3; fz 9];
        [fz 1; PInf; PInf; fz 2; fz 3; fz 9];
        [fz 2; fz 4; fz 4; PInf; fz 5; fz 1];
        [fz 3; fz 6; fz 6; fz 7; PInf; fz 2];
        [fz 4; fz 3; fz 3; fz 8; fz 2; PInf]].
Proof. vm_compute. reflexivity. Qed.

(** Without a depot row there is nothing to convert. *)
Example convert_empty : convert [] 1 = Err IndexError.
Proof. reflexivity. Qed.

(** * Further properties *)

(** ** The order of the floats *)

Lemma fle_trans a b c : fle a b = true -> fle b c = true -> fle a c = true.
Proof.
  destruct a, b, c; simpl; try done.
  rewrite !Qle_bool_iff. apply Qle_trans.
Qed.

Lemma flt_trans a b c : flt a b = true -> flt b c = true -> flt a c = true.
Proof.
  destruct a, b, c; simpl; try done.
  rewrite !negb_true_iff, <- !not_true_iff_false, !Qle_bool_iff. lra.
Qed.

(** ** The node that is popped *)

(** The scan of [pop_most_promising_solution]: the node that it holds is
    at the index that it holds, and no node seen so far has both a bound
    not above its bound and more included edges. *)
Lemma most_promising_from_undominated pool pre l best index :
  pool = pre ++ l ->
  pool !! index = Some best ->
  (forall t, t ∈ pre -> fle (lower_bound t) (lower_bound best) = true ->
             length (edges_True t) <= length (edges_True best)) ->
  let '(s, k) := most_promising_from (length pre) l best index in
  pool !! k = Some s
  /\ forall t, t ∈ pool -> fle (lower_bound t) (lower_bound s) = true ->
               length (edges_True t) <= length (edges_True s).
Proof.
  revert pre best index. induction l as [|x l IH]; intros pre best index Hpool Hidx Hpre.
  - simpl. rewrite app_nil_r in Hpool. subst pool. auto.
  - simpl.
    assert (Hpool' : pool = (pre ++ [x]) ++ l) by (by rewrite <- app_assoc).
    assert (Hx : pool !! length pre = Some x).
    { rewrite Hpool. by rewrite list_lookup_middle. }
    destruct (py_truth (is_more_promising best x)) eqn:E.
    + apply is_more_promising_true in E as [E1 E2].
      specialize (IH (pre ++ [x]) x (length pre) Hpool' Hx).
      rewrite length_app in IH. simpl in IH. rewrite Nat.add_1_r in IH.
      apply IH. intros t Ht Hle. apply elem_of_app in Ht as [Ht|Ht].
      * pose proof (Hpre t Ht (fle_trans _ _ _ Hle E1)). lia.
      * apply list_elem_of_singleton in Ht. by subst t.
    + specialize (IH (pre ++ [x]) best index Hpool' Hidx).
      rewrite length_app in IH. simpl in IH. rewrite Nat.add_1_r in IH.
      apply IH. intros t Ht Hle. apply elem_of_app in Ht as [Ht|Ht]; [by apply Hpre|].
      apply list_elem_of_singleton in Ht. subst t.
      destruct (decide (length (edges_True best) < length (edges_True x))) as [Hlt|]; [|lia].
      assert (py_truth (is_more_promising best x) = true)
        by (by apply is_more_promising_true).
      congruence.
Qed.

(** X1.  On a pool that is not empty [pop_most_promising_solution] raises
    nothing.  It returns a node of the pool and removes it from its
    position, and the node is not dominated: no node of the pool has a bound
    that is not above its bound together with more included edges. *)
Theorem pop_most_promising_undominated (e : BranchNBound) :
  partial_solutions e <> [] ->
  exists s index,
    partial_solutions e !! index = Some s
    /\ pop_most_promising_solution e
       = Ok (s, set_partial_solutions (delete index (partial_solutions e)) e)
    /\ forall t, t ∈ partial_solutions e ->
                 fle (lower_bound t) (lower_bound s) = true ->
                 length (edges_True t) <= length (edges_True s).
Proof.
  intros Hne. unfold pop_most_promising_solution.
  destruct (partial_solutions e) as [|first pool'] eqn:Epool; [done|]. simpl.
  pose proof (most_promising_from_undominated (first :: pool') [] (first :: pool')
                first 0 eq_refl eq_refl) as H.
  simpl in H.
  destruct (py_truth (is_more_promising first first)) eqn:E.
  { apply is_more_promising_true in E. lia. }
  destruct (most_promising_from 1 pool' first 0) as [s k] eqn:Es.
  destruct H as [Hk Hdom]; [intros t Ht; by apply elem_of_nil in Ht|].
  exists s, k. rewrite Hk. auto.
Qed.

Lemma pop_most_promising_undominated_witness :
  exists s index,
    [node_A3; node_narrow] !! index = Some s
    /\ pop_most_promising_solution (mkEngine [node_A3; node_narrow] None None 0 None)
       = Ok (s, mkEngine (delete index [node_A3; node_narrow]) None None 0 None)
    /\ forall t, t ∈ [node_A3; node_narrow] ->
                 fle (lower_bound t) (lower_bound s) = true ->
                 length (edges_True t) <= length (edges_True s).
Proof.
  apply (pop_most_promising_undominated (mkEngine [node_A3; node_narrow] None None 0 None)).
  discriminate.
Defined.

(** ** What a sweep does to the engine *)

Lemma incumbent_step_trans g pool e1 e2 e3 :
  incumbent_step g pool e1 e2 -> incumbent_step g pool e2 e3 ->
  incumbent_step g pool e1 e3.
Proof.
  intros [[H1 H2]|(s & v & ub & Hs & Hsol & Hf & Hv & Hub & Hlt & Hub' & Hbest)]
         [[K1 K2]|(s' & v' & ub' & Ks & Ksol & Kf & Kv & Kub & Klt & Kub' & Kbest)].
  - left. split; congruence.
  - right. exists s', v', ub'. repeat split; auto. congruence.
  - right. exists s, v, ub. repeat split; auto; congruence.
  - right. exists s', v', ub. repeat split; auto.
    assert (ub' = v) by congruence. subst ub'. by apply flt_trans with v.
Qed.

Lemma prune_loop_sweep g fuel idx e e' :
  prune_loop g fuel idx e = Ok e' ->
  sublist (partial_solutions e') (partial_solutions e)
  /\ times_branched e' = times_branched e
  /\ initial_upper_bound e' = initial_upper_bound e
  /\ incumbent_step g (partial_solutions e) e e'.
Proof.
  revert idx e. induction fuel as [|fuel IH]; intros idx e H; simpl in H.
  { destruct (partial_solutions e !! idx); [discriminate|]. injection H as <-.
    repeat split; auto. by left. }
  destruct (partial_solutions e !! idx) as [solution|] eqn:E;
    [|injection H as <-; repeat split; auto; by left].
  assert (Hin : solution ∈ partial_solutions e) by (by eapply list_elem_of_lookup_2).
  assert (Hrem : forall e1,
            partial_solutions e1 = partial_solutions e ->
            times_branched e1 = times_branched e ->
            initial_upper_bound e1 = initial_upper_bound e ->
            incumbent_step g (partial_solutions e) e e1 ->
            prune_loop g fuel (S idx)
              (set_partial_solutions (delete idx (partial_solutions e)) e1) = Ok e' ->
            sublist (partial_solutions e') (partial_solutions e)
            /\ times_branched e' = times_branched e
            /\ initial_upper_bound e' = initial_upper_bound e
            /\ incumbent_step g (partial_solutions e) e e').
  { intros e1 Hp Ht Hi Hinc H1. apply IH in H1 as (S1 & S2 & S3 & S4). simpl in *.
    split; [|split; [|split]]; try congruence.
    - etrans; [exact S1|]. apply sublist_delete.
    - eapply incumbent_step_trans; [exact Hinc|].
      destruct S4 as [S4|(s & v & ub & Hs & S4)]; [by left|].
      right. exists s, v, ub. split; [|exact S4].
      by eapply list_elem_of_delete_inv. }
  destruct (is_solved solution) eqn:Esol.
  - destruct (truthy (is_feasible solution)) eqn:Ef; simpl in H;
      [|apply (Hrem e); auto; by left].
    destruct (calculate_value g solution) as [v| |] eqn:Ev; simpl in H; try discriminate.
    destruct (the_upper_bound e) as [ub| |] eqn:Eub; simpl in H; try discriminate.
    unfold the_upper_bound in Eub.
    destruct (upper_bound e) as [ub0|] eqn:Eub0; [|discriminate]. injection Eub as ->.
    destruct (flt v ub) eqn:Elt; simpl in H; [|apply (Hrem e); auto; by left].
    apply (Hrem (set_incumbent v solution e)); auto.
    right. exists solution, v, ub. repeat split; auto.
  - destruct (the_upper_bound e) as [ub| |]; simpl in H; try discriminate.
    destruct (fge (lower_bound solution) ub); [apply (Hrem e); auto; by left|].
    destruct (is_False (is_feasible solution)); [apply (Hrem e); auto; by left|].
    by apply IH in H.
Qed.

(** X2.  A sweep that returns leaves of the pool a sublist (it adds no node
    and keeps the order), and leaves the counter alone.  The incumbent and
    the upper bound are the ones before, or the incumbent is a solved node
    of the pool that counts as feasible, and the upper bound is its value,
    which is below the upper bound before. *)
Theorem prune_sweep (np_getitem : ndarray -> fl -> fl -> option fl)
    (e e' : BranchNBound) :
  prune np_getitem e = Ok e' ->
  sublist (partial_solutions e') (partial_solutions e)
  /\ times_branched e' = times_branched e
  /\ initial_upper_bound e' = initial_upper_bound e
  /\ ((upper_bound e' = upper_bound e /\ current_best e' = current_best e)
      \/ exists s v ub,
           s ∈ partial_solutions e /\ is_solved s = true
           /\ truthy (is_feasible s) = true
           /\ calculate_value np_getitem s = Ok v
           /\ upper_bound e = Some ub /\ flt v ub = true
           /\ upper_bound e' = Some v /\ current_best e' = Some s).
Proof. intros H. by apply prune_loop_sweep in H. Qed.

Lemma prune_sweep_witness :
  exists e e',
    (e0 ← initialize new_engine instance_D (Some (fz 100));
     '(s, e1) ← pop_most_promising_solution e0;
     branch e1 s) = Ok e
    /\ prune getitem_trunc e = Ok e'
    /\ sublist (partial_solutions e') (partial_solutions e)
    /\ times_branched e' = times_branched e
    /\ initial_upper_bound e' = initial_upper_bound e
    /\ ((upper_bound e' = upper_bound e /\ current_best e' = current_best e)
        \/ exists s v ub,
             s ∈ partial_solutions e /\ is_solved s = true
             /\ truthy (is_feasible s) = true
             /\ calculate_value getitem_trunc s = Ok v
             /\ upper_bound e = Some ub /\ flt v ub = true
             /\ upper_bound e' = Some v /\ current_best e' = Some s).
Proof.
  eexists. eexists.
  split; [vm_compute; reflexivity|].
  split; [vm_compute; reflexivity|].
  apply (prune_sweep getitem_trunc). vm_compute. reflexivity.
Defined.

Lemma prune_loop_live g fuel idx e ub :
  upper_bound e = Some ub ->
  Forall (fun s => is_solved s = false
                   /\ fge (lower_bound s) ub = false
                   /\ is_False (is_feasible s) = false) (partial_solutions e) ->
  length (partial_solutions e) <= fuel + idx ->
  prune_loop g fuel idx e = Ok e.
Proof.
  intros Hub Hall. revert idx. induction fuel as [|fuel IH]; intros idx Hlen; simpl.
  - destruct (partial_solutions e !! idx) eqn:E; [|done].
    apply lookup_lt_Some in E. lia.
  - destruct (partial_solutions e !! idx) as [s|] eqn:E; [|done].
    rewrite Forall_forall in Hall.
    destruct (Hall s) as (H1 & H2 & H3); [by eapply list_elem_of_lookup_2|].
    rewrite H1. unfold the_upper_bound. rewrite Hub. simpl. rewrite H2, H3.
    apply IH. lia.
Qed.

(** X3.  A sweep changes nothing in an engine whose pool holds only nodes
    that are unsolved, have a bound that is not [>=] the upper bound, and
    whose [is_feasible] is not [False]. *)
Theorem prune_keeps_live_pool (np_getitem : ndarray -> fl -> fl -> option fl)
    (e : BranchNBound) (ub : fl) :
  upper_bound e = Some ub ->
  Forall (fun s => is_solved s = false
                   /\ fge (lower_bound s) ub = false
                   /\ is_False (is_feasible s) = false) (partial_solutions e) ->
  prune np_getitem e = Ok e.
Proof. intros Hub Hall. unfold prune. eapply prune_loop_live; eauto. lia. Qed.


Lemma prune_keeps_live_pool_witness :
  prune getitem_trunc (mkEngine [node_A3; node_narrow] (Some (fz 100)) None 0 None)
  = Ok (mkEngine [node_A3; node_narrow] (Some (fz 100)) None 0 None).
Proof.
  apply (prune_keeps_live_pool getitem_trunc _ (fz 100)).
  - reflexivity.
  - repeat constructor.
Defined.

(** ** Route construction *)

(** An insertion puts the edge between two parts of the route. *)
Lemma insert_in_route_splits e prev route route' :
  insert_in_route e prev route = Some route' ->
  exists l1 l2, route = l1 ++ l2 /\ route' = l1 ++ e :: l2.
Proof.
  revert prev route'. induction route as [|x rest IH]; intros prev route' H; simpl in H;
    [discriminate|].
  assert (Hrec : cons x <$> insert_in_route e (Some x) rest = Some route' ->
                 exists l1 l2, x :: rest = l1 ++ l2 /\ route' = l1 ++ e :: l2).
  { intros H'. destruct (insert_in_route e (Some x) rest) as [r|] eqn:E; simpl in H'; [|discriminate].
    injection H' as <-. destruct (IH _ _ E) as (l1 & l2 & -> & ->).
    by exists (x :: l1), l2. }
  unfold is_DEPOT in H. rewrite !andb_true_r in H.
  destruct (feq e.2 x.1).
  - destruct (match prev with None => true | Some pr => feq pr.2 e.1 end); [|by apply Hrec].
    injection H as <-. by exists [], (x :: rest).
  - destruct (feq x.2 e.1); [|by apply Hrec].
    destruct (match rest with [] => true | next :: _ => feq e.2 next.1 end);
      [|by apply Hrec].
    injection H as <-. by exists [x], rest.
Qed.

Lemma insert_in_route_chain e prev route route' :
  insert_in_route e prev route = Some route' ->
  chain_from prev route = true -> chain_from prev route' = true.
Proof.
  revert prev route'. induction route as [|x rest IH]; intros prev route' H Hc; simpl in H;
    [discriminate|].
  assert (Hrec : cons x <$> insert_in_route e (Some x) rest = Some route' ->
                 chain_from prev route' = true).
  { intros H'. destruct (insert_in_route e (Some x) rest) as [r|] eqn:E; simpl in H'; [|discriminate].
    injection H' as <-.
    assert (Hx : chain_from (Some x) rest = true).
    { destruct prev; simpl in Hc |- *; [apply andb_true_iff in Hc as [_ Hc]|]; exact Hc. }
    pose proof (IH _ _ E Hx) as Hr. simpl in Hr.
    destruct prev as [pr|]; simpl in Hc |- *; [|exact Hr].
    apply andb_true_iff in Hc as [Hc _]. by rewrite Hc. }
  unfold is_DEPOT in H. rewrite !andb_true_r in H.
  destruct (feq e.2 x.1) eqn:E1.
  - destruct prev as [pr|].
    + destruct (feq pr.2 e.1) eqn:E2; [|by apply Hrec].
      injection H as <-. simpl in Hc |- *.
      apply andb_true_iff in Hc as [_ Hc]. rewrite E2, E1. simpl. exact Hc.
    + injection H as <-. simpl in Hc |- *. rewrite E1. exact Hc.
  - destruct (feq x.2 e.1) eqn:E2; [|by apply Hrec].
    destruct rest as [|next rest'].
    + injection H as <-. destruct prev as [pr|]; simpl in Hc |- *.
      * rewrite andb_true_r in Hc. by rewrite Hc, E2.
      * by rewrite E2.
    + destruct (feq e.2 next.1) eqn:E3; [|by apply Hrec].
      injection H as <-. destruct prev as [pr|]; simpl in Hc |- *.
      * apply andb_true_iff in Hc as [Hc1 Hc]. apply andb_true_iff in Hc as [_ Hc].
        rewrite Hc1, E2, E3. simpl. exact Hc.
      * apply andb_true_iff in Hc as [_ Hc]. rewrite E2, E3. simpl. exact Hc.
Qed.

(** What one pass over the routes does to the edges that they hold, to
    their number and to their being chains. *)
Lemma insert_in_routes_spec e rs :
  let '(rs', inserted) := insert_in_routes e rs in
  (forall x, x ∈ concat rs' <-> x ∈ concat rs \/ (inserted = true /\ x = e))
  /\ (inserted = false -> rs' = rs)
  /\ length rs' = length rs
  /\ (Forall (fun r => r <> []) rs -> Forall (fun r => r <> []) rs')
  /\ (Forall (fun r => chain r = true) rs -> Forall (fun r => chain r = true) rs').
Proof.
  induction rs as [|r rs IH]; simpl.
  { repeat split; auto; try tauto. intros [H|[H _]]; [done|discriminate]. }
  destruct (insert_in_routes e rs) as [acc ins].
  destruct IH as (Hel & Hf & Hlen & Hne & Hch).
  destruct (insert_in_route e None r) as [r'|] eqn:E.
  - destruct (insert_in_route_splits _ _ _ _ E) as (l1 & l2 & -> & ->).
    split; [|split; [|split; [|split]]].
    + intros x. simpl. rewrite !elem_of_app, elem_of_cons, Hel. intuition.
    + discriminate.
    + simpl. by rewrite Hlen.
    + intros H. inversion H; subst. constructor; [by destruct l1|auto].
    + intros H. inversion H; subst. constructor; [|auto].
      by apply (insert_in_route_chain e None (l1 ++ l2)).
  - split; [|split; [|split; [|split]]].
    + intros x. simpl. rewrite !elem_of_app, Hel. tauto.
    + intros ->. by rewrite Hf.
    + simpl. by rewrite Hlen.
    + intros H. inversion H; subst. constructor; auto.
    + intros H. inversion H; subst. constructor; auto.
Qed.

Lemma concat_snoc (rs : list (list edge)) r x :
  x ∈ concat (rs ++ [r]) <-> x ∈ concat rs \/ x ∈ r.
Proof. rewrite concat_app, elem_of_app. simpl. by rewrite app_nil_r. Qed.

(** The loop of [construct_routes] raises nothing, and when it ends the
    routes hold the edges that they held and those of the queue. *)
Lemma construct_loop_spec fuel rs edges memo :
  match construct_loop fuel rs edges memo with
  | Ok out =>
      (forall x, x ∈ concat out <-> x ∈ concat rs \/ x ∈ edges)
      /\ length rs <= length out
      /\ (Forall (fun r => r <> []) rs -> Forall (fun r => r <> []) out)
      /\ (Forall (fun r => chain r = true) rs -> Forall (fun r => chain r = true) out)
  | Err _ => False
  | NoFuel => True
  end.
Proof.
  revert rs edges memo. induction fuel as [|fuel IH]; intros rs edges memo.
  { destruct edges; simpl; [|done].
    split; [intros x; rewrite elem_of_nil; tauto|auto]. }
  destruct edges as [|e edges]; simpl.
  { split; [intros x; rewrite elem_of_nil; tauto|auto]. }
  pose proof (insert_in_routes_spec e rs) as S.
  destruct (insert_in_routes e rs) as [rs' inserted].
  destruct S as (Hel & Hf & Hlen & Hne & Hch).
  assert (Hstep : forall rs2 edges2 memo2,
            (forall x, x ∈ concat rs2 \/ x ∈ edges2 <-> x ∈ concat rs \/ x ∈ e :: edges) ->
            length rs <= length rs2 ->
            (Forall (fun r => r <> []) rs -> Forall (fun r => r <> []) rs2) ->
            (Forall (fun r => chain r = true) rs -> Forall (fun r => chain r = true) rs2) ->
            match construct_loop fuel rs2 edges2 memo2 with
            | Ok out =>
                (forall x, x ∈ concat out <-> x ∈ concat rs \/ x ∈ e :: edges)
                /\ length rs <= length out
                /\ (Forall (fun r => r <> []) rs -> Forall (fun r => r <> []) out)
                /\ (Forall (fun r => chain r = true) rs
                    -> Forall (fun r => chain r = true) out)
            | Err _ => False
            | NoFuel => True
            end).
  { intros rs2 edges2 memo2 H1 H2 H3 H4. specialize (IH rs2 edges2 memo2).
    destruct (construct_loop fuel rs2 edges2 memo2) as [out| |]; auto.
    destruct IH as (I1 & I2 & I3 & I4). repeat split; auto; try lia.
    - intros Hx. apply H1. by apply I1.
    - intros Hx. apply I1. by apply H1. }
  destruct inserted.
  - apply Hstep; auto; [|lia]. intros x. rewrite Hel, elem_of_cons. intuition.
  - rewrite (Hf eq_refl) in *.
    destruct (memo_get memo e) as [n|].
    + destruct (decide (10 < n + 1)).
      * apply Hstep.
        -- intros x. rewrite concat_snoc, list_elem_of_singleton, elem_of_cons. tauto.
        -- rewrite length_app. lia.
        -- intros H. apply Forall_app. split; [done|]. by repeat constructor.
        -- intros H. apply Forall_app. split; [done|]. by repeat constructor.
      * apply Hstep; auto. intros x.
        rewrite elem_of_app, list_elem_of_singleton, elem_of_cons. tauto.
    + apply Hstep; auto. intros x.
      rewrite elem_of_app, list_elem_of_singleton, elem_of_cons. tauto.
Qed.

(** The routes that [construct_routes] builds hold the included edges,
    all of them and no other. *)
Lemma construct_routes_elements p p' :
  construct_routes p = Ok p' ->
  exists rs,
    p' = set_routes (Some rs) p
    /\ rs <> []
    /\ Forall (fun r => r <> []) rs
    /\ forall x, x ∈ concat rs <-> x ∈ edges_True p.
Proof.
  unfold construct_routes. intros H.
  assert (Hrev : forall x, x ∈ rev (edges_True p) <-> x ∈ edges_True p).
  { intros x. rewrite !list_elem_of_In. symmetry. apply in_rev. }
  destruct (rev (edges_True p)) as [|e edges]; [discriminate|].
  pose proof (construct_loop_spec (11 * length edges + 1) [[e]] edges []) as S.
  destruct (construct_loop (11 * length edges + 1) [[e]] edges []) as [out| |];
    simpl in H; try discriminate.
  injection H as <-. destruct S as (S1 & S2 & S3 & _). exists out. repeat split.
  - intros ->. simpl in S2. lia.
  - apply S3. by repeat constructor.
  - intros Hx. apply Hrev. apply S1 in Hx. simpl in Hx.
    rewrite elem_of_cons. destruct Hx as [Hx|Hx]; [|by right].
    left. by apply list_elem_of_singleton in Hx.
  - intros Hx. apply Hrev in Hx. apply S1. simpl.
    apply elem_of_cons in Hx as [->|Hx]; [left|by right].
    by apply list_elem_of_singleton.
Qed.

(** The loop of [construct_routes] raises nothing. *)
Lemma construct_routes_raises_on_empty_only p e :
  construct_routes p = Err e -> edges_True p = [] /\ e = IndexError.
Proof.
  unfold construct_routes. intros H.
  destruct (edges_True p) as [|e0 l0]; [simpl in H; by injection H as <-|].
  exfalso. destruct (rev (e0 :: l0)) as [|e1 edges] eqn:Er.
  { apply (f_equal length) in Er. rewrite length_rev in Er. discriminate. }
  pose proof (construct_loop_spec (11 * length edges + 1) [[e1]] edges []) as S.
  by destruct (construct_loop (11 * length edges + 1) [[e1]] edges []).
Qed.

(** X4.  [construct_routes] raises [IndexError] on a node without included
    edges.  On every other node it returns, changing [routes] only: the
    routes are not empty, none of them is empty, and the edges that they
    hold are the included edges, all of them and no other. *)
Theorem construct_routes_covers (p : BnBPartialSolution) :
  match edges_True p with
  | [] => construct_routes p = Err IndexError
  | _ :: _ =>
      exists rs,
        construct_routes p = Ok (set_routes (Some rs) p)
        /\ rs <> []
        /\ Forall (fun r => r <> []) rs
        /\ forall x, x ∈ concat rs <-> x ∈ edges_True p
  end.
Proof.
  destruct (edges_True p) as [|e0 l0] eqn:Ep.
  { unfold construct_routes. by rewrite Ep. }
  pose proof (terminates_construct_routes p) as Ht.
  destruct (construct_routes p) as [p'| |] eqn:E; [| |done].
  - apply construct_routes_elements in E as (rs & -> & H). exists rs.
    rewrite Ep in H. by split.
  - apply construct_routes_raises_on_empty_only in E as [E _]. congruence.
Qed.

(** X5.  In every route that [construct_routes] builds, each edge leads to
    the node where the next edge of the route starts. *)
Theorem construct_routes_chains (p p' : BnBPartialSolution) :
  construct_routes p = Ok p' ->
  exists rs, routes p' = Some rs /\ Forall (fun r => chain r = true) rs.
Proof.
  unfold construct_routes. intros H.
  destruct (rev (edges_True p)) as [|e edges]; [discriminate|].
  pose proof (construct_loop_spec (11 * length edges + 1) [[e]] edges []) as S.
  destruct (construct_loop (11 * length edges + 1) [[e]] edges []) as [out| |];
    simpl in H; try discriminate.
  injection H as <-. exists out. split; [done|].
  destruct S as (_ & _ & _ & S). apply S. by repeat constructor.
Qed.


Lemma construct_routes_chains_witness :
  exists p',
    construct_routes
      (set_edges_True [(fz 1, fz 2); (fz 2, fz 4); (fz 3, fz 1); (fz 4, fz 1)] node_A3)
    = Ok p'
    /\ exists rs, routes p' = Some rs /\ Forall (fun r => chain r = true) rs.
Proof.
  eexists. split; [vm_compute; reflexivity|].
  apply (construct_routes_chains
           (set_edges_True [(fz 1, fz 2); (fz 2, fz 4); (fz 3, fz 1); (fz 4, fz 1)] node_A3)).
  vm_compute. reflexivity.
Defined.

(** ** The nodes of a route *)

Lemma fl_in_app x l1 l2 : fl_in x (l1 ++ l2) = fl_in x l1 || fl_in x l2.
Proof. unfold fl_in. apply existsb_app. Qed.

Lemma fl_in_singleton x y : fl_in x [y] = feq x y.
Proof. unfold fl_in. simpl. apply orb_false_r. Qed.

Lemma no_repeat_snoc l x : fl_in x l = false -> no_repeat l = true -> no_repeat (l ++ [x]) = true.
Proof.
  induction l as [|y l IH]; simpl; [done|]. intros Hx Hl.
  apply orb_false_iff in Hx as [Hxy Hx]. apply andb_true_iff in Hl as [Hy Hl].
  rewrite fl_in_app, fl_in_singleton, feq_sym, Hxy, orb_false_r, Hy. simpl. by apply IH.
Qed.

Lemma fl_in_congr x y l : feq x y = true -> fl_in y l = true -> fl_in x l = true.
Proof.
  unfold fl_in. intros Hxy Hy. apply existsb_exists in Hy as (z & Hz & Hyz).
  apply existsb_exists. exists z. split; [done|]. by apply feq_trans with y.
Qed.

Lemma fold_left_pointwise {A B} (f g : A -> B -> A) l a :
  (forall a b, f a b = g a b) -> fold_left f l a = fold_left g l a.
Proof.
  intros H. revert a. induction l as [|b l IH]; intros a; simpl; [done|].
  by rewrite H, IH.
Qed.

Lemma route_edges_to_nodes_fold route :
  route_edges_to_nodes route = fold_left add_edge_nodes route [].
Proof.
  unfold route_edges_to_nodes. apply fold_left_pointwise. by intros acc [a b].
Qed.

Lemma add_edge_nodes_spec acc e :
  no_repeat acc = true ->
  no_repeat (add_edge_nodes acc e) = true
  /\ (forall x, fl_in x (add_edge_nodes acc e) = true <->
                fl_in x acc = true \/ feq x e.1 = true \/ feq x e.2 = true).
Proof.
  intros Hacc. unfold add_edge_nodes, is_DEPOT. rewrite orb_false_r.
  destruct (fl_in e.1 acc) eqn:E1; simpl.
  - destruct (fl_in e.2 acc) eqn:E2; simpl.
    + split; [done|]. intros x. split; [auto|].
      intros [H|[H|H]]; [done| |]; eapply fl_in_congr; eauto.
    + split; [by apply no_repeat_snoc|]. intros x.
      rewrite fl_in_app, fl_in_singleton, orb_true_iff. split; [tauto|].
      intros [H|[H|H]]; auto. left. eapply fl_in_congr; eauto.
  - destruct (fl_in e.2 (acc ++ [e.1])) eqn:E2; simpl.
    + split; [by apply no_repeat_snoc|]. intros x.
      rewrite fl_in_app, fl_in_singleton, orb_true_iff. split; [tauto|].
      intros [H|[H|H]]; auto.
      rewrite <- orb_true_iff, <- fl_in_singleton, <- fl_in_app.
      eapply fl_in_congr; eauto.
    + split; [apply no_repeat_snoc; [done|by apply no_repeat_snoc]|]. intros x.
      rewrite !fl_in_app, !fl_in_singleton, !orb_true_iff. tauto.
Qed.

Lemma fold_add_edge_nodes_spec route acc :
  no_repeat acc = true ->
  no_repeat (fold_left add_edge_nodes route acc) = true
  /\ (forall x, fl_in x (fold_left add_edge_nodes route acc) = true <->
                fl_in x acc = true
                \/ exists e, e ∈ route /\ (feq x e.1 = true \/ feq x e.2 = true)).
Proof.
  revert acc. induction route as [|e route IH]; intros acc Hacc; simpl.
  { split; [done|]. intros x. split; [auto|].
    intros [H|(e & He & _)]; [done|]. by apply elem_of_nil in He. }
  destruct (add_edge_nodes_spec acc e Hacc) as [H1 H2].
  destruct (IH _ H1) as [I1 I2]. split; [done|]. intros x. rewrite I2, H2. split.
  - intros [[H|H]|(e' & He' & H)]; auto.
    + right. exists e. split; [apply elem_of_cons; by left|done].
    + right. exists e'. split; [apply elem_of_cons; by right|done].
  - intros [H|(e' & He' & H)]; auto.
    apply elem_of_cons in He' as [->|He']; auto.
    right. by exists e'.
Qed.

(** X6.  The node list that [routes_edges_to_nodes] makes of a route holds
    no node twice: a node [==] to one that is already listed is not added,
    the depot included, since the test [exit is DEPOT] never holds.  The
    nodes listed are the ends of the edges of the route. *)
Theorem route_nodes_listed_once (route : list edge) :
  no_repeat (route_edges_to_nodes route) = true
  /\ forall x, fl_in x (route_edges_to_nodes route) = true <->
               exists e, e ∈ route /\ (feq x e.1 = true \/ feq x e.2 = true).
Proof.
  rewrite route_edges_to_nodes_fold.
  destruct (fold_add_edge_nodes_spec route [] eq_refl) as [H1 H2].
  split; [done|]. intros x. rewrite H2. simpl. intuition discriminate.
Qed.


(** ** The capacity check *)

Lemma load_of_snoc p nodes x :
  load_of p (nodes ++ [x]) = (load_of p nodes + demand_of p x)%Q.
Proof. unfold load_of. by rewrite fold_left_app. Qed.

(** The inner loop from the nodes [done_] on: [f] becomes [False] when
    some prefix that ends in the rest is overloaded, and stays what it is
    otherwise. *)
Lemma load_loop_spec p done_ rest f load' f' :
  fold_result (fun node_id '(load, f) =>
                 id ← py_int node_id;
                 demand ← match network p id with
                          | Some d => Ok d
                          | None => Err KeyError
                          end;
                 let load := (load + demand)%Q in
                 if negb (Qle_bool load (capacity p)) then Ok (load, FFalse)
                 else Ok (load, f)) rest (load_of p done_, f) = Ok (load', f') ->
  load' = load_of p (done_ ++ rest)
  /\ ((exists k, length done_ < k <= length (done_ ++ rest)
                 /\ Qle_bool (load_of p (take k (done_ ++ rest))) (capacity p) = false)
      /\ f' = FFalse
      \/ (forall k, length done_ < k <= length (done_ ++ rest) ->
                    Qle_bool (load_of p (take k (done_ ++ rest))) (capacity p) = true)
         /\ f' = f).
Proof.
  revert done_ f. induction rest as [|x rest IH]; intros done_ f H; simpl in H.
  { injection H as <- <-. rewrite app_nil_r. split; [done|]. right. split; [|done].
    intros k Hk. lia. }
  destruct (py_int x) as [id| |] eqn:Eid; simpl in H; try discriminate.
  destruct (network p id) as [d|] eqn:Ed; simpl in H; try discriminate.
  assert (Hload : (load_of p done_ + d)%Q = load_of p (done_ ++ [x])).
  { rewrite load_of_snoc. unfold demand_of. by rewrite Eid, Ed. }
  rewrite Hload in H.
  assert (Happ : done_ ++ x :: rest = (done_ ++ [x]) ++ rest) by (by rewrite <- app_assoc).
  assert (Hlen : length (done_ ++ [x]) = S (length done_))
    by (rewrite length_app; simpl; lia).
  assert (Htake : take (S (length done_)) (done_ ++ x :: rest) = done_ ++ [x]).
  { rewrite Happ, <- Hlen. by rewrite take_app_length. }
  assert (Hlong : S (length done_) <= length (done_ ++ x :: rest)).
  { rewrite length_app. simpl. lia. }
  destruct (Qle_bool (load_of p (done_ ++ [x])) (capacity p)) eqn:Ecap; simpl in H.
  - apply IH in H as [H1 H2]. rewrite <- Happ in *. split; [done|].
    rewrite Hlen in H2. destruct H2 as [[(k & Hk & Hov) ->]|[Hall ->]].
    + left. split; [|done]. exists k. split; [lia|done].
    + right. split; [|done]. intros k Hk.
      destruct (decide (k = S (length done_))) as [->|]; [by rewrite Htake|].
      apply Hall. lia.
  - apply IH in H as [H1 H2]. rewrite <- Happ in *. split; [done|].
    left. split.
    + exists (S (length done_)). split; [lia|]. by rewrite Htake.
    + by destruct H2 as [[_ ->]|[_ ->]].
Qed.

Lemma load_route_spec p route f f' :
  load_route p route f = Ok f' ->
  (overloaded p route /\ f' = FFalse) \/ (~ overloaded p route /\ f' = f).
Proof.
  unfold load_route. intros H.
  destruct (fold_result _ route (0%Q, f)) as [[load' f0]| |] eqn:E; simpl in H;
    try discriminate.
  injection H as ->.
  apply (load_loop_spec p [] route f) in E as [_ E]. simpl in E.
  destruct E as [[(k & Hk & Hov) ->]|[Hall ->]].
  - left. split; [|done]. exists k. split; [lia|done].
  - right. split; [|done]. intros (k & Hk & Hov). rewrite Hall in Hov; [done|lia].
Qed.

Lemma fold_load_route_spec p rs f f' :
  fold_result (load_route p) rs f = Ok f' ->
  (Exists (overloaded p) rs /\ f' = FFalse) \/ (~ Exists (overloaded p) rs /\ f' = f).
Proof.
  revert f. induction rs as [|r rs IH]; intros f H; simpl in H.
  { injection H as <-. right. split; [|done]. by intros H%Exists_nil. }
  destruct (load_route p r f) as [f1| |] eqn:E; simpl in H; try discriminate.
  apply load_route_spec in E. apply IH in H.
  destruct H as [[Hex ->]|[Hno ->]].
  - left. split; [by apply Exists_cons_tl|done].
  - destruct E as [[Hov ->]|[Hnov ->]].
    + left. split; [by apply Exists_cons_hd|done].
    + right. split; [|done]. intros [H|H]%Exists_cons; auto.
Qed.

(** X7.  [set_is_feasible] changes the attribute [is_feasible] only, and
    only to [False]: it does so exactly when, in the node list of some
    route, the demands of a prefix that is not empty add up to more than the
    capacity.  It never sets the attribute back to [True]. *)
Theorem set_is_feasible_checks_prefixes (p p' : BnBPartialSolution) :
  set_is_feasible p = Ok p' ->
  exists rs,
    routes p = Some rs
    /\ (Exists (overloaded p) (map route_edges_to_nodes rs)
        /\ p' = set_is_feasible_attr FFalse p
        \/ ~ Exists (overloaded p) (map route_edges_to_nodes rs) /\ p' = p).
Proof.
  unfold set_is_feasible, routes_edges_to_nodes. intros H.
  destruct (routes p) as [rs|] eqn:Er; simpl in H; [|discriminate].
  exists rs. split; [done|].
  destruct (fold_result (load_route p) _ (is_feasible p)) as [f| |] eqn:E; simpl in H;
    try discriminate.
  injection H as <-. apply fold_load_route_spec in E as [[Hex ->]|[Hno ->]].
  - by left.
  - right. split; [done|]. by destruct p.
Qed.


Lemma set_is_feasible_checks_prefixes_witness :
  exists p',
    set_is_feasible
      (set_routes (Some [[(fz 1, fz 2); (fz 2, fz 4); (fz 4, fz 3)]]) node_A3) = Ok p'
    /\ exists rs,
         routes (set_routes (Some [[(fz 1, fz 2); (fz 2, fz 4); (fz 4, fz 3)]]) node_A3)
         = Some rs
         /\ (Exists (overloaded
                       (set_routes (Some [[(fz 1, fz 2); (fz 2, fz 4); (fz 4, fz 3)]])
                          node_A3))
                    (map route_edges_to_nodes rs)
             /\ p' = set_is_feasible_attr FFalse
                       (set_routes (Some [[(fz 1, fz 2); (fz 2, fz 4); (fz 4, fz 3)]])
                          node_A3)
             \/ ~ Exists (overloaded
                            (set_routes (Some [[(fz 1, fz 2); (fz 2, fz 4); (fz 4, fz 3)]])
                               node_A3))
                         (map route_edges_to_nodes rs)
                /\ p' = set_routes (Some [[(fz 1, fz 2); (fz 2, fz 4); (fz 4, fz 3)]])
                          node_A3).
Proof.
  eexists. split; [vm_compute; reflexivity|].
  apply (set_is_feasible_checks_prefixes
           (set_routes (Some [[(fz 1, fz 2); (fz 2, fz 4); (fz 4, fz 3)]]) node_A3)).
  vm_compute. reflexivity.
Defined.

(** ** Looking up the labels of an edge *)

Lemma find_index_Some {A} (f : A -> bool) l i :
  find_index f l = Some i <->
  (exists x, l !! i = Some x /\ f x = true)
  /\ forall k y, k < i -> l !! k = Some y -> f y = false.
Proof.
  revert i. induction l as [|a l IH]; intros i; simpl.
  { split; [discriminate|]. by intros [(x & Hx & _) _]. }
  destruct (f a) eqn:Ea.
  - split.
    + intros [= <-]. split; [by exists a|]. intros k y Hk. lia.
    + intros [(x & Hx & Hfx) Hfirst]. destruct i as [|i]; [done|].
      specialize (Hfirst 0 a). simpl in Hfirst. rewrite Hfirst in Ea; [done|lia|done].
  - destruct (find_index f l) as [k|]; simpl.
    + split.
      * intros [= <-]. destruct (proj1 (IH k) eq_refl) as [Hx Hfirst]. split; [done|].
        intros [|k'] y Hk' Hy; simpl in Hy; [congruence|]. apply (Hfirst k'); [lia|done].
      * intros [(x & Hx & Hfx) Hfirst]. destruct i as [|i]; simpl in Hx; [congruence|].
        assert (Some k = Some i) as [= ->]; [|done].
        apply IH. split; [by exists x|].
        intros k' y Hk' Hy. apply (Hfirst (S k')); [lia|done].
    + split; [discriminate|].
      intros [(x & Hx & Hfx) Hfirst]. destruct i as [|i]; simpl in Hx; [congruence|].
      assert (@None nat = Some i); [|congruence].
      apply IH. split; [by exists x|].
      intros k' y Hk' Hy. apply (Hfirst (S k')); [lia|done].
Qed.

Lemma column_Ok m j col :
  column m j = Ok col <-> Forall2 (fun row v => row !! j = Some v) m col.
Proof.
  unfold column. revert col. induction m as [|row m IH]; intros col; simpl.
  { split; [intros [= <-]; constructor|intros H; by inversion H]. }
  destruct (row !! j) as [v|] eqn:Ev; simpl.
  - destruct (map_result _ m) as [vs| |] eqn:Em; simpl.
    + split.
      * intros [= <-]. constructor; [done|]. by apply IH.
      * intros H. inversion H; subst. f_equal. f_equal; [congruence|].
        assert (Ok vs = Ok l') as [= ->]; [|done]. by apply IH.
    + split; [discriminate|]. intros H. inversion H; subst.
      assert (Err e = Ok l') by (by apply IH). discriminate.
    + split; [discriminate|]. intros H. inversion H; subst.
      assert (@NoFuel (list fl) = Ok l') by (by apply IH). discriminate.
  - split; [discriminate|]. intros H. inversion H; subst. congruence.
Qed.

Lemma column_lookup m j col :
  column m j = Ok col -> forall i, col !! i = (row ← m !! i; row !! j).
Proof.
  rewrite column_Ok. intros F. induction F as [|row v m col Hv F IH]; intros [|i];
    simpl; auto.
Qed.

Lemma cell_lookup m i j : cell m i j = match (row ← m !! i; row !! j) with
                                       | Some v => Ok v
                                       | None => Err IndexError
                                       end.
Proof. unfold cell. destruct (m !! i) as [row|]; simpl; [|done]. by destruct (row !! j). Qed.

Lemma cell_Ok m i j x : cell m i j = Ok x <-> (row ← m !! i; row !! j) = Some x.
Proof.
  rewrite cell_lookup. destruct (m !! i ≫= _); split; intros H; try discriminate; congruence.
Qed.

(** X8.  [edge_to_real_indexes] returns the first row whose label is [==] to
    the first end of the edge and the first column whose label is [==] to
    the second end; it returns exactly when every row of the matrix has a
    label and both labels are found. *)
Theorem edge_to_real_indexes_first_match (m : ndarray) (r c : fl) (i j : nat) :
  edge_to_real_indexes_matrix m (r, c) = Ok (i, j) <->
  Forall (fun row => row <> []) m
  /\ (exists x, cell m i 0 = Ok x /\ feq r x = true)
  /\ (forall k y, k < i -> cell m k 0 = Ok y -> feq r y = false)
  /\ (exists x, cell m 0 j = Ok x /\ feq c x = true)
  /\ (forall k y, k < j -> cell m 0 k = Ok y -> feq c y = false).
Proof.
  unfold edge_to_real_indexes_matrix. split.
  - intros H. destruct (column m 0) as [col0| |] eqn:Ec; simpl in H; try discriminate.
    destruct (m !! 0) as [row0|] eqn:E0; simpl in H; [|discriminate].
    destruct (find_index _ col0) as [i'|] eqn:Ei; [|discriminate].
    destruct (find_index _ row0) as [j'|] eqn:Ej; [|discriminate].
    injection H as -> ->.
    apply find_index_Some in Ei as [(x & Hx & Hfx) Hi].
    apply find_index_Some in Ej as [(y & Hy & Hfy) Hj].
    pose proof (column_lookup m 0 col0 Ec) as Hcol.
    split; [|split; [|split; [|split]]].
    + apply column_Ok in Ec. clear -Ec. induction Ec as [|row v m col Hv F IH];
        constructor; auto. by destruct row.
    + exists x. split; [|done]. apply cell_Ok. by rewrite <- Hcol.
    + intros k z Hk Hz. apply (Hi k); [done|]. rewrite Hcol. by apply cell_Ok.
    + exists y. split; [|done]. apply cell_Ok. by rewrite E0.
    + intros k z Hk Hz. apply (Hj k); [done|]. apply cell_Ok in Hz. by rewrite E0 in Hz.
  - intros (Hne & (x & Hx & Hfx) & Hi & (y & Hy & Hfy) & Hj).
    assert (exists col0, column m 0 = Ok col0) as [col0 Ec].
    { clear -Hne. induction Hne as [|row m Hrow F [col IH]].
      - by exists [].
      - destruct row as [|v row]; [done|]. exists (v :: col).
        unfold column in *. simpl. by rewrite IH. }
    rewrite Ec. simpl.
    pose proof (column_lookup m 0 col0 Ec) as Hcol.
    apply cell_Ok in Hy. destruct (m !! 0) as [row0|] eqn:E0; [|done]. simpl in Hy.
    simpl.
    assert (Ei : find_index (fun row_index => feq r row_index) col0 = Some i).
    { apply find_index_Some. split.
      - exists x. split; [|done]. rewrite Hcol. by apply cell_Ok.
      - intros k z Hk Hz. apply (Hi k); [done|]. apply cell_Ok. by rewrite <- Hcol. }
    assert (Ej : find_index (fun col_index => feq c col_index) row0 = Some j).
    { apply find_index_Some. split; [by exists y|].
      intros k z Hk Hz. apply (Hj k); [done|]. apply cell_Ok. by rewrite E0. }
    by rewrite Ei, Ej.
Qed.


(** ** What the reduction leaves alone *)

Lemma map_result_length {A B} (f : A -> result B) l ys :
  map_result f l = Ok ys -> length ys = length l.
Proof. intros H. apply map_result_Forall2 in H. symmetry. by eapply Forall2_length. Qed.

(** The parts of [bound_matrix]: the row minimums, the column minimums
    of the matrix after the rows are reduced, and the two subtractions. *)
Lemma bound_matrix_parts m m' c :
  bound_matrix m = Ok (m', c) ->
  exists labels rows rmins cmins,
    m = labels :: rows
    /\ map_result np_min (map (drop 1) rows) = Ok rmins
    /\ length rmins = length rows
    /\ min_axis0 (data_of (sub_rows m rmins)) = Ok cmins
    /\ m' = sub_cols (sub_rows m rmins) cmins
    /\ c = fadd (py_sum rmins) (py_sum cmins).
Proof.
  unfold bound_matrix, min_axis1. intros H.
  destruct (map_result np_min (data_of m)) as [rmins| |] eqn:Er; simpl in H; try discriminate.
  destruct (min_axis0 (data_of (sub_rows m rmins))) as [cmins| |] eqn:Ec; simpl in H;
    try discriminate.
  injection H as <- <-.
  destruct m as [|labels rows].
  { simpl in Er. injection Er as <-. discriminate. }
  exists labels, rows, rmins, cmins. unfold data_of in Er. simpl in Er.
  repeat split; auto. apply map_result_length in Er. by rewrite length_map in Er.
Qed.

Lemma min_axis0_length d cmins nc :
  Forall (fun row => length row = nc) d -> min_axis0 d = Ok cmins -> length cmins = nc.
Proof.
  unfold min_axis0. intros Hd H. destruct d as [|r d]; [discriminate|].
  apply map_result_length in H. rewrite H. by apply columns_length.
Qed.

Lemma bound_matrix_shape m m' c :
  bound_matrix m = Ok (m', c) ->
  length m' = length m
  /\ m' !! 0 = m !! 0
  /\ Forall2 (fun row row' => head row' = head row) m m'
  /\ forall w, Forall (fun row => length row = w) m -> Forall (fun row => length row = w) m'.
Proof.
  intros H. destruct (bound_matrix_parts _ _ _ H)
    as (labels & rows & rmins & cmins & -> & Hr & Hlen & Hc & -> & _).
  simpl. split; [|split; [done|split]].
  - rewrite length_map, length_zip_with. lia.
  - constructor; [done|]. clear Hr Hc H. revert rmins Hlen.
    induction rows as [|row rows IH]; intros [|rm rmins] Hlen; simpl in *; try lia;
      constructor; [by destruct row|]. apply IH. lia.
  - intros w Hw. inversion Hw as [|? ? Hl Hrows]; subst. constructor; [done|].
    assert (Hd : Forall (fun row => length row = length labels - 1)
                   (data_of (sub_rows (labels :: rows) rmins))).
    { rewrite data_of_sub_rows. unfold data_of. simpl.
      apply row_reduced_shape; [|by rewrite length_map].
      apply Forall_fmap. eapply Forall_impl; [exact Hrows|]. simpl. intros row Hrow.
      rewrite length_drop. lia. }
    pose proof (min_axis0_length _ _ _ Hd Hc) as Hcl.
    clear Hr Hc H Hd Hw. revert rmins Hlen.
    induction Hrows as [|row rows Hrow Hrows IH]; intros [|rm rmins] Hlen; simpl in *; try lia.
    { constructor. }
    constructor; [|apply IH; lia].
    destruct row as [|l xs]; simpl in *; [done|].
    rewrite length_zip_with, length_map. lia.
Qed.

(** X9.  [bound] leaves the labels where they are: the matrix keeps its
    number of rows, its row 0 and the first entry of every row, and a
    rectangular matrix keeps its width.  [edge_to_real_indexes] finds in the
    reduced matrix what it finds in the matrix before. *)
Theorem bound_keeps_labels (m m' : ndarray) (c : fl) :
  bound_matrix m = Ok (m', c) ->
  length m' = length m
  /\ m' !! 0 = m !! 0
  /\ column m' 0 = column m 0
  /\ (forall w, Forall (fun row => length row = w) m ->
                Forall (fun row => length row = w) m')
  /\ forall e, edge_to_real_indexes_matrix m' e = edge_to_real_indexes_matrix m e.
Proof.
  intros H. destruct (bound_matrix_shape _ _ _ H) as (H1 & H2 & H3 & H4).
  assert (Hcol : column m' 0 = column m 0).
  { clear -H3. unfold column. induction H3 as [|row row' m m' Hh F IH]; simpl; [done|].
    rewrite IH. destruct row, row'; simpl in *; try congruence.
    by injection Hh as ->. }
  repeat split; auto.
  intros [r c']. unfold edge_to_real_indexes_matrix. by rewrite Hcol, H2.
Qed.


Lemma bound_keeps_labels_witness :
  exists m' c,
    bound_matrix matrix_inf_column = Ok (m', c)
    /\ length m' = length matrix_inf_column
    /\ m' !! 0 = matrix_inf_column !! 0
    /\ column m' 0 = column matrix_inf_column 0
    /\ (forall w, Forall (fun row => length row = w) matrix_inf_column ->
                  Forall (fun row => length row = w) m')
    /\ forall e, edge_to_real_indexes_matrix m' e
                 = edge_to_real_indexes_matrix matrix_inf_column e.
Proof.
  eexists. eexists. split; [vm_compute; reflexivity|].
  eapply (bound_keeps_labels matrix_inf_column). vm_compute. reflexivity.
Defined.

(** ** The two transitions, step by step *)

Lemma edge_to_real_indexes_in_range m e i j :
  edge_to_real_indexes_matrix m e = Ok (i, j) ->
  i < length m /\ exists row0, m !! 0 = Some row0 /\ j < length row0.
Proof.
  destruct e as [r c]. unfold edge_to_real_indexes_matrix. intros H.
  destruct (column m 0) as [col0| |] eqn:Ec; simpl in H; try discriminate.
  destruct (m !! 0) as [row0|] eqn:E0; simpl in H; [|discriminate].
  destruct (find_index _ col0) as [i'|] eqn:Ei; [|discriminate].
  destruct (find_index _ row0) as [j'|] eqn:Ej; [|discriminate].
  injection H as -> ->.
  apply find_index_Some in Ei as [(x & Hx & _) _].
  apply find_index_Some in Ej as [(y & Hy & _) _].
  apply lookup_lt_Some in Hx, Hy. split; [|by exists row0].
  apply column_Ok, Forall2_length in Ec. unfold ndarray in *. lia.
Qed.

Lemma length_delete_lt {A} (l : list A) i :
  i < length l -> S (length (delete i l)) = length l.
Proof.
  intros Hi. destruct (lookup_lt_is_Some_2 _ _ Hi) as [x Hx].
  pose proof (length_delete l i (mk_is_Some _ _ Hx)). lia.
Qed.

Lemma set_cell_shape m i j v m' :
  set_cell m i j v = Ok m' ->
  length m' = length m
  /\ forall w, Forall (fun row => length row = w) m -> Forall (fun row => length row = w) m'.
Proof.
  unfold set_cell, ndarray in *. intros H.
  destruct (m !! i) as [row|] eqn:E; [|discriminate].
  destruct (decide (j < length row)); [|discriminate]. injection H as <-.
  split; [by rewrite length_insert|]. intros w Hw.
  apply Forall_insert; [done|]. rewrite length_insert.
  rewrite Forall_forall in Hw. apply Hw. by eapply list_elem_of_lookup_2.
Qed.

Lemma forbid_closing_shape route m m' :
  forbid_closing route m = Ok m' ->
  length m' = length m
  /\ forall w, Forall (fun row => length row = w) m -> Forall (fun row => length row = w) m'.
Proof.
  unfold forbid_closing. intros H.
  destruct (last route); [|discriminate]. destruct (head route); [|discriminate].
  destruct (edge_to_real_indexes_matrix m _) as [[i j]|[]|]; try discriminate.
  - by apply set_cell_shape in H.
  - by injection H as <-.
Qed.

Lemma fold_forbid_closing_shape rs m m' :
  fold_result forbid_closing rs m = Ok m' ->
  length m' = length m
  /\ forall w, Forall (fun row => length row = w) m -> Forall (fun row => length row = w) m'.
Proof.
  revert m. induction rs as [|r rs IH]; intros m H; simpl in H.
  { by injection H as <-. }
  destruct (forbid_closing r m) as [m1| |] eqn:E; simpl in H; try discriminate.
  apply forbid_closing_shape in E as [E1 E2]. apply IH in H as [H1 H2].
  split; [congruence|]. auto.
Qed.

(** [solve_leaf] adds two edges that start at the labels of the two data
    rows, and changes nothing else but [solved]. *)
Lemma solve_leaf_edges p p' :
  solve_leaf p = Ok p' ->
  exists e1 e2,
    p' = set_solved true (set_edges_True (edges_True p ++ [e1; e2]) p)
    /\ cell (distance_matrix p) 1 0 = Ok e1.1
    /\ cell (distance_matrix p) 2 0 = Ok e2.1.
Proof.
  unfold solve_leaf. intros H.
  destruct (cell (distance_matrix p) 1 0) as [r1| |]; simpl in H; try discriminate.
  destruct (cell (distance_matrix p) 1 1) as [c11| |]; simpl in H; try discriminate.
  match type of H with
  | (mbind _ ?m = _) => destruct m as [col1| |]; simpl in H; try discriminate
  end.
  destruct (cell (distance_matrix p) 2 0) as [r2| |]; simpl in H; try discriminate.
  destruct (cell (distance_matrix p) 2 1) as [c21| |]; simpl in H; try discriminate.
  match type of H with
  | (mbind _ ?m = _) => destruct m as [col2| |]; simpl in H; try discriminate
  end.
  injection H as <-. by exists (r1, col1), (r2, col2).
Qed.

(** What the left transition does past its guard.  With two data rows
    left the node is a leaf: it is solved, its routes are built and its
    bound stays.  Otherwise the routes are built, the closing cells are
    forbidden and the matrix is reduced. *)
Lemma with_edge_branch_steps p e p' :
  edge_in e (edges_True p) = false ->
  with_edge_branch p e = Ok p' ->
  exists i j,
    edge_to_real_indexes_matrix (distance_matrix p) e = Ok (i, j)
    /\ let m1 := map (delete j) (delete i (distance_matrix p)) in
       (length m1 = 3
        /\ exists e1 e2 rs f,
             p' = set_is_feasible_attr f
                    (set_routes (Some rs)
                       (set_solved true
                          (set_edges_True (edges_True p ++ [e; e1; e2])
                             (set_distance_matrix m1 p)))))
       \/ (3 < length m1
           /\ exists rs m2 m3 c f,
                fold_result forbid_closing (map route_edges_to_nodes rs) m1 = Ok m2
                /\ bound_matrix m2 = Ok (m3, c)
                /\ p' = set_is_feasible_attr f
                          (set_lower_bound (fadd (lower_bound p) c)
                             (set_distance_matrix m3
                                (set_routes (Some rs)
                                   (set_edges_True (edges_True p ++ [e]) p))))).
Proof.
  intros Hg H. unfold with_edge_branch in H. rewrite Hg in H.
  unfold edge_to_real_indexes in H. simpl in H.
  destruct (edge_to_real_indexes_matrix (distance_matrix p) e) as [[i j]| |] eqn:Eij;
    simpl in H; try discriminate.
  exists i, j. split; [done|]. simpl.
  set (m1 := map (delete j) (delete i (distance_matrix p))) in *.
  unfold is_leaf in H. simpl in H.
  destruct (decide (length m1 = 3)) as [Hl|Hl]; simpl in H.
  - left. split; [done|].
    destruct (solve_leaf _) as [p1| |] eqn:E1; simpl in H; try discriminate.
    pose proof (solve_leaf_solved _ _ E1) as Hs. rewrite Hs in H.
    apply solve_leaf_edges in E1 as (e1 & e2 & -> & _). simpl in H.
    destruct (construct_routes _) as [p2| |] eqn:E2; simpl in H; try discriminate.
    apply construct_routes_frame in E2 as [rs ->].
    apply set_is_feasible_frame in H as [f ->].
    exists e1, e2, rs, f. unfold set_is_feasible_attr, set_routes, set_solved,
      set_edges_True, set_distance_matrix. simpl. by rewrite <- app_assoc.
  - destruct (decide (length m1 < 3)); simpl in H; [discriminate|].
    right. split; [lia|].
    destruct (construct_routes _) as [p2| |] eqn:E2; simpl in H; try discriminate.
    apply construct_routes_frame in E2 as [rs ->].
    unfold prevent_revisiting, routes_edges_to_nodes in H. simpl in H.
    destruct (fold_result forbid_closing _ m1) as [m2| |] eqn:E3; simpl in H;
      try discriminate.
    unfold bound in H. simpl in H.
    destruct (bound_matrix m2) as [[m3 c]| |] eqn:E4; simpl in H; try discriminate.
    apply set_is_feasible_frame in H as [f ->].
    by exists rs, m2, m3, c, f.
Qed.

(** X10.  Past its guard, [with_edge_branch] takes one row and one column
    from a rectangular matrix: the child's matrix has one row less, and
    every row of it is one entry shorter. *)
Theorem with_edge_branch_shrinks (p p' : BnBPartialSolution) (e : edge) (w : nat) :
  Forall (fun row => length row = w) (distance_matrix p) ->
  edge_in e (edges_True p) = false ->
  with_edge_branch p e = Ok p' ->
  S (length (distance_matrix p')) = length (distance_matrix p)
  /\ Forall (fun row => S (length row) = w) (distance_matrix p').
Proof.
  intros Hw Hg H. destruct (with_edge_branch_steps _ _ _ Hg H) as (i & j & Eij & Hc).
  apply edge_to_real_indexes_in_range in Eij as (Hi & row0 & H0 & Hj).
  assert (Hw0 : length row0 = w).
  { rewrite Forall_forall in Hw. apply Hw. by eapply list_elem_of_lookup_2. }
  set (m1 := map (delete j) (delete i (distance_matrix p))) in *.
  assert (Hm1 : S (length m1) = length (distance_matrix p)
                /\ Forall (fun row => length row = w - 1) m1).
  { unfold m1. rewrite length_map. split.
    - by apply length_delete_lt.
    - apply Forall_fmap. eapply Forall_impl.
      + apply Forall_delete. exact Hw.
      + simpl. intros row Hrow.
        pose proof (length_delete_lt row j ltac:(lia)). lia. }
  assert (Hfin : forall m : list (list fl), length m = length m1 ->
                           Forall (fun row => length row = w - 1) m ->
                           S (length m) = length (distance_matrix p)
                           /\ Forall (fun row => S (length row) = w) m).
  { intros m Hl Hr. split; [lia|]. eapply Forall_impl; [exact Hr|]. simpl. lia. }
  destruct Hm1 as [Hm1 Hm1w].
  destruct Hc as [[_ (e1 & e2 & rs & f & ->)]|[_ (rs & m2 & m3 & c & f & E3 & E4 & ->)]];
    simpl.
  - by apply Hfin.
  - apply fold_forbid_closing_shape in E3 as [E3 E3w].
    apply bound_matrix_shape in E4 as (E4 & _ & _ & E4w).
    apply Hfin; [congruence|]. auto.
Qed.

Lemma with_edge_branch_shrinks_witness :
  exists e p p',
    initialize new_engine instance_A (Some (fz 100)) = Ok e
    /\ partial_solutions e !! 0 = Some p
    /\ with_edge_branch p (fz 1, fz 2) = Ok p'
    /\ S (length (distance_matrix p')) = length (distance_matrix p)
    /\ Forall (fun row => S (length row) = 5) (distance_matrix p').
Proof.
  eexists. eexists. eexists.
  split; [vm_compute; reflexivity|].
  split; [vm_compute; reflexivity|].
  split; [vm_compute; reflexivity|].
  eapply (with_edge_branch_shrinks _ _ (fz 1, fz 2) 5).
  - repeat constructor.
  - reflexivity.
  - vm_compute. reflexivity.
Defined.

(** X11.  A transition revokes no decision.  [with_edge_branch] keeps the
    excluded edges and adds to the end of the included ones: nothing on an
    edge that is included already, the edge alone on a node that is not a
    leaf, the edge and the two edges of the leaf where two data rows are
    left.  [without_edge_branch] keeps the included edges and adds the edge
    to the excluded ones unless it is among them. *)
Theorem transitions_keep_decisions (p : BnBPartialSolution) (e : edge) :
  (forall p', with_edge_branch p e = Ok p' ->
     edges_False p' = edges_False p
     /\ if edge_in e (edges_True p) then edges_True p' = edges_True p
        else if decide (length (distance_matrix p) = 4)
             then exists e1 e2, edges_True p' = edges_True p ++ [e; e1; e2]
             else edges_True p' = edges_True p ++ [e])
  /\ (forall p', without_edge_branch p e = Ok p' ->
        edges_True p' = edges_True p
        /\ edges_False p'
           = if edge_in e (edges_False p) then edges_False p else edges_False p ++ [e]).
Proof.
  split; intros p' H.
  - destruct (edge_in e (edges_True p)) eqn:Hg.
    { unfold with_edge_branch in H. rewrite Hg in H. by injection H as <-. }
    destruct (with_edge_branch_steps _ _ _ Hg H) as (i & j & Eij & Hc).
    apply edge_to_real_indexes_in_range in Eij as (Hi & _).
    assert (Hlen : S (length (map (delete j) (delete i (distance_matrix p))))
                   = length (distance_matrix p)).
    { rewrite length_map. by apply length_delete_lt. }
    destruct Hc as [[Hl (e1 & e2 & rs & f & ->)]|[Hl (rs & m2 & m3 & c & f & _ & _ & ->)]];
      simpl; (split; [done|]); destruct (decide _); try lia; eauto.
  - unfold without_edge_branch in H.
    destruct (edge_in e (edges_False p)) eqn:Hg; [by injection H as <-|].
    unfold edge_to_real_indexes, bound in H. simpl in H.
    destruct (edge_to_real_indexes_matrix _ e) as [[i j]| |]; simpl in H; try discriminate.
    destruct (set_cell _ i j PInf) as [m1| |]; simpl in H; try discriminate.
    destruct (bound_matrix m1) as [[m2 c]| |]; simpl in H; try discriminate.
    by injection H as <-.
Qed.

Lemma transitions_keep_decisions_witness :
  exists p',
    with_edge_branch node_A3 (fz 2, fz 4) = Ok p'
    /\ edges_False p' = edges_False node_A3
    /\ exists e1 e2, edges_True p' = edges_True node_A3 ++ [(fz 2, fz 4); e1; e2].
Proof.
  eexists. split; [vm_compute; reflexivity|].
  apply (proj1 (transitions_keep_decisions node_A3 (fz 2, fz 4))).
  vm_compute. reflexivity.
Defined.

(** X12.  Where [with_edge_branch] leaves two data rows, the child is
    solved: it has the included edges of its parent, the edge, and two edges
    more, its routes hold these edges and no other, and its lower bound is
    the lower bound of its parent: the cells of the two last edges are not
    added.  Where more rows are left the child is as solved as its parent.
    *)
Theorem with_edge_branch_leaf (p p' : BnBPartialSolution) (e : edge) :
  edge_in e (edges_True p) = false ->
  with_edge_branch p e = Ok p' ->
  if decide (length (distance_matrix p) = 4) then
    is_solved p' = true
    /\ lower_bound p' = lower_bound p
    /\ exists rs, routes p' = Some rs /\ forall x, x ∈ concat rs <-> x ∈ edges_True p'
  else is_solved p' = is_solved p.
Proof.
  intros Hg H. unfold with_edge_branch in H. rewrite Hg in H.
  unfold edge_to_real_indexes in H. simpl in H.
  destruct (edge_to_real_indexes_matrix (distance_matrix p) e) as [[i j]| |] eqn:Eij;
    simpl in H; try discriminate.
  apply edge_to_real_indexes_in_range in Eij as (Hi & _).
  set (m1 := map (delete j) (delete i (distance_matrix p))) in *.
  assert (Hlen : S (length m1) = length (distance_matrix p)).
  { unfold m1. rewrite length_map. by apply length_delete_lt. }
  unfold is_leaf in H. simpl in H.
  destruct (decide (length m1 = 3)) as [Hl|Hl]; simpl in H.
  - destruct (decide (length (distance_matrix p) = 4)); [|lia].
    destruct (solve_leaf _) as [p1| |] eqn:E1; simpl in H; try discriminate.
    pose proof (solve_leaf_solved _ _ E1) as Hs. rewrite Hs in H.
    apply solve_leaf_edges in E1 as (e1 & e2 & -> & _).
    simpl in H.
    destruct (construct_routes _) as [p2| |] eqn:E2; simpl in H; try discriminate.
    apply construct_routes_elements in E2 as (rs & -> & _ & _ & Hcov).
    apply set_is_feasible_frame in H as [f ->]. simpl in *.
    repeat split. by exists rs.
  - destruct (decide (length (distance_matrix p) = 4)); [lia|].
    destruct (decide (length m1 < 3)); simpl in H; [discriminate|].
    destruct (construct_routes _) as [p2| |] eqn:E2; simpl in H; try discriminate.
    apply construct_routes_frame in E2 as [rs ->].
    unfold prevent_revisiting, routes_edges_to_nodes in H. simpl in H.
    destruct (fold_result forbid_closing _ m1) as [m2| |] eqn:E3; simpl in H;
      try discriminate.
    unfold bound in H. simpl in H.
    destruct (bound_matrix m2) as [[m3 c]| |] eqn:E4; simpl in H; try discriminate.
    by apply set_is_feasible_frame in H as [f ->].
Qed.


Lemma with_edge_branch_leaf_witness :
  exists p',
    with_edge_branch node_A3 (fz 2, fz 4) = Ok p'
    /\ is_solved p' = true
    /\ lower_bound p' = lower_bound node_A3
    /\ exists rs, routes p' = Some rs /\ forall x, x ∈ concat rs <-> x ∈ edges_True p'.
Proof.
  eexists. split; [vm_compute; reflexivity|].
  apply (with_edge_branch_leaf node_A3 _ (fz 2, fz 4)).
  - reflexivity.
  - vm_compute. reflexivity.
Defined.

(** ** The reduction of Little *)

Lemma nonneg_flt_false a b :
  nonneg a = true -> nonneg b = true -> flt a b = false -> fle b a = true.
Proof.
  unfold nonneg. destruct a, b; simpl; try done.
  intros _ _. rewrite negb_false_iff. done.
Qed.

Lemma flt_fle a b : flt a b = true -> fle a b = true.
Proof.
  destruct a, b; simpl; try done.
  rewrite negb_true_iff, <- not_true_iff_false, !Qle_bool_iff. lra.
Qed.

Lemma nonneg_fle_refl a : nonneg a = true -> fle a a = true.
Proof. unfold nonneg. destruct a; simpl; try done. intros _. apply Qle_bool_iff. lra. Qed.

(** The running minimum of [min]: an entry that no entry is below. *)
Lemma fold_min_spec l x :
  nonneg x = true -> Forall (fun y => nonneg y = true) l ->
  let m := fold_left (fun acc y => if flt y acc then y else acc) l x in
  m ∈ x :: l /\ nonneg m = true /\ Forall (fun y => fle m y = true) (x :: l).
Proof.
  revert x. induction l as [|y l IH]; intros x Hx Hl; simpl.
  { split; [apply elem_of_cons; by left|]. split; [done|].
    constructor; [by apply nonneg_fle_refl|constructor]. }
  inversion Hl as [|? ? Hy Hl']; subst.
  destruct (flt y x) eqn:E.
  - destruct (IH y Hy Hl') as (H1 & H2 & H3). split; [by apply elem_of_cons; right|].
    split; [done|]. inversion H3 as [|? ? H3y H3l]; subst.
    constructor; [|by constructor].
    eapply fle_trans; [exact H3y|]. by apply flt_fle.
  - destruct (IH x Hx Hl') as (H1 & H2 & H3). split.
    + apply elem_of_cons in H1 as [H1|H1]; [apply elem_of_cons; by left|].
      apply elem_of_cons; right. apply elem_of_cons; by right.
    + split; [done|]. inversion H3 as [|? ? H3x H3l]; subst.
      constructor; [done|]. constructor; [|done].
      eapply fle_trans; [exact H3x|]. by apply nonneg_flt_false.
Qed.

Lemma np_min_spec l :
  l <> [] -> Forall (fun y => nonneg y = true) l ->
  exists m, np_min l = Ok m /\ m ∈ l /\ nonneg m = true
            /\ Forall (fun y => fle m y = true) l
            /\ (has_finite l -> is_finite m = true).
Proof.
  intros Hne Hl. destruct l as [|x l]; [done|].
  inversion Hl as [|? ? Hx Hl']; subst.
  destruct (fold_min_spec l x Hx Hl') as (H1 & H2 & H3).
  unfold np_min. rewrite (existsb_is_nan_nonneg _ Hl).
  eexists. split; [done|]. repeat split; auto.
  intros Hf. unfold has_finite in Hf. apply Exists_exists in Hf as (y & Hy & Hfy).
  rewrite Forall_forall in H3. specialize (H3 y Hy).
  unfold nonneg in H2.
  destruct (fold_left _ l x); try done. by destruct y.
Qed.

Lemma fsub_reduce x rm :
  nonneg x = true -> is_finite rm = true -> fle rm x = true ->
  nonneg (fsub x rm) = true /\ is_finite (fsub x rm) = is_finite x.
Proof.
  unfold nonneg. destruct x, rm; simpl; try done.
  rewrite !Qle_bool_iff. intros. split; [|done]. lra.
Qed.

Lemma fsub_self rm : is_finite rm = true -> feq (fsub rm rm) (Fin 0) = true.
Proof. destruct rm; simpl; try done. intros _. apply Qeq_bool_iff. lra. Qed.

Lemma fsub_zero x cm :
  feq x (Fin 0) = true -> nonneg cm = true -> fle cm x = true ->
  feq (fsub x cm) (Fin 0) = true.
Proof.
  unfold nonneg. destruct x, cm; simpl; try done.
  rewrite !Qle_bool_iff. intros H1 H2 H3. apply Qeq_bool_iff in H1.
  apply Qeq_bool_iff. lra.
Qed.

Lemma nth_map_fsub row rm j :
  nth j (map (fun x => fsub x rm) row) NaN = fsub (nth j row NaN) rm.
Proof. by rewrite <- (map_nth (fun x => fsub x rm)). Qed.

Lemma nth_elem_of (row : list fl) j : j < length row -> nth j row NaN ∈ row.
Proof. intros H. apply list_elem_of_In. by apply nth_In. Qed.

Lemma py_sum_acc_finite l acc :
  is_finite acc = true -> nonneg acc = true ->
  Forall (fun x => is_finite x = true /\ nonneg x = true) l ->
  is_finite (fold_left fadd l acc) = true /\ nonneg (fold_left fadd l acc) = true.
Proof.
  revert acc. induction l as [|x l IH]; intros acc Ha Hn Hl; simpl; [done|].
  inversion Hl as [|? ? [Hx Hxn] Hl']; subst. apply IH; auto.
  - by destruct acc, x.
  - by apply fadd_nonneg.
Qed.

Lemma columns_Forall (P : list fl -> Prop) d nc :
  d <> [] -> Forall (fun row => length row = nc) d ->
  Forall P (columns d) <-> forall j, j < nc -> P (column_of d j).
Proof.
  intros Hne Hd. destruct d as [|r d]; [done|]. unfold columns.
  inversion Hd as [|? ? Hr _]; subst.
  rewrite Forall_fmap, Forall_seq. unfold compose, column_of. split.
  - intros H j Hj. apply H. lia.
  - intros H j Hj. apply H. lia.
Qed.

Lemma column_of_elem d j row : row ∈ d -> nth j row NaN ∈ column_of d j.
Proof. intros H. unfold column_of. apply list_elem_of_fmap. by exists row. Qed.

Lemma row_reduced_intro row rm :
  Forall (fun x => nonneg x = true) row -> has_finite row -> np_min row = Ok rm ->
  is_finite rm = true /\ nonneg rm = true
  /\ row_reduced row (map (fun x => fsub x rm) row).
Proof.
  intros Hnn Hfin Hmin.
  assert (Hne : row <> []) by (intros ->; by apply Exists_nil in Hfin).
  destruct (np_min_spec row Hne Hnn) as (m & Hm & Hin & Hmn & Hle & Hf).
  assert (m = rm) as -> by congruence. specialize (Hf Hfin).
  split; [done|]. split; [done|]. repeat split.
  - by rewrite length_map.
  - apply Forall_fmap. rewrite Forall_forall in Hnn, Hle. apply Forall_forall.
    intros x Hx. simpl. by apply fsub_reduce; auto.
  - unfold has_zero. apply Exists_exists. exists (fsub rm rm). split.
    + apply list_elem_of_fmap. by exists rm.
    + by apply fsub_self.
  - intros j. rewrite nth_map_fsub. destruct (decide (j < length row)) as [Hj|Hj].
    + pose proof (nth_elem_of row j Hj) as Hx.
      rewrite Forall_forall in Hnn, Hle. by apply fsub_reduce; auto.
    + rewrite nth_overflow by lia. done.
Qed.

Lemma rows_reduced d :
  Forall (Forall (fun x => nonneg x = true)) d -> Forall has_finite d ->
  exists rmins,
    map_result np_min d = Ok rmins
    /\ Forall (fun x => is_finite x = true /\ nonneg x = true) rmins
    /\ Forall2 row_reduced d
         (zip_with (fun row rm => map (fun x => fsub x rm) row) d rmins).
Proof.
  induction d as [|row d IH]; intros Hnn Hfin.
  { exists []. repeat split; constructor. }
  inversion Hnn as [|? ? Hrow Hnn']; subst. inversion Hfin as [|? ? Hf Hfin']; subst.
  destruct (IH Hnn' Hfin') as (rmins & Hr & Hp & Hred).
  assert (Hne : row <> []) by (intros ->; by apply Exists_nil in Hf).
  destruct (np_min_spec row Hne Hrow) as (rm & Hm & _).
  destruct (row_reduced_intro row rm Hrow Hf Hm) as (H1 & H2 & H3).
  exists (rm :: rmins). simpl. rewrite Hm. simpl. rewrite Hr. simpl.
  repeat split; constructor; auto.
Qed.

Lemma column_of_finite d d1 j :
  Forall2 row_reduced d d1 -> has_finite (column_of d j) -> has_finite (column_of d1 j).
Proof.
  unfold has_finite, column_of. induction 1 as [|row row1 d d1 Hr F IH]; simpl; [done|].
  intros [H|H]%Exists_cons.
  - apply Exists_cons_hd. destruct Hr as (_ & _ & _ & Hr). by rewrite Hr.
  - apply Exists_cons_tl. by apply IH.
Qed.

Lemma map_result_exists {A B} (f : A -> result B) (Q : A -> B -> Prop) l :
  Forall (fun x => exists y, f x = Ok y /\ Q x y) l ->
  exists ys, map_result f l = Ok ys /\ Forall2 Q l ys.
Proof.
  induction 1 as [|x l (y & Hy & Hq) _ (ys & Hys & HQ)].
  - exists []. split; [done|constructor].
  - exists (y :: ys). simpl. rewrite Hy. simpl. rewrite Hys. simpl.
    split; [done|by constructor].
Qed.

Lemma columns_reduced d1 nc :
  d1 <> [] -> Forall (fun row => length row = nc) d1 ->
  Forall (Forall (fun x => nonneg x = true)) d1 ->
  (forall j, j < nc -> has_finite (column_of d1 j)) ->
  exists cmins,
    min_axis0 d1 = Ok cmins /\ length cmins = nc
    /\ forall j, j < nc -> exists cm, cmins !! j = Some cm /\ column_min (column_of d1 j) cm.
Proof.
  intros Hne Hshape Hnn Hfin.
  assert (Hall : Forall (fun col => exists cm, np_min col = Ok cm /\ column_min col cm)
                        (columns d1)).
  { apply (columns_Forall _ d1 nc Hne Hshape). intros j Hj.
    assert (Hcn : Forall (fun x => nonneg x = true) (column_of d1 j)).
    { unfold column_of. apply Forall_fmap. rewrite Forall_forall in Hnn, Hshape.
      apply Forall_forall. intros row Hrow. simpl.
      specialize (Hnn row Hrow). rewrite Forall_forall in Hnn. apply Hnn.
      apply nth_elem_of. rewrite (Hshape row Hrow). done. }
    assert (Hcne : column_of d1 j <> []) by (by destruct d1).
    destruct (np_min_spec _ Hcne Hcn) as (cm & H1 & H2 & H3 & H4 & H5).
    exists cm. split; [done|]. repeat split; auto. }
  apply map_result_exists in Hall as (cmins & Hc & HQ).
  exists cmins. split; [by destruct d1|].
  assert (Hlen : length cmins = nc).
  { apply map_result_length in Hc. rewrite Hc. by apply columns_length. }
  split; [done|]. intros j Hj.
  pose proof (columns_lookup d1 nc j Hne Hshape Hj) as Hcj.
  destruct (Forall2_lookup_l _ _ _ _ _ HQ Hcj) as (cm & Hcm & Hmin).
  by exists cm.
Qed.

Lemma nth_zip_with_fsub row cmins j x cm :
  row !! j = Some x -> cmins !! j = Some cm ->
  (zip_with fsub row cmins) !! j = Some (fsub x cm).
Proof. intros Hx Hc. rewrite lookup_zip_with, Hx. simpl. by rewrite Hc. Qed.

Lemma nth_lookup_lt (row : list fl) j : j < length row -> row !! j = Some (nth j row NaN).
Proof.
  intros Hj. destruct (lookup_lt_is_Some_2 row j Hj) as [x Hx].
  rewrite Hx. f_equal. symmetry. by apply nth_lookup_Some.
Qed.

(** The matrix after the column reduction *)
Lemma reduced_matrix d1 nc cmins :
  d1 <> [] -> Forall (fun row => length row = nc) d1 ->
  Forall (fun row => Forall (fun x => nonneg x = true) row /\ has_zero row) d1 ->
  length cmins = nc ->
  (forall j, j < nc -> exists cm, cmins !! j = Some cm /\ column_min (column_of d1 j) cm) ->
  let d2 := map (fun row => zip_with fsub row cmins) d1 in
  Forall (fun row => length row = nc) d2
  /\ Forall (Forall (fun x => nonneg x = true)) d2
  /\ Forall has_zero d2
  /\ Forall has_zero (columns d2).
Proof.
  intros Hne Hshape Hrows Hlen Hcm d2.
  assert (Hshape2 : Forall (fun row => length row = nc) d2).
  { unfold d2. apply Forall_fmap. eapply Forall_impl; [exact Hshape|]. simpl.
    intros row Hrow. rewrite length_zip_with. lia. }
  assert (Hcell : forall row j x, row ∈ d1 -> row !! j = Some x ->
            exists cm, cmins !! j = Some cm /\ is_finite cm = true /\ nonneg cm = true
                       /\ fle cm x = true /\ nonneg x = true).
  { intros row j x Hrow Hx. rewrite Forall_forall in Hshape, Hrows.
    pose proof (lookup_lt_Some _ _ _ Hx) as Hj. rewrite (Hshape row Hrow) in Hj.
    destruct (Hcm j Hj) as (cm & Hc & H1 & H2 & _ & H4). exists cm.
    repeat split; auto.
    - rewrite Forall_forall in H4. apply H4.
      rewrite <- (nth_lookup_Some _ _ NaN _ Hx). by apply column_of_elem.
    - destruct (Hrows row Hrow) as [Hn _]. rewrite Forall_forall in Hn. apply Hn.
      by eapply list_elem_of_lookup_2. }
  split; [done|]. split; [|split].
  - unfold d2. apply Forall_fmap. apply Forall_forall. intros row Hrow. simpl.
    apply Forall_lookup. intros j y Hy.
    apply lookup_zip_with_Some in Hy as (x & cm & -> & Hx & Hc).
    destruct (Hcell row j x Hrow Hx) as (cm' & Hc' & H1 & H2 & H3 & H4).
    assert (cm' = cm) as -> by congruence. by apply fsub_reduce.
  - unfold d2. apply Forall_fmap. apply Forall_forall. intros row Hrow. simpl.
    rewrite Forall_forall in Hrows. destruct (Hrows row Hrow) as [_ Hz].
    unfold has_zero in *. apply Exists_exists in Hz as (x & Hx & Hx0).
    apply list_elem_of_lookup_1 in Hx as [j Hj].
    destruct (Hcell row j x Hrow Hj) as (cm & Hc & H1 & H2 & H3 & H4).
    apply Exists_exists. exists (fsub x cm). split.
    + eapply list_elem_of_lookup_2. by apply nth_zip_with_fsub.
    + by apply fsub_zero.
  - assert (Hne2 : d2 <> []) by (unfold d2; by destruct d1).
    apply (columns_Forall _ d2 nc Hne2 Hshape2). intros j Hj.
    destruct (Hcm j Hj) as (cm & Hc & H1 & H2 & H3 & H4).
    unfold column_of in H3. apply list_elem_of_fmap in H3 as (row & Hcmv & Hrow).
    unfold has_zero. apply Exists_exists. exists (fsub cm cm). split; [|by apply fsub_self].
    unfold column_of, d2. rewrite <- list_fmap_compose.
    apply list_elem_of_fmap. exists row. split; [|done]. simpl.
    rewrite Forall_forall in Hshape.
    assert (Hjr : j < length row) by (by rewrite (Hshape row Hrow)).
    symmetry. apply nth_lookup_Some.
    apply nth_zip_with_fsub; [|done]. rewrite Hcmv. by apply nth_lookup_lt.
Qed.

(** The reduction on the matrix alone. *)
Lemma bound_matrix_reduced (m : ndarray) (nc : nat) :
  data_of m <> [] -> data_columns m nc -> data_nonneg m ->
  Forall has_finite (data_of m) ->
  Forall has_finite (columns (data_of m)) ->
  exists m' c,
    bound_matrix m = Ok (m', c)
    /\ is_finite c = true /\ nonneg c = true
    /\ data_columns m' nc /\ length (data_of m') = length (data_of m)
    /\ data_nonneg m'
    /\ Forall has_zero (data_of m')
    /\ Forall has_zero (columns (data_of m')).
Proof.
  intros Hne Hshape Hnn Hrows Hcols. unfold data_columns, data_nonneg in *.
  destruct (rows_reduced _ Hnn Hrows) as (rmins & Hr & Hrm & Hred).
  set (d1 := zip_with (fun row rm => map (fun x => fsub x rm) row) (data_of m) rmins) in *.
  pose proof (map_result_length _ _ _ Hr) as Hrl.
  destruct (row_reduced_shape (data_of m) rmins nc Hshape Hrl) as [Hl1 Hshape1].
  fold d1 in Hl1, Hshape1.
  assert (Hne1 : d1 <> []).
  { intros E. rewrite E in Hl1. simpl in Hl1. by destruct (data_of m). }
  assert (Hrows1 : Forall (fun row => Forall (fun x => nonneg x = true) row /\ has_zero row) d1).
  { clear -Hred. induction Hred as [|row row1 d d1 (_ & H1 & H2 & _) F IH]; constructor; auto. }
  assert (Hnn1 : Forall (Forall (fun x => nonneg x = true)) d1).
  { eapply Forall_impl; [exact Hrows1|]. simpl. tauto. }
  assert (Hfin1 : forall j, j < nc -> has_finite (column_of d1 j)).
  { intros j Hj. apply (column_of_finite _ _ j Hred).
    by apply (columns_Forall has_finite (data_of m) nc Hne Hshape). }
  destruct (columns_reduced d1 nc Hne1 Hshape1 Hnn1 Hfin1) as (cmins & Hc & Hcl & Hcm).
  destruct (bound_matrix_data m rmins cmins Hr Hc) as (m' & Hb & Hd).
  fold d1 in Hd.
  destruct (reduced_matrix d1 nc cmins Hne1 Hshape1 Hrows1 Hcl Hcm) as (R1 & R2 & R3 & R4).
  exists m', (fadd (py_sum rmins) (py_sum cmins)). rewrite Hd.
  split; [done|].
  assert (Hcmf : Forall (fun x => is_finite x = true /\ nonneg x = true) cmins).
  { apply Forall_lookup. intros j cm Hj. pose proof (lookup_lt_Some _ _ _ Hj) as Hlt.
    rewrite Hcl in Hlt. destruct (Hcm j Hlt) as (cm' & Hc' & H1 & H2 & _).
    assert (cm' = cm) as -> by congruence. done. }
  destruct (py_sum_acc_finite rmins (Fin 0) eq_refl eq_refl Hrm) as [S1 S2].
  destruct (py_sum_acc_finite cmins (Fin 0) eq_refl eq_refl Hcmf) as [S3 S4].
  fold (py_sum rmins) in S1, S2. fold (py_sum cmins) in S3, S4.
  split; [by destruct (py_sum rmins), (py_sum cmins)|].
  split; [by apply fadd_nonneg|].
  split; [done|]. split; [by rewrite length_map|]. done.
Qed.




(** ** The edge that is selected *)

Lemma for_range_Ok_inv {St} (P : nat -> St -> Prop) lo n
    (body : nat -> St -> result St) s s' :
  P lo s ->
  (forall i t t', lo <= i < lo + n -> P i t -> body i t = Ok t' -> P (S i) t') ->
  for_range lo n body s = Ok s' -> P (lo + n) s'.
Proof.
  revert lo s. induction n as [|n IH]; intros lo s H0 Hstep H; simpl in H.
  - injection H as <-. by rewrite Nat.add_0_r.
  - destruct (body lo s) as [s1| |] eqn:E; simpl in H; try discriminate.
    replace (lo + S n) with (S lo + n) by lia.
    apply (IH (S lo) s1); [|intros i t t' Hi; apply Hstep; lia|done].
    apply (Hstep lo s); [lia|done|done].
Qed.

Lemma fgt_above a hp pen :
  nonneg hp = true -> fgt a hp = false -> fgt pen hp = true ->
  fgt a pen = false /\ fge a pen = false.
Proof.
  unfold fgt, fge, nonneg. destruct a, hp, pen; simpl; try done.
  rewrite !negb_false_iff, !negb_true_iff, <- !not_true_iff_false, !Qle_bool_iff.
  intros. split; lra.
Qed.

Lemma fgt_positive hp pen :
  nonneg hp = true -> fgt pen hp = true ->
  nonneg pen = true /\ fgt pen (Fin 0) = true /\ fgt pen pen = false.
Proof.
  unfold fgt, nonneg. destruct hp, pen; simpl; try done.
  rewrite !negb_false_iff, !negb_true_iff, <- !not_true_iff_false, !Qle_bool_iff.
  intros. repeat split; lra.
Qed.

Lemma select_step_inv m i j st st' :
  1 <= i -> 1 <= j < length m ->
  select_inv m i j st -> select_step m i j st = Ok st' -> select_inv m i (S j) st'.
Proof.
  intros Hi Hj (Hn & Hall & Hbest) H. rewrite select_step_ignores_value in H.
  destruct (cell m i j) as [x| |]; simpl in H; try discriminate.
  destruct (penalty m i j) as [pen| |] eqn:Ep; simpl in H; try discriminate.
  assert (Hgrow : forall i' j', scanned m i j i' j' -> scanned m i (S j) i' j').
  { unfold scanned. intros i' j' H'. lia. }
  assert (Hsplit : forall i' j', scanned m i (S j) i' j' ->
                                 scanned m i j i' j' \/ (i' = i /\ j' = j)).
  { unfold scanned. intros i' j' H'. lia. }
  assert (Hhere : scanned m i (S j) i j) by (unfold scanned; lia).
  destruct (fgt pen st.2) eqn:Eg.
  - destruct (cell m i 0) as [r| |] eqn:Er; simpl in H; try discriminate.
    destruct (cell m 0 j) as [c| |] eqn:Ec; simpl in H; try discriminate.
    injection H as <-. simpl.
    destruct (fgt_positive _ _ Hn Eg) as (P1 & P2 & P3).
    split; [done|]. split.
    + intros i' j' Hs. apply Hsplit in Hs as [Hs|[-> ->]].
      * destruct (Hall i' j' Hs) as (pen' & Hp' & Hg'). exists pen'. split; [done|].
        by apply (fgt_above pen' st.2 pen).
      * by exists pen.
    + exists i, j. split; [exact Hhere|]. do 4 (split; [done|]).
      intros i' j' Hs. destruct (Hall i' j' Hs) as (pen' & Hp' & Hg').
      exists pen'. split; [done|]. by apply (fgt_above pen' st.2 pen).
  - injection H as <-. split; [done|]. split.
    + intros i' j' Hs. apply Hsplit in Hs as [Hs|[-> ->]]; [by apply Hall|].
      by exists pen.
    + destruct st.1 as [[r c]|]; [|done].
      destruct Hbest as (i0 & j0 & H0 & Hrest). exists i0, j0. split; [|done].
      by apply Hgrow.
Qed.

Lemma select_row_inv m i st st' :
  1 <= i ->
  select_inv m i 1 st ->
  for_range 1 (length m - 1) (fun j st => select_step m i j st) st = Ok st' ->
  select_inv m (S i) 1 st'.
Proof.
  intros Hi Hinv H.
  apply (for_range_Ok_inv (fun j st => select_inv m i j st)) in H; [|done|].
  - destruct H as (Hn & Hall & Hbest).
    assert (Hnext : forall i' j', scanned m (S i) 1 i' j' ->
                                  scanned m i (1 + (length m - 1)) i' j').
    { unfold scanned. intros i' j' H'. lia. }
    assert (Hprev : forall i' j', scanned m i (1 + (length m - 1)) i' j' ->
                                  scanned m (S i) 1 i' j').
    { unfold scanned. intros i' j' H'. lia. }
    split; [done|]. split; [intros i' j' Hs; by apply Hall, Hnext|].
    destruct st'.1 as [[r c]|]; [|done].
    destruct Hbest as (i0 & j0 & H0 & Hrest). exists i0, j0. split; [|done].
    by apply Hprev.
  - intros j t t' Hj. apply select_step_inv; [done|lia].
Qed.

(** The state in which the scan ends *)
Lemma select_edge_matrix_scan m best :
  select_edge_matrix m = Ok best ->
  exists hp, select_inv m (1 + (length m - 1)) 1 (best, hp).
Proof.
  unfold select_edge_matrix. intros H.
  destruct (for_range 1 (length m - 1) _ (None, Fin 0)) as [[best' hp]| |] eqn:E;
    simpl in H; try discriminate.
  injection H as ->. exists hp.
  apply (for_range_Ok_inv (fun i st => select_inv m i 1 st)) in E; [done| |].
  - split; [done|]. split; [|done]. unfold scanned. intros i' j' Hs. lia.
  - intros i t t' Hi. apply select_row_inv. lia.
Qed.

(** X14.  What [select_edge] returns.  Every data cell is a candidate,
    whatever it holds.  The result is the pair of labels of the first cell,
    row by row, whose penalty is above 0 and which no cell exceeds; it is
    [(None, None)] exactly when no cell has a penalty above 0. *)
Theorem select_edge_maximal_penalty (m : ndarray) (best : option edge) :
  select_edge_matrix m = Ok best ->
  match best with
  | None =>
      forall i j, 1 <= i < length m -> 1 <= j < length m ->
                  exists pen, penalty m i j = Ok pen /\ fgt pen (Fin 0) = false
  | Some (r, c) =>
      exists i j pen,
        1 <= i < length m /\ 1 <= j < length m
        /\ cell m i 0 = Ok r /\ cell m 0 j = Ok c
        /\ penalty m i j = Ok pen /\ fgt pen (Fin 0) = true
        /\ forall i' j', 1 <= i' < length m -> 1 <= j' < length m ->
             exists pen', penalty m i' j' = Ok pen'
                          /\ fgt pen' pen = false
                          /\ (i' < i \/ (i' = i /\ j' < j) -> fge pen' pen = false)
  end.
Proof.
  intros H. apply select_edge_matrix_scan in H as (hp & Hn & Hall & Hbest). simpl in *.
  assert (Hin : forall i j, 1 <= i < length m -> 1 <= j < length m ->
                            scanned m (1 + (length m - 1)) 1 i j).
  { unfold scanned. intros i j Hi Hj. lia. }
  destruct best as [[r c]|].
  - destruct Hbest as (i0 & j0 & H0 & Hr & Hc & Hp & Hg & Hfirst).
    exists i0, j0, hp. unfold scanned in H0.
    split; [lia|]. split; [lia|]. repeat split; auto.
    intros i' j' Hi' Hj'. destruct (Hall i' j' (Hin i' j' Hi' Hj')) as (pen' & Hp' & Hg').
    exists pen'. repeat split; auto. intros Hb.
    destruct (Hfirst i' j') as (pen2 & Hp2 & Hg2); [unfold scanned; lia|].
    congruence.
  - subst hp. intros i j Hi Hj. by apply Hall, Hin.
Qed.


Lemma select_edge_maximal_penalty_witness :
  exists i j pen,
    1 <= i < length unreduced_matrix /\ 1 <= j < length unreduced_matrix
    /\ cell unreduced_matrix i 0 = Ok (fz 1) /\ cell unreduced_matrix 0 j = Ok (fz 2)
    /\ penalty unreduced_matrix i j = Ok pen /\ fgt pen (Fin 0) = true
    /\ forall i' j', 1 <= i' < length unreduced_matrix ->
                     1 <= j' < length unreduced_matrix ->
         exists pen', penalty unreduced_matrix i' j' = Ok pen'
                      /\ fgt pen' pen = false
                      /\ (i' < i \/ (i' = i /\ j' < j) -> fge pen' pen = false).
Proof.
  apply (select_edge_maximal_penalty unreduced_matrix (Some (fz 1, fz 2))).
  vm_compute. reflexivity.
Defined.

(** ** The selected edge in the matrix *)

Lemma feq_refl a : is_nan a = false -> feq a a = true.
Proof. destruct a; simpl; try done. intros _. apply Qeq_bool_iff. reflexivity. Qed.

Lemma find_index_le {A} (f : A -> bool) l i x :
  l !! i = Some x -> f x = true -> exists k, find_index f l = Some k /\ k <= i.
Proof.
  revert i. induction l as [|a l IH]; intros i Hx Hfx; [done|]. simpl.
  destruct (f a) eqn:Ea; [exists 0; split; [done|lia]|].
  destruct i as [|i]; simpl in Hx; [congruence|].
  destruct (IH i Hx Hfx) as (k & -> & Hk). exists (S k). split; [done|lia].
Qed.

(** A label that stands in column 0 and one that stands in row 0 are
    found, at these positions or before. *)
Lemma edge_to_real_indexes_found m r c i0 j0 x y :
  Forall (fun row => row <> []) m ->
  cell m i0 0 = Ok x -> feq r x = true ->
  cell m 0 j0 = Ok y -> feq c y = true ->
  exists i j, edge_to_real_indexes_matrix m (r, c) = Ok (i, j) /\ i <= i0 /\ j <= j0.
Proof.
  intros Hne Hx Hrx Hy Hcy. unfold edge_to_real_indexes_matrix.
  assert (exists col0, column m 0 = Ok col0) as [col0 Ec].
  { clear -Hne. induction Hne as [|row m Hrow F [col IH]].
    - by exists [].
    - destruct row as [|v row]; [done|]. exists (v :: col).
      unfold column in *. simpl. by rewrite IH. }
  rewrite Ec. simpl. pose proof (column_lookup m 0 col0 Ec) as Hcol.
  apply cell_Ok in Hx, Hy. rewrite <- Hcol in Hx. unfold ndarray in *.
  destruct (m !! 0) as [row0|] eqn:E0; simpl in Hy; [|done]. simpl.
  destruct (find_index_le (fun row_index => feq r row_index) col0 i0 x Hx Hrx)
    as (i & -> & Hi).
  destruct (find_index_le (fun col_index => feq c col_index) row0 j0 y Hy Hcy)
    as (j & -> & Hj).
  by exists i, j.
Qed.

Lemma penalty_row_nonempty m i j pen :
  penalty m i j = Ok pen -> exists row, m !! i = Some row /\ row <> [].
Proof.
  unfold penalty, min_row_without. intros H.
  destruct (m !! i) as [row|]; [|discriminate]. exists row. split; [done|].
  intros ->. simpl in H. destruct (decide (j - 1 < 0)); [lia|discriminate].
Qed.

(** X15.  The edge that [select_edge] returns is found by
    [edge_to_real_indexes] in the same matrix, when its labels are numbers:
    the lookup in [with_edge_branch] and [without_edge_branch] does not fail
    for it.  The row and the column that are found are those of the selected
    cell or, where a label is repeated, earlier ones. *)
Theorem selected_edge_is_found (m : ndarray) (r c : fl) :
  select_edge_matrix m = Ok (Some (r, c)) ->
  is_nan r = false -> is_nan c = false ->
  exists i0 j0 i j,
    cell m i0 0 = Ok r /\ cell m 0 j0 = Ok c
    /\ edge_to_real_indexes_matrix m (r, c) = Ok (i, j)
    /\ i <= i0 < length m /\ j <= j0 < length m.
Proof.
  intros H Hr Hc. apply select_edge_matrix_scan in H as (hp & _ & Hall & Hbest).
  simpl in Hall, Hbest. destruct Hbest as (i0 & j0 & H0 & Hcr & Hcc & _).
  unfold scanned in H0.
  assert (Hne : Forall (fun row => row <> []) m).
  { apply Forall_lookup. intros k row Hk. destruct (decide (k = 0)) as [->|Hk0].
    - apply cell_Ok in Hcc. unfold ndarray in *. rewrite Hk in Hcc. simpl in Hcc.
      intros ->. done.
    - pose proof (lookup_lt_Some _ _ _ Hk) as Hlt.
      destruct (Hall k 1) as (pen' & Hp' & _); [unfold scanned; lia|].
      apply penalty_row_nonempty in Hp' as (row' & Hrow' & Hne').
      unfold ndarray in *. congruence. }
  destruct (edge_to_real_indexes_found m r c i0 j0 r c Hne Hcr (feq_refl r Hr)
              Hcc (feq_refl c Hc)) as (i & j & Hij & Hi & Hj).
  exists i0, j0, i, j. repeat split; auto; lia.
Qed.


Lemma selected_edge_is_found_witness :
  exists i0 j0 i j,
    cell unreduced_matrix i0 0 = Ok (fz 1) /\ cell unreduced_matrix 0 j0 = Ok (fz 2)
    /\ edge_to_real_indexes_matrix unreduced_matrix (fz 1, fz 2) = Ok (i, j)
    /\ i <= i0 < length unreduced_matrix /\ j <= j0 < length unreduced_matrix.
Proof.
  apply (selected_edge_is_found unreduced_matrix (fz 1) (fz 2)).
  - vm_compute. reflexivity.
  - reflexivity.
  - reflexivity.
Defined.

(** ** One pass of the loop *)

Lemma pop_Ok e s e1 :
  pop_most_promising_solution e = Ok (s, e1) ->
  exists index,
    partial_solutions e !! index = Some s
    /\ e1 = set_partial_solutions (delete index (partial_solutions e)) e.
Proof.
  unfold pop_most_promising_solution. intros H.
  destruct (partial_solutions e !! 0) as [first|]; [|discriminate].
  destruct (most_promising_from 0 (partial_solutions e) first 0) as [mp index].
  destruct (partial_solutions e !! index) as [s'|] eqn:E; [|discriminate].
  injection H as <- <-. by exists index.
Qed.

Lemma branch_Ok e s e' :
  branch e s = Ok e' ->
  exists best_edge left_ right_,
    select_edge s = Ok (Some best_edge)
    /\ with_edge_branch (init_from_partial s) best_edge = Ok left_
    /\ without_edge_branch (init_from_partial s) best_edge = Ok right_
    /\ e' = set_partial_solutions (partial_solutions e ++ [left_; right_]) e.
Proof.
  unfold branch. intros H.
  destruct (select_edge s) as [[best_edge|]| |]; simpl in H; try discriminate.
  - destruct (with_edge_branch _ _) as [l| |] eqn:El; simpl in H; try discriminate.
    destruct (without_edge_branch _ _) as [r| |] eqn:Er; simpl in H; try discriminate.
    injection H as <-. exists best_edge, l, r. do 3 (split; [done|]).
    unfold set_partial_solutions. simpl. by rewrite <- app_assoc.
  - destruct (column _ 0); simpl in H; try discriminate.
    destruct (row_len _ 0); simpl in H; discriminate.
Qed.

(** X16.  A pass of the loop of [run] that completes takes one node from the
    pool and adds two at its end before the sweep: the pool is at most one
    node longer after it, and the counter is one higher. *)
Theorem run_body_grows_pool_by_one (np_getitem : ndarray -> fl -> fl -> option fl)
    (e e' : BranchNBound) :
  run_body np_getitem e = Ok e' ->
  length (partial_solutions e') <= length (partial_solutions e) + 1
  /\ times_branched e' = times_branched e + 1.
Proof.
  unfold run_body. intros H.
  destruct (pop_most_promising_solution e) as [[s e1]| |] eqn:Ep; simpl in H;
    try discriminate.
  destruct (branch e1 s) as [e2| |] eqn:Eb; simpl in H; try discriminate.
  apply pop_Ok in Ep as (index & Hs & ->).
  apply branch_Ok in Eb as (best_edge & l & r & _ & _ & _ & ->).
  apply prune_loop_sweep in H as (Hsub & Ht & _). simpl in *.
  apply sublist_length in Hsub. rewrite length_app in Hsub. simpl in Hsub.
  pose proof (length_delete_lt _ _ (lookup_lt_Some _ _ _ Hs)). lia.
Qed.

Lemma run_body_grows_pool_by_one_witness :
  exists e e',
    initialize new_engine instance_A (Some (fz 100)) = Ok e
    /\ run_body getitem_trunc e = Ok e'
    /\ length (partial_solutions e') <= length (partial_solutions e) + 1
    /\ times_branched e' = times_branched e + 1.
Proof.
  eexists. eexists.
  split; [vm_compute; reflexivity|].
  split; [vm_compute; reflexivity|].
  apply (run_body_grows_pool_by_one getitem_trunc). vm_compute. reflexivity.
Defined.

(** A child that is not a leaf is as solved as the node it comes from. *)
Lemma with_edge_branch_solved p e p' :
  length (distance_matrix p) <> 4 ->
  with_edge_branch p e = Ok p' -> is_solved p' = is_solved p.
Proof.
  intros Hlen H. destruct (edge_in e (edges_True p)) eqn:Hg.
  { unfold with_edge_branch in H. rewrite Hg in H. by injection H as <-. }
  destruct (with_edge_branch_steps _ _ _ Hg H) as (i & j & Eij & Hc).
  apply edge_to_real_indexes_in_range in Eij as (Hi & _).
  pose proof (length_delete_lt _ _ Hi) as Hd.
  destruct Hc as [[Hl _]|[_ (rs & m2 & m3 & c & f & _ & _ & ->)]]; [|done].
  rewrite length_map in Hl. unfold ndarray in *. lia.
Qed.

(** X17.  Without an upper bound [run] fails.  With [upper_bound = None],
    the value that [initialize] stores when it is called without one, the
    first sweep compares the bound of an unsolved node with [None]: on a
    pool of unsolved nodes none of which is one step from a leaf, the first
    pass raises, in the branching or in the sweep. *)
Theorem run_needs_upper_bound (np_getitem : ndarray -> fl -> fl -> option fl)
    (e : BranchNBound) :
  upper_bound e = None ->
  partial_solutions e <> [] ->
  Forall (fun s => is_solved s = false /\ length (distance_matrix s) <> 4)
         (partial_solutions e) ->
  exists x, run np_getitem e = Err x.
Proof.
  intros Hub Hne Hall.
  assert (Hbody : exists x, run_body np_getitem e = Err x).
  { unfold run_body.
    pose proof (terminates_pop e) as Tp.
    destruct (pop_most_promising_solution e) as [[s e1]|x|] eqn:Ep; simpl;
      [|by exists x|done].
    pose proof (terminates_branch e1 s) as Tb.
    destruct (branch e1 s) as [e2|x|] eqn:Eb; simpl; [|by exists x|done].
    exists TypeError.
    apply pop_Ok in Ep as (index & Hs & ->).
    apply branch_Ok in Eb as (best_edge & l & r & _ & Hl & _ & ->).
    rewrite Forall_forall in Hall.
    destruct (Hall s) as [Hsol Hlen]; [by eapply list_elem_of_lookup_2|].
    apply with_edge_branch_solved in Hl; [|done]. simpl in Hl.
    unfold prune. simpl. rewrite length_app. simpl.
    rewrite Nat.add_comm. simpl.
    destruct (delete index (partial_solutions e)) as [|first rest] eqn:Ed; simpl.
    - unfold is_solved in *. rewrite Hl, Hsol. unfold the_upper_bound. simpl.
      by rewrite Hub.
    - destruct (Hall first) as [Hf _].
      { eapply list_elem_of_delete_inv. rewrite Ed. apply elem_of_cons. by left. }
      rewrite Hf. unfold the_upper_bound. simpl. by rewrite Hub. }
  destruct Hbody as [x Hx]. exists x. unfold run. simpl.
  destruct (partial_solutions e); [done|]. by rewrite Hx.
Qed.


Lemma run_needs_upper_bound_witness :
  exists e,
    initialize new_engine instance_A None = Ok e
    /\ exists x, run getitem_trunc e = Err x.
Proof.
  eexists. split; [vm_compute; reflexivity|].
  apply (run_needs_upper_bound getitem_trunc).
  - reflexivity.
  - discriminate.
  - repeat constructor. simpl. lia.
Defined.

(** ** The cell of an excluded edge *)

Lemma fsub_inf_any rm : inf_or_nan (fsub PInf rm) = true.
Proof. by destruct rm. Qed.

Lemma fsub_inf_or_nan_any a cm : inf_or_nan a = true -> inf_or_nan (fsub a cm) = true.
Proof. by destruct a, cm. Qed.

(** A data cell after the reduction: the row minimum and the column
    minimum are taken from it. *)
Lemma bound_matrix_cell m m' c w i j x :
  Forall (fun row => length row = w) m ->
  bound_matrix m = Ok (m', c) ->
  cell m (S i) (S j) = Ok x ->
  exists rm cm, cell m' (S i) (S j) = Ok (fsub (fsub x rm) cm).
Proof.
  intros Hw H Hx.
  destruct (bound_matrix_parts _ _ _ H)
    as (labels & rows & rmins & cmins & -> & Hr & Hlen & Hc & -> & _).
  apply cell_Ok in Hx. simpl in Hx.
  destruct (rows !! i) as [row|] eqn:Erow; simpl in Hx; [|done].
  destruct row as [|l xs]; simpl in Hx; [done|].
  destruct (lookup_lt_is_Some_2 rmins i) as [rm Hrm].
  { rewrite Hlen. by eapply lookup_lt_Some. }
  inversion Hw as [|? ? Hl Hrows]; subst.
  assert (Hd : Forall (fun row => length row = length labels - 1)
                 (data_of (sub_rows (labels :: rows) rmins))).
  { rewrite data_of_sub_rows. unfold data_of. simpl.
    apply row_reduced_shape; [|by rewrite length_map].
    apply Forall_fmap. eapply Forall_impl; [exact Hrows|]. simpl. intros row Hrow.
    rewrite length_drop. lia. }
  pose proof (min_axis0_length _ _ _ Hd Hc) as Hcl.
  assert (Hxs : length (l :: xs) = length labels).
  { rewrite Forall_forall in Hrows. apply Hrows. by eapply list_elem_of_lookup_2. }
  simpl in Hxs.
  destruct (lookup_lt_is_Some_2 cmins j) as [cm Hcm].
  { rewrite Hcl. apply lookup_lt_Some in Hx. lia. }
  exists rm, cm. apply cell_Ok. simpl.
  rewrite list_lookup_fmap, lookup_zip_with, Erow. simpl. rewrite Hrm. simpl.
  rewrite lookup_zip_with, list_lookup_fmap, Hx. simpl. by rewrite Hcm.
Qed.

(** X18.  [without_edge_branch] closes the cell of the edge.  Past the
    guard, in a rectangular matrix, the cell at the position that
    [edge_to_real_indexes] finds for the edge holds plus infinity or nan in
    the child, after the reduction too, and the matrix keeps its shape. *)
Theorem without_edge_branch_closes_cell (p p' : BnBPartialSolution) (e : edge) (w : nat) :
  Forall (fun row => length row = w) (distance_matrix p) ->
  edge_in e (edges_False p) = false ->
  without_edge_branch p e = Ok p' ->
  exists i j x,
    edge_to_real_indexes p e = Ok (i, j)
    /\ cell (distance_matrix p') i j = Ok x /\ inf_or_nan x = true
    /\ length (distance_matrix p') = length (distance_matrix p)
    /\ Forall (fun row => length row = w) (distance_matrix p').
Proof.
  intros Hw Hg H. unfold without_edge_branch in H. rewrite Hg in H.
  unfold edge_to_real_indexes, bound in *. simpl in H.
  destruct (edge_to_real_indexes_matrix _ e) as [[i j]| |] eqn:Eij; simpl in H;
    try discriminate.
  destruct (set_cell _ i j PInf) as [m1| |] eqn:E1; simpl in H; try discriminate.
  destruct (bound_matrix m1) as [[m2 c]| |] eqn:E2; simpl in H; try discriminate.
  injection H as <-. simpl.
  destruct (set_cell_shape _ _ _ _ _ E1) as [S1 S1w].
  destruct (bound_matrix_shape _ _ _ E2) as (S2 & S20 & S2h & S2w).
  assert (Hc1 : cell m1 i j = Ok PInf).
  { unfold set_cell in E1. unfold ndarray in *.
    match type of E1 with
    | context [match ?t with _ => _ end] => destruct t as [row|] eqn:Er; [|discriminate]
    end.
    destruct (decide (j < length row)); [|discriminate]. injection E1 as <-.
    apply cell_Ok. unfold ndarray.
    rewrite list_lookup_insert_eq by (by eapply lookup_lt_Some). simpl.
    by rewrite list_lookup_insert_eq. }
  assert (Hcell : exists x, cell m2 i j = Ok x /\ inf_or_nan x = true).
  { destruct i as [|i].
    - exists PInf. split; [|done]. apply cell_Ok. apply cell_Ok in Hc1.
      unfold ndarray in *. by rewrite S20.
    - destruct j as [|j].
      + exists PInf. split; [|done]. apply cell_Ok. apply cell_Ok in Hc1.
        unfold ndarray in *.
        destruct (m1 !! S i) as [row|] eqn:Er; simpl in Hc1; [|done].
        destruct (Forall2_lookup_l _ _ _ _ _ S2h Er) as (row' & Hr' & Hh).
        rewrite Hr'. simpl. rewrite <- !head_lookup in *. congruence.
      + destruct (bound_matrix_cell m1 m2 c w i j PInf (S1w w Hw) E2 Hc1) as (rm & cm & Hx).
        eexists. split; [exact Hx|]. apply fsub_inf_or_nan_any, fsub_inf_any. }
  destruct Hcell as (x & Hx & Hinf). exists i, j, x.
  repeat split; auto. congruence.
Qed.


Lemma without_edge_branch_closes_cell_witness :
  exists p',
    without_edge_branch node_A3 (fz 2, fz 3) = Ok p'
    /\ exists i j x,
         edge_to_real_indexes node_A3 (fz 2, fz 3) = Ok (i, j)
         /\ cell (distance_matrix p') i j = Ok x /\ inf_or_nan x = true
         /\ length (distance_matrix p') = length (distance_matrix node_A3)
         /\ Forall (fun row => length row = 4) (distance_matrix p').
Proof.
  eexists. split; [vm_compute; reflexivity|].
  apply (without_edge_branch_closes_cell node_A3 _ (fz 2, fz 3) 4).
  - repeat constructor.
  - reflexivity.
  - vm_compute. reflexivity.
Defined.

(** ** The root node *)

Lemma index_error_only_bind {A B} (m : result A) (f : A -> result B) :
  index_error_only m -> (forall a, m = Ok a -> index_error_only (f a)) ->
  index_error_only (m ≫= f).
Proof. destruct m; simpl; auto. Qed.

Lemma index_error_only_for_range {St} lo n (body : nat -> St -> result St) s :
  (forall i t, index_error_only (body i t)) -> index_error_only (for_range lo n body s).
Proof.
  intros Hb. revert lo s. induction n as [|n IH]; intros lo s; simpl; [done|].
  apply index_error_only_bind; auto.
Qed.

Lemma index_error_only_cell m i j : index_error_only (cell m i j).
Proof. unfold cell. destruct (m !! i) as [row|]; [|done]. by destruct (row !! j). Qed.

Lemma index_error_only_set_cell m i j v : index_error_only (set_cell m i j v).
Proof. unfold set_cell. destruct (m !! i) as [row|]; [|done]. by destruct (decide _). Qed.

Lemma index_error_only_row_len m i : index_error_only (row_len m i).
Proof. unfold row_len. by destruct (m !! i). Qed.

Ltac index_error_step :=
  match goal with
  | |- index_error_only (mbind _ _) => apply index_error_only_bind; [|intros ? _]
  | |- index_error_only (for_range _ _ _ _) => apply index_error_only_for_range; intros ? ?
  | |- index_error_only (cell _ _ _) => apply index_error_only_cell
  | |- index_error_only (set_cell _ _ _ _) => apply index_error_only_set_cell
  | |- index_error_only (row_len _ _) => apply index_error_only_row_len
  | |- index_error_only (Ok _) => exact I
  | |- index_error_only (let '(_, _) := ?p in _) => destruct p
  | |- index_error_only (if ?c then _ else _) => destruct c
  | |- index_error_only (match ?p with (_, _) => _ end) => destruct p
  end.

(** [convert] raises nothing but [IndexError]. *)
Lemma convert_index_error_only D k : index_error_only (convert D k).
Proof. unfold convert. repeat index_error_step. Qed.



Lemma has_cells_table m n f : has_cells m n f -> m = table f 0 n.
Proof.
  intros (Hlen & Hrows & Hcell). unfold table. apply list_eq. intros i.
  rewrite list_lookup_fmap. destruct (decide (i < n)) as [Hi|Hi].
  - rewrite lookup_seq_lt by done. simpl.
    destruct (lookup_lt_is_Some_2 m i ltac:(lia)) as [row Hrow]. rewrite Hrow. f_equal.
    assert (Hrl : length row = n).
    { rewrite Forall_forall in Hrows. apply Hrows. by eapply list_elem_of_lookup_2. }
    apply list_eq. intros j. rewrite list_lookup_fmap.
    destruct (decide (j < n)) as [Hj|Hj].
    + rewrite lookup_seq_lt by done. simpl. specialize (Hcell i j Hi Hj).
      apply cell_Ok in Hcell. unfold ndarray in *. by rewrite Hrow in Hcell.
    + rewrite lookup_seq_ge by lia. simpl. apply lookup_ge_None. lia.
  - rewrite lookup_seq_ge by lia. simpl. apply lookup_ge_None. lia.
Qed.

Lemma data_of_table f n : data_of (table f 0 (S n)) = table f 1 n.
Proof.
  unfold data_of, table. simpl. rewrite drop_0, map_map. by apply map_ext.
Qed.

Lemma table_Forall (P : fl -> Prop) f lo n :
  (forall i j, lo <= i < lo + n -> lo <= j < lo + n -> P (f i j)) ->
  Forall (Forall P) (table f lo n).
Proof.
  intros H. unfold table. apply Forall_fmap, Forall_seq. intros i Hi. simpl.
  apply Forall_fmap, Forall_seq. intros j Hj. simpl. by apply H.
Qed.

Lemma table_rows_finite f lo n :
  (forall i, lo <= i < lo + n -> exists j, lo <= j < lo + n /\ is_finite (f i j) = true) ->
  Forall has_finite (table f lo n).
Proof.
  intros H. unfold table. apply Forall_fmap, Forall_seq. intros i Hi. simpl.
  destruct (H i Hi) as (j & Hj & Hf). unfold has_finite. apply Exists_exists.
  exists (f i j). split; [|done]. apply list_elem_of_fmap. exists j. split; [done|].
  apply elem_of_seq. lia.
Qed.

Lemma table_shape f lo n : Forall (fun row => length row = n) (table f lo n).
Proof.
  unfold table. apply Forall_fmap, Forall_seq. intros i Hi. simpl.
  by rewrite length_map, length_seq.
Qed.

Lemma table_columns_finite f lo n :
  0 < n ->
  (forall j, lo <= j < lo + n -> exists i, lo <= i < lo + n /\ is_finite (f i j) = true) ->
  Forall has_finite (columns (table f lo n)).
Proof.
  intros Hn H.
  apply (columns_Forall has_finite (table f lo n) n).
  - unfold table. destruct n; [lia|]. done.
  - apply table_shape.
  - intros j Hj. destruct (H (lo + j)) as (i & Hi & Hf); [lia|].
    unfold has_finite, column_of, table. apply Exists_exists.
    exists (f i (lo + j)). split; [|done].
    rewrite <- list_fmap_compose. apply list_elem_of_fmap. exists i. split.
    + simpl. symmetry. apply nth_lookup_Some. rewrite list_lookup_fmap.
      by rewrite lookup_seq_lt.
    + apply elem_of_seq. lia.
Qed.

Lemma raw_finite D r c :
  square D -> Forall (Forall (fun x => is_finite x = true /\ nonneg x = true)) D ->
  r < length D -> c < length D ->
  is_finite (raw D r c) = true /\ nonneg (raw D r c) = true.
Proof.
  intros Hsq HD Hr Hc. unfold raw.
  destruct (lookup_lt_is_Some_2 D r Hr) as [row Hrow]. rewrite Hrow. simpl.
  unfold square in Hsq. rewrite Forall_forall in Hsq, HD.
  assert (Hin : row ∈ D) by (by eapply list_elem_of_lookup_2).
  destruct (lookup_lt_is_Some_2 row c) as [x Hx]; [by rewrite (Hsq row Hin)|].
  rewrite Hx. simpl. specialize (HD row Hin). rewrite Forall_forall in HD.
  apply HD. by eapply list_elem_of_lookup_2.
Qed.




(** ** Branching *)

Lemma with_edge_branch_decisions p e p' :
  with_edge_branch p e = Ok p' ->
  edges_True p `prefix_of` edges_True p'
  /\ edges_False p' = edges_False p
  /\ (edge_in e (edges_True p) = true \/ e ∈ edges_True p').
Proof.
  intros H. destruct (edge_in e (edges_True p)) eqn:Hg.
  { unfold with_edge_branch in H. rewrite Hg in H. injection H as <-. simpl. auto. }
  destruct (with_edge_branch_steps _ _ _ Hg H) as (i & j & _ & Hc).
  destruct Hc as [[_ (e1 & e2 & rs & f & ->)]|[_ (rs & m2 & m3 & c & f & _ & _ & ->)]];
    simpl; (split; [by eexists|]); (split; [done|]); right;
    apply elem_of_app; right; apply elem_of_cons; by left.
Qed.

Lemma without_edge_branch_decisions p e p' :
  without_edge_branch p e = Ok p' ->
  edges_True p' = edges_True p
  /\ edges_False p `prefix_of` edges_False p'
  /\ (edge_in e (edges_False p) = true \/ e ∈ edges_False p')
  /\ routes p' = routes p.
Proof.
  intros H. unfold without_edge_branch in H.
  destruct (edge_in e (edges_False p)) eqn:Hg; [injection H as <-; simpl; auto|].
  unfold edge_to_real_indexes, bound in H. simpl in H.
  destruct (edge_to_real_indexes_matrix _ e) as [[i j]| |]; simpl in H; try discriminate.
  destruct (set_cell _ i j PInf) as [m1| |]; simpl in H; try discriminate.
  destruct (bound_matrix m1) as [[m2 c]| |]; simpl in H; try discriminate.
  injection H as <-. simpl. split; [done|]. split; [by eexists|]. split; [|done].
  right. apply elem_of_app. right. apply elem_of_cons. by left.
Qed.

(** X21.  [branch] splits on the edge that [select_edge] returns.  When it
    returns it has added two nodes to the end of the pool and changed
    nothing else in the engine: the left child, which holds the edge among
    its included edges, and the right child, which holds it among its
    excluded edges and has no routes.  Both keep every decision of the node
    that is branched. *)
Theorem branch_splits_on_selected_edge (e e' : BranchNBound) (s : BnBPartialSolution) :
  branch e s = Ok e' ->
  exists best left_ right_,
    select_edge s = Ok (Some best)
    /\ e' = set_partial_solutions (partial_solutions e ++ [left_; right_]) e
    /\ edges_True s `prefix_of` edges_True left_
    /\ edges_False left_ = edges_False s
    /\ (edge_in best (edges_True s) = true \/ best ∈ edges_True left_)
    /\ edges_True right_ = edges_True s
    /\ edges_False s `prefix_of` edges_False right_
    /\ (edge_in best (edges_False s) = true \/ best ∈ edges_False right_)
    /\ routes right_ = None.
Proof.
  intros H. apply branch_Ok in H as (best & l & r & Hsel & Hl & Hr & ->).
  apply with_edge_branch_decisions in Hl as (L1 & L2 & L3).
  apply without_edge_branch_decisions in Hr as (R1 & R2 & R3 & R4).
  exists best, l, r. simpl in *. repeat split; auto.
Qed.

Lemma branch_splits_on_selected_edge_witness :
  exists e',
    branch (mkEngine [] (Some (fz 11)) None 2 (Some (fz 11))) node_A3 = Ok e'
    /\ exists best left_ right_,
         select_edge node_A3 = Ok (Some best)
         /\ e' = mkEngine [left_; right_] (Some (fz 11)) None 2 (Some (fz 11))
         /\ edges_True node_A3 `prefix_of` edges_True left_
         /\ edges_False left_ = edges_False node_A3
         /\ (edge_in best (edges_True node_A3) = true \/ best ∈ edges_True left_)
         /\ edges_True right_ = edges_True node_A3
         /\ edges_False node_A3 `prefix_of` edges_False right_
         /\ (edge_in best (edges_False node_A3) = true \/ best ∈ edges_False right_)
         /\ routes right_ = None.
Proof.
  eexists. split; [vm_compute; reflexivity|].
  apply (branch_splits_on_selected_edge
           (mkEngine [] (Some (fz 11)) None 2 (Some (fz 11))) _ node_A3).
  vm_compute. reflexivity.
Defined.

(** X22.  Without a candidate the pass fails.  When [select_edge] returns
    [(None, None)] for the node that is popped, that is when no data cell of
    the node has a penalty above 0, the left transition looks up the labels
    [None] and raises: in a matrix whose rows all have a label, [branch]
    raises [ValueError], and so does [run]. *)
Theorem branch_without_candidate (np_getitem : ndarray -> fl -> fl -> option fl)
    (e0 e : BranchNBound) (s : BnBPartialSolution) :
  pop_most_promising_solution e0 = Ok (s, e) ->
  select_edge s = Ok None ->
  distance_matrix s <> [] ->
  Forall (fun row => row <> []) (distance_matrix s) ->
  branch e s = Err ValueError /\ run np_getitem e0 = Err ValueError.
Proof.
  intros Hpop Hsel Hne Hrows.
  assert (Hb : branch e s = Err ValueError).
  { unfold branch. rewrite Hsel. simpl.
    assert (exists col0, column (distance_matrix s) 0 = Ok col0) as [col0 ->].
    { clear -Hrows. induction Hrows as [|row m Hrow F [col IH]].
      - by exists [].
      - destruct row as [|v row]; [done|]. exists (v :: col).
        unfold column in *. simpl. by rewrite IH. }
    simpl. unfold row_len. by destruct (distance_matrix s). }
  split; [done|]. unfold run. simpl.
  destruct (partial_solutions e0) eqn:Ep.
  { unfold pop_most_promising_solution in Hpop. by rewrite Ep in Hpop. }
  unfold run_body. rewrite Hpop. simpl. by rewrite Hb.
Qed.


Lemma branch_without_candidate_witness :
  exists e0 s e,
    initialize new_engine instance_C (Some (fz 100)) = Ok e0
    /\ pop_most_promising_solution e0 = Ok (s, e)
    /\ branch e s = Err ValueError /\ run getitem_trunc e0 = Err ValueError.
Proof.
  eexists. eexists. eexists.
  split; [vm_compute; reflexivity|].
  split; [vm_compute; reflexivity|].
  apply (branch_without_candidate getitem_trunc).
  - vm_compute. reflexivity.
  - vm_compute. reflexivity.
  - discriminate.
  - repeat constructor; discriminate.
Defined.

(** ** Sub-tour elimination *)

Lemma add_edge_nodes_elem acc e x :
  x ∈ add_edge_nodes acc e -> x ∈ acc \/ x = e.1 \/ x = e.2.
Proof.
  unfold add_edge_nodes. intros H.
  repeat match type of H with
         | context [if ?c then _ else _] => destruct c
         end;
    repeat (apply elem_of_app in H as [H|H]; [|apply list_elem_of_singleton in H]); auto.
Qed.

Lemma route_edges_to_nodes_elem route x :
  x ∈ route_edges_to_nodes route -> exists e, e ∈ route /\ (x = e.1 \/ x = e.2).
Proof.
  rewrite route_edges_to_nodes_fold.
  assert (G : forall acc, x ∈ fold_left add_edge_nodes route acc ->
                          x ∈ acc \/ exists e, e ∈ route /\ (x = e.1 \/ x = e.2)).
  { induction route as [|e route IH]; intros acc H; simpl in H; [by left|].
    apply IH in H as [H|(e' & He' & H)].
    - apply add_edge_nodes_elem in H as [H|H]; [by left|].
      right. exists e. split; [apply elem_of_cons; by left|done].
    - right. exists e'. split; [apply elem_of_cons; by right|done]. }
  intros H. apply G in H as [H|H]; [by apply elem_of_nil in H|done].
Qed.

Lemma same_labels_lookup m m' e :
  same_labels m m' -> edge_to_real_indexes_matrix m' e = edge_to_real_indexes_matrix m e.
Proof.
  intros [H0 Hc]. destruct e as [r c]. unfold edge_to_real_indexes_matrix.
  unfold ndarray in *. by rewrite Hc, H0.
Qed.

(** A write that is not in row 0 or column 0 keeps the labels, writes
    what it is asked to, and keeps the cells that hold plus infinity. *)
Lemma set_cell_inner m i j m' :
  set_cell m (S i) (S j) PInf = Ok m' ->
  same_labels m m'
  /\ cell m' (S i) (S j) = Ok PInf
  /\ forall a b, cell m a b = Ok PInf -> cell m' a b = Ok PInf.
Proof.
  unfold set_cell. unfold ndarray in *. intros H.
  destruct (m !! S i) as [row|] eqn:Er; [|discriminate].
  destruct (decide (S j < length row)); [|discriminate]. injection H as <-.
  pose proof (lookup_lt_Some _ _ _ Er) as Hi.
  split; [split|split].
  - unfold ndarray. by rewrite list_lookup_insert_ne.
  - unfold column. destruct m as [|row0 m]; [done|]. simpl in *.
    f_equal. clear Hi. revert i Er. induction m as [|r m IH]; intros i Er; [done|].
    destruct i as [|i]; simpl in *.
    + injection Er as ->. by destruct row.
    + by rewrite (IH i Er).
  - apply cell_Ok. unfold ndarray. rewrite list_lookup_insert_eq by done. simpl.
    by rewrite list_lookup_insert_eq.
  - intros a b Hab. apply cell_Ok in Hab. apply cell_Ok. unfold ndarray in *.
    destruct (decide (a = S i)) as [->|Ha].
    + rewrite list_lookup_insert_eq by done. rewrite Er in Hab. simpl in *.
      destruct (decide (b = S j)) as [->|Hb].
      * by rewrite list_lookup_insert_eq.
      * by rewrite list_lookup_insert_ne.
    + by rewrite list_lookup_insert_ne.
Qed.

(** A label that is not [==] to the corner is not found at position 0. *)
Lemma edge_to_real_indexes_inner m r c i j :
  cell m 0 0 = Ok PInf -> is_finite r = true -> is_finite c = true ->
  edge_to_real_indexes_matrix m (r, c) = Ok (i, j) -> 0 < i /\ 0 < j.
Proof.
  intros H00 Hr Hc H. unfold edge_to_real_indexes_matrix in H.
  destruct (column m 0) as [col0| |] eqn:Ec; simpl in H; try discriminate.
  unfold ndarray in *.
  destruct (m !! 0) as [row0|] eqn:E0; simpl in H; [|discriminate].
  destruct (find_index _ col0) as [i'|] eqn:Ei; [|discriminate].
  destruct (find_index _ row0) as [j'|] eqn:Ej; [|discriminate].
  injection H as -> ->.
  apply find_index_Some in Ei as [(x & Hx & Hfx) _].
  apply find_index_Some in Ej as [(y & Hy & Hfy) _].
  apply cell_Ok in H00. unfold ndarray in *. rewrite E0 in H00. simpl in H00.
  rewrite (column_lookup m 0 col0 Ec) in Hx. split.
  - destruct i; [|lia]. unfold ndarray in *. rewrite E0 in Hx. simpl in Hx.
    assert (x = PInf) as -> by congruence. by destruct r.
  - destruct j; [|lia]. assert (y = PInf) as -> by congruence. by destruct c.
Qed.

Lemma forbid_closing_inner m0 m route m' :
  cell m0 0 0 = Ok PInf -> same_labels m0 m ->
  Forall (fun x => is_finite x = true) route ->
  forbid_closing route m = Ok m' ->
  same_labels m0 m'
  /\ (forall a b, cell m a b = Ok PInf -> cell m' a b = Ok PInf)
  /\ forall z a i j,
       last route = Some z -> head route = Some a ->
       edge_to_real_indexes_matrix m0 (z, a) = Ok (i, j) -> cell m' i j = Ok PInf.
Proof.
  intros H00 Hlab Hfin H. unfold forbid_closing in H.
  destruct (last route) as [z|] eqn:Ez; [|discriminate].
  destruct (head route) as [a|] eqn:Ea; [|discriminate].
  rewrite (same_labels_lookup _ _ _ Hlab) in H.
  assert (Hz : is_finite z = true).
  { rewrite Forall_forall in Hfin. apply Hfin. rewrite last_lookup in Ez.
    by eapply list_elem_of_lookup_2. }
  assert (Ha : is_finite a = true).
  { rewrite Forall_forall in Hfin. apply Hfin. rewrite head_lookup in Ea.
    by eapply list_elem_of_lookup_2. }
  destruct (edge_to_real_indexes_matrix m0 (z, a)) as [[i j]|[]|] eqn:Eij;
    try discriminate.
  - destruct (edge_to_real_indexes_inner _ _ _ _ _ H00 Hz Ha Eij) as [Hi Hj].
    destruct i as [|i]; [lia|]. destruct j as [|j]; [lia|].
    apply set_cell_inner in H as ((S0 & Sc) & Hcell & Hkeep).
    destruct Hlab as [L0 Lc]. split; [split; congruence|]. split; [done|].
    intros z' a' i' j' [= <-] [= <-] Hij'. rewrite Eij in Hij'.
    by injection Hij' as <- <-.
  - injection H as <-. split; [done|]. split; [done|].
    intros z' a' i' j' [= <-] [= <-] Hij'. rewrite Eij in Hij'. discriminate.
Qed.

Lemma fold_forbid_closing_inner m0 rs m m' :
  cell m0 0 0 = Ok PInf -> same_labels m0 m ->
  Forall (Forall (fun x => is_finite x = true)) rs ->
  fold_result forbid_closing rs m = Ok m' ->
  same_labels m0 m'
  /\ (forall a b, cell m a b = Ok PInf -> cell m' a b = Ok PInf)
  /\ forall route z a i j,
       route ∈ rs -> last route = Some z -> head route = Some a ->
       edge_to_real_indexes_matrix m0 (z, a) = Ok (i, j) -> cell m' i j = Ok PInf.
Proof.
  intros H00. revert m. induction rs as [|r rs IH]; intros m Hlab Hfin H; simpl in H.
  { injection H as <-. split; [done|]. split; [done|].
    intros route z a i j Hr. by apply elem_of_nil in Hr. }
  inversion Hfin as [|? ? Hr Hrs]; subst.
  destruct (forbid_closing r m) as [m1| |] eqn:E; simpl in H; try discriminate.
  destruct (forbid_closing_inner m0 m r m1 H00 Hlab Hr E) as (L1 & K1 & C1).
  destruct (IH m1 L1 Hrs H) as (L2 & K2 & C2).
  split; [done|]. split; [auto|].
  intros route z a i j Hin Hz Ha Hij. apply elem_of_cons in Hin as [->|Hin].
  - apply K2. by eapply C1.
  - by eapply C2.
Qed.

(** X23.  [prevent_revisiting] forbids the edge that would close each route.
    On a node whose matrix holds plus infinity in its corner and whose
    routes run over finite node ids, it changes the matrix only: the labels
    stay, every cell that holds plus infinity keeps it, and for every route
    the cell that leads from its last node to its first node, where
    [edge_to_real_indexes] finds it, holds plus infinity. *)
Theorem prevent_revisiting_closes_routes (p p' : BnBPartialSolution)
    (rs : list (list edge)) :
  routes p = Some rs ->
  cell (distance_matrix p) 0 0 = Ok PInf ->
  Forall (Forall (fun e => is_finite e.1 = true /\ is_finite e.2 = true)) rs ->
  prevent_revisiting p = Ok p' ->
  p' = set_distance_matrix (distance_matrix p') p
  /\ same_labels (distance_matrix p) (distance_matrix p')
  /\ (forall a b, cell (distance_matrix p) a b = Ok PInf ->
                  cell (distance_matrix p') a b = Ok PInf)
  /\ forall route z a i j,
       route ∈ rs ->
       last (route_edges_to_nodes route) = Some z ->
       head (route_edges_to_nodes route) = Some a ->
       edge_to_real_indexes p (z, a) = Ok (i, j) ->
       cell (distance_matrix p') i j = Ok PInf.
Proof.
  intros Hrs H00 Hfin H. unfold prevent_revisiting, routes_edges_to_nodes in H.
  rewrite Hrs in H. simpl in H.
  destruct (fold_result forbid_closing _ (distance_matrix p)) as [m'| |] eqn:E;
    simpl in H; try discriminate.
  injection H as <-. simpl.
  assert (Hnodes : Forall (Forall (fun x => is_finite x = true)) (map route_edges_to_nodes rs)).
  { apply Forall_fmap. eapply Forall_impl; [exact Hfin|]. simpl. intros route Hroute.
    apply Forall_forall. intros x Hx.
    apply route_edges_to_nodes_elem in Hx as (e & He & Hxe).
    rewrite Forall_forall in Hroute. destruct (Hroute e He) as [H1 H2].
    by destruct Hxe as [->| ->]. }
  destruct (fold_forbid_closing_inner (distance_matrix p) _ _ m' H00
              (conj eq_refl eq_refl) Hnodes E) as (L & K & C).
  split; [by destruct p|]. split; [done|]. split; [done|].
  intros route z a i j Hin Hz Ha Hij.
  apply (C (route_edges_to_nodes route) z a); auto.
  apply list_elem_of_fmap. by exists route.
Qed.


Lemma prevent_revisiting_closes_routes_witness :
  exists p',
    prevent_revisiting (set_routes (Some [[(fz 4, fz 3)]]) node_A3) = Ok p'
    /\ p' = set_distance_matrix (distance_matrix p')
              (set_routes (Some [[(fz 4, fz 3)]]) node_A3)
    /\ same_labels (distance_matrix node_A3) (distance_matrix p')
    /\ (forall a b, cell (distance_matrix node_A3) a b = Ok PInf ->
                    cell (distance_matrix p') a b = Ok PInf)
    /\ forall route z a i j,
         route ∈ [[(fz 4, fz 3)]] ->
         last (route_edges_to_nodes route) = Some z ->
         head (route_edges_to_nodes route) = Some a ->
         edge_to_real_indexes node_A3 (z, a) = Ok (i, j) ->
         cell (distance_matrix p') i j = Ok PInf.
Proof.
  eexists. split; [vm_compute; reflexivity|].
  apply (prevent_revisiting_closes_routes
           (set_routes (Some [[(fz 4, fz 3)]]) node_A3) _ [[(fz 4, fz 3)]]).
  - reflexivity.
  - reflexivity.
  - repeat constructor.
  - vm_compute. reflexivity.
Defined.

(** In [node_A3] with the route 4, 3 the cell from the node 3 to the node
    4, which held 0, is closed. *)
Example prevent_revisiting_route_4_3 :
  (p ← prevent_revisiting (set_routes (Some [[(fz 4, fz 3)]]) node_A3);
   Ok (distance_matrix p))
  = Ok [[PInf; fz 1; fz 3; fz 4];
        [fz 2; PInf; fz 0; PInf];
        [fz 3; fz 3; PInf; PInf];
        [fz 4; fz 0; fz 0; PInf]].
Proof. vm_compute. reflexivity. Qed.

(** ** The value of a solution *)

Lemma route_value_cons g p a b rest distance :
  route_value g p (a :: b :: rest) distance
  = (d ← distance_between g p a b; route_value g p (b :: rest) (fadd distance d)).
Proof. reflexivity. Qed.

Lemma legs_cons a b rest : legs (a :: b :: rest) = (a, b) :: legs (b :: rest).
Proof. reflexivity. Qed.

Lemma route_value_legs g p route distance :
  route_value g p route distance
  = (ds ← map_result (fun '(a, b) => distance_between g p a b) (legs route);
     Ok (fold_left fadd ds distance)).
Proof.
  revert distance. induction route as [|a route IH]; intros distance; [done|].
  destruct route as [|b route]; [done|].
  rewrite route_value_cons, legs_cons. cbn [map_result].
  destruct (distance_between g p a b) as [d| |]; [|done|done].
  cbn [mbind result_bind]. rewrite IH.
  by destruct (map_result _ (legs (b :: route))).
Qed.

Lemma map_result_app {A B} (f : A -> result B) l1 l2 :
  map_result f (l1 ++ l2)
  = (ys1 ← map_result f l1; ys2 ← map_result f l2; Ok (ys1 ++ ys2)).
Proof.
  induction l1 as [|x l1 IH]; simpl.
  { by destruct (map_result f l2). }
  destruct (f x) as [y| |]; simpl; [|done|done]. rewrite IH.
  destruct (map_result f l1) as [ys1| |]; simpl; [|done|done].
  by destruct (map_result f l2).
Qed.

Lemma fold_route_value_legs g p rs distance :
  fold_result (route_value g p) rs distance
  = (ds ← map_result (fun '(a, b) => distance_between g p a b) (concat (map legs rs));
     Ok (fold_left fadd ds distance)).
Proof.
  revert distance. induction rs as [|r rs IH]; intros distance; [done|].
  simpl. rewrite route_value_legs, map_result_app.
  destruct (map_result _ (legs r)) as [ds1| |]; simpl; [|done|done].
  rewrite IH. destruct (map_result _ (concat (map legs rs))) as [ds2| |]; simpl;
    [|done|done].
  by rewrite fold_left_app.
Qed.



(** ** What [run] reports *)

Lemma improved_trans g e1 e2 e3 : improved g e1 e2 -> improved g e2 e3 -> improved g e1 e3.
Proof.
  intros [[H1 H2]|(s & v & ub & Hsol & Hf & Hv & Hub & Hlt & Hub' & Hbest)]
         [[K1 K2]|(s' & v' & ub' & Ksol & Kf & Kv & Kub & Klt & Kub' & Kbest)].
  - left. split; congruence.
  - right. exists s', v', ub'. repeat split; auto. congruence.
  - right. exists s, v, ub. repeat split; auto; congruence.
  - right. exists s', v', ub. repeat split; auto.
    assert (ub' = v) by congruence. subst ub'. by apply flt_trans with v.
Qed.

Lemma run_body_improved g e e' : run_body g e = Ok e' -> improved g e e'.
Proof.
  unfold run_body. intros H.
  destruct (pop_most_promising_solution e) as [[s e1]| |] eqn:Ep; simpl in H;
    try discriminate.
  destruct (branch e1 s) as [e2| |] eqn:Eb; simpl in H; try discriminate.
  apply pop_Ok in Ep as (index & Hs & ->).
  apply branch_Ok in Eb as (best_edge & l & r & _ & _ & _ & ->).
  apply prune_loop_sweep in H as (_ & _ & _ & [H|(s' & v & ub & _ & H)]).
  - by left.
  - right. by exists s', v, ub.
Qed.

Lemma run_loop_improved g fuel e e' : run_loop g fuel e = Ok e' -> improved g e e'.
Proof.
  revert e. induction fuel as [|fuel IH]; intros e H; simpl in H.
  - destruct (partial_solutions e); [|discriminate]. injection H as <-. by left.
  - destruct (partial_solutions e); [injection H as <-; by left|].
    destruct (run_body g e) as [e1| |] eqn:E1; simpl in H; try discriminate.
    apply run_body_improved in E1.
    destruct (decide (200 < times_branched e1)); [by injection H as <-|].
    eapply improved_trans; [exact E1|]. by apply IH.
Qed.

(** X25.  What [run] returns belongs together.  The distance and the routes
    are the upper bound and the routes of the incumbent that the engine
    started with, when no better solution was found; otherwise the routes
    are those of a solved node that counted as feasible, and the distance is
    the value that [calculate_value] gives for it, which is below the upper
    bound that the engine started with. *)
Theorem run_reports_incumbent (np_getitem : ndarray -> fl -> fl -> option fl)
    (e : BranchNBound) (distance : option fl) (rts : option (list (list edge)))
    (n : nat) :
  run np_getitem e = Ok (distance, rts, n) ->
  (distance = upper_bound e
   /\ exists best, current_best e = Some best /\ rts = routes best)
  \/ exists s v ub,
       is_solved s = true /\ truthy (is_feasible s) = true
       /\ calculate_value np_getitem s = Ok v
       /\ upper_bound e = Some ub /\ flt v ub = true
       /\ distance = Some v /\ rts = routes s.
Proof.
  unfold run, report. intros H.
  destruct (run_loop np_getitem _ e) as [e'| |] eqn:E; simpl in H; try discriminate.
  destruct (current_best e') as [best|] eqn:Eb; [|discriminate].
  injection H as <- <- <-.
  apply run_loop_improved in E as [[H1 H2]|(s & v & ub & Hsol & Hf & Hv & Hub & Hlt & Hub' & Hbest)].
  - left. split; [done|]. exists best. split; [congruence|done].
  - right. exists s, v, ub. repeat split; auto. congruence.
Qed.

Lemma run_reports_incumbent_witness :
  exists e,
    initialize new_engine instance_D (Some (fz 100)) = Ok e
    /\ ((Some (fz 7) = upper_bound e
         /\ exists best, current_best e = Some best
                         /\ Some [[(fz 2, fz 1); (fz 1, fz 3); (fz 3, fz 1)]] = routes best)
        \/ exists s v ub,
             is_solved s = true /\ truthy (is_feasible s) = true
             /\ calculate_value getitem_trunc s = Ok v
             /\ upper_bound e = Some ub /\ flt v ub = true
             /\ Some (fz 7) = Some v
             /\ Some [[(fz 2, fz 1); (fz 1, fz 3); (fz 3, fz 1)]] = routes s).
Proof.
  eexists. split; [vm_compute; reflexivity|].
  apply (run_reports_incumbent getitem_trunc _ _ _ 201).
  vm_compute. reflexivity.
Defined.

(** ** Leaves that are branched again *)

Lemma edge_to_real_indexes_errors m e x :
  edge_to_real_indexes_matrix m e = Err x -> x = ValueError \/ x = IndexError.
Proof.
  destruct e as [r c]. unfold edge_to_real_indexes_matrix. intros H.
  pose proof (terminates_column m 0) as Tc.
  assert (Hcol : forall x, column m 0 = Err x -> x = IndexError).
  { unfold column. clear. induction m as [|row m IH]; intros x H; simpl in H; [done|].
    destruct (row !! 0); simpl in H; [|by injection H as <-].
    destruct (map_result _ m) as [vs|y|]; simpl in H; try discriminate.
    injection H as <-. by apply IH. }
  destruct (column m 0) as [col0|y|]; simpl in H; [| |done].
  - destruct (m !! 0) as [row0|]; simpl in H; [|injection H as <-; by right].
    destruct (find_index _ col0); [|injection H as <-; by left].
    destruct (find_index _ row0); [discriminate|injection H as <-; by left].
  - injection H as <-. right. by apply Hcol.
Qed.

(** X26.  A node that is a leaf already cannot take another edge.  Past its
    guard, [with_edge_branch] on a matrix of three rows or fewer, the size
    that a solved leaf has, raises [ValueError] or [IndexError]: the lookup
    of the edge fails, or the matrix that is left is too small for
    [is_leaf].  A solved node that the sweep has left in the pool fails in
    this way when it is branched. *)
Theorem with_edge_branch_needs_rows (p : BnBPartialSolution) (e : edge) :
  length (distance_matrix p) <= 3 ->
  edge_in e (edges_True p) = false ->
  with_edge_branch p e = Err ValueError \/ with_edge_branch p e = Err IndexError.
Proof.
  intros Hlen Hg. unfold with_edge_branch. rewrite Hg.
  unfold edge_to_real_indexes. simpl.
  pose proof (terminates_edge_to_real_indexes_matrix (distance_matrix p) e) as Tl.
  destruct (edge_to_real_indexes_matrix (distance_matrix p) e) as [[i j]|x|] eqn:Eij;
    simpl; [| |done].
  - apply edge_to_real_indexes_in_range in Eij as (Hi & _).
    pose proof (length_delete_lt _ _ Hi) as Hd.
    unfold is_leaf. simpl. rewrite length_map.
    destruct (decide (length (delete i (distance_matrix p)) = 3)); [unfold ndarray in *; lia|].
    destruct (decide (length (delete i (distance_matrix p)) < 3)); [by left|].
    unfold ndarray in *. lia.
  - apply edge_to_real_indexes_errors in Eij as [->| ->]; auto.
Qed.

Lemma with_edge_branch_needs_rows_witness :
  with_edge_branch
    (partial_of [[PInf; fz 1; fz 3]; [fz 2; fz 0; PInf]; [fz 3; PInf; fz 7]])
    (fz 2, fz 1) = Err ValueError
  \/ with_edge_branch
       (partial_of [[PInf; fz 1; fz 3]; [fz 2; fz 0; PInf]; [fz 3; PInf; fz 7]])
       (fz 2, fz 1) = Err IndexError.
Proof.
  apply with_edge_branch_needs_rows.
  - simpl. lia.
  - reflexivity.
Defined.
